(** * rest_trace_fuzzer: the analysis scripts under [scripts/]

    A shallow embedding of the scripts that carry logic,

    - [scripts/compare_callinfo_graph.py]   ([load_edges], [compare_coverage]),
    - [scripts/test_process_visualize.py]   ([extract_test_scenarios],
      [plot_graphs], [main]),
    - [scripts/CoSREST/convert_sisp_to_dict.py]   ([extract_valid_samples]),
    - [scripts/internal_service_report_visualize.py]   ([build_graph],
      [draw_graph], [main]),

    over a small model of the Python values they handle, followed by the
    properties of the edge differencing engine, of the log parser and of the
    sample extractor.

    Conventions of the model.

    - Files are read by the callers: a function that opens a JSON file takes
      the value [json.load] returned, a function that reads a log takes the
      list of its lines.
    - A Python [str] is a [string] over the ASCII alphabet.  On that alphabet
      [\d] is [0-9] and [re.IGNORECASE] folds [A-Z] onto [a-z].
    - A Python [float] is the rational number it denotes ([Q]); rounding to
      binary64 and the [NaN]/[Infinity] literals that [json] accepts beyond
      the JSON grammar are outside the model.
    - An exception is a value of [exc]; a computation that may raise returns
      a [result].
    - matplotlib and networkx are not the repository's: a run is taken with
      the answer of its libraries, the exception, if any, of each call the
      script makes. *)

From Stdlib Require Import List String Ascii Bool ZArith QArith Lia Permutation.
Import ListNotations.

Set Warnings "-register-all".
Local Open Scope string_scope.
Local Open Scope list_scope.

(* ================================================================== *)
(** * The Python fragment *)
(* ================================================================== *)

Module Py.

(** The built-in exceptions the scripts can raise, and those a library call
    can: [OverflowError], or any other class, kept by its name. *)
Inductive exc : Type :=
| KeyError
| TypeError
| AttributeError
| ValueError
| IndexError
| OverflowError
| OtherError (class_name : string).

Inductive result (A : Type) : Type :=
| Ok (a : A)
| Raise (e : exc).

Arguments Ok {A} a.
Arguments Raise {A} e.

Definition bind {A B : Type} (m : result A) (k : A -> result B) : result B :=
  match m with
  | Ok a => k a
  | Raise e => Raise e
  end.

(** [for x in l: s = body(s, x)]: the first exception leaves the loop. *)
Fixpoint for_each {S A : Type} (body : S -> A -> result S) (l : list A) (s : S)
  : result S :=
  match l with
  | [] => Ok s
  | x :: l' => bind (body s x) (for_each body l')
  end.

(** [[f(x) for x in l]]. *)
Fixpoint comprehension {A B : Type} (f : A -> result B) (l : list A)
  : result (list B) :=
  match l with
  | [] => Ok []
  | x :: l' =>
      bind (f x) (fun y => bind (comprehension f l') (fun ys => Ok (y :: ys)))
  end.

(** ** Library calls

    Of a library the model keeps the calls a script makes, with the data it
    hands over, and that a call may raise.  Whether it does is the library's,
    and may depend on the calls made before it (a figure is rendered when it
    is saved).  A run has the answer of its library, [raises history c]: the
    exception, if any, of the call [c] made after the calls [history]. *)
Section Library.
Context {call : Type}.
Variable raises : list call -> call -> option exc.

(** One call: it raises, or it is done and joins the history. *)
Definition invoke (history : list call) (c : call) : result (list call) :=
  match raises history c with
  | Some e => Raise e
  | None => Ok (history ++ [c])
  end.

(** Calls made one after the other. *)
Definition invoke_all (calls : list call) (history : list call)
  : result (list call) :=
  for_each invoke calls history.
End Library.

(** What [json.load] returns: [None], [bool], [int], [float], [str], [list]
    and [dict] with [str] keys.  A [dict] keeps its items in insertion order. *)
Inductive json : Type :=
| JNull
| JBool (b : bool)
| JInt (z : Z)
| JFloat (q : Q)
| JStr (s : string)
| JArr (l : list json)
| JObj (o : list (string * json)).

(** ** Dictionaries

    A [dict] is the list of its items in insertion order.  Storing under a key
    that is present replaces the value in place; a new key goes to the end. *)
Section Dict.
Context {K V : Type} (eqb : K -> K -> bool).

Fixpoint dict_get (d : list (K * V)) (k : K) : option V :=
  match d with
  | [] => None
  | (k', v) :: d' => if eqb k' k then Some v else dict_get d' k
  end.

Fixpoint dict_set (d : list (K * V)) (k : K) (v : V) : list (K * V) :=
  match d with
  | [] => [(k, v)]
  | (k', v') :: d' =>
      if eqb k' k then (k', v) :: d' else (k', v') :: dict_set d' k v
  end.

Definition dict_keys (d : list (K * V)) : list K := map fst d.

(** [d[k]] *)
Definition dict_getitem (d : list (K * V)) (k : K) : result V :=
  match dict_get d k with
  | Some v => Ok v
  | None => Raise KeyError
  end.
End Dict.

(** [v[key]] for a [str] key: only a [dict] can be indexed by a string. *)
Definition getitem (v : json) (key : string) : result json :=
  match v with
  | JObj o => dict_getitem String.eqb o key
  | _ => Raise TypeError
  end.

(** [v[k1][k2]...] *)
Fixpoint getpath (v : json) (keys : list string) : result json :=
  match keys with
  | [] => Ok v
  | k :: keys' => bind (getitem v k) (fun v' => getpath v' keys')
  end.

(** [v.get(key, default)]: a method of [dict] only. *)
Definition get (v : json) (key : string) (default : json) : result json :=
  match v with
  | JObj o =>
      match dict_get String.eqb o key with
      | Some x => Ok x
      | None => Ok default
      end
  | _ => Raise AttributeError
  end.

(** [for x in v]: the items of a list, the keys of a dict, the characters of
    a string. *)
Definition iter (v : json) : result (list json) :=
  match v with
  | JArr l => Ok l
  | JObj o => Ok (map (fun kv => JStr (fst kv)) o)
  | JStr s =>
      Ok (map (fun c => JStr (String c EmptyString)) (list_ascii_of_string s))
  | JNull | JBool _ | JInt _ | JFloat _ => Raise TypeError
  end.

(** The numeric value of an [int], a [float] or a [bool] ([True] is [1]). *)
Definition number (v : json) : option Q :=
  match v with
  | JBool b => Some (inject_Z (if b then 1 else 0))
  | JInt z => Some (inject_Z z)
  | JFloat q => Some q
  | _ => None
  end.

(** [v > 0] *)
Definition gt_zero (v : json) : result bool :=
  match number v with
  | Some q => Ok (negb (Qle_bool q 0))
  | None => Raise TypeError
  end.

(** [bool(v)] *)
Definition truthy (v : json) : bool :=
  match v with
  | JNull => false
  | JBool b => b
  | JInt z => negb (Z.eqb z 0)
  | JFloat q => negb (Qeq_bool q 0)
  | JStr s => negb (String.eqb s "")
  | JArr l => match l with [] => false | _ => true end
  | JObj o => match o with [] => false | _ => true end
  end.

(** ** Hashable values

    A key of a [dict] or a member of a [set] is found by [hash] and [==].
    [True], [1] and [1.0] are equal and hash alike, so a number is kept by
    its value; lists and dicts are unhashable. *)
Inductive hval : Type :=
| HNone
| HNum (q : Q)
| HStr (s : string).

Definition hashable (v : json) : result hval :=
  match v with
  | JNull => Ok HNone
  | JStr s => Ok (HStr s)
  | JArr _ | JObj _ => Raise TypeError
  | _ =>
      match number v with
      | Some q => Ok (HNum (Qred q))
      | None => Raise TypeError
      end
  end.

Definition hval_eq_dec (a b : hval) : {a = b} + {a <> b}.
Proof.
  decide equality.
  - destruct q as [n d], q0 as [n0 d0].
    destruct (Z.eq_dec n n0) as [->|Hn]; [|right; congruence].
    destruct (Pos.eq_dec d d0) as [->|Hd]; [left; reflexivity|right; congruence].
  - apply string_dec.
Defined.

End Py.

Import Py.

Declare Scope py_scope.
Delimit Scope py_scope with py.
Notation "x <- m ;; k" := (bind m (fun x => k))
  (at level 61, m at next level, right associativity) : py_scope.
Local Open Scope py_scope.

(* ================================================================== *)
(** * scripts/compare_callinfo_graph.py *)
(* ================================================================== *)

Module CompareCallinfoGraph.

(** The edge key as line 42 builds it: the six identity fields as found in
    the record. *)
Definition raw_key : Type := (json * json * json * json * json * json)%type.

(** The edge key as the dictionary sees it: a tuple is hashable when each of
    its fields is, and two tuples are the same key when their fields are
    equal. *)
Definition EdgeKey : Type := (hval * hval * hval * hval * hval * hval)%type.

Definition EdgeKey_eq_dec (a b : EdgeKey) : {a = b} + {a <> b}.
Proof. repeat decide equality; apply hval_eq_dec. Defined.

Definition EdgeKey_eqb (a b : EdgeKey) : bool :=
  if EdgeKey_eq_dec a b then true else false.

Definition hash_key (k : raw_key) : result EdgeKey :=
  let '(a, b, c, d, e, f) := k in
  a' <- hashable a ;; b' <- hashable b ;; c' <- hashable c ;;
  d' <- hashable d ;; e' <- hashable e ;; f' <- hashable f ;;
  Ok (a', b', c', d', e', f').

(** [covered_edges]: edge key to edge detail, the dict
    [{"source": ..., "target": ...}]. *)
Definition snapshot : Type := list (EdgeKey * json).

(** Lines 42-49. *)
Definition edge_key (edge : json) : result raw_key :=
  a <- getpath edge ["source"; "serviceName"] ;;
  b <- getpath edge ["source"; "simpleAPIMethod"; "endpoint"] ;;
  c <- getpath edge ["source"; "simpleAPIMethod"; "method"] ;;
  d <- getpath edge ["target"; "serviceName"] ;;
  e <- getpath edge ["target"; "simpleAPIMethod"; "endpoint"] ;;
  f <- getpath edge ["target"; "simpleAPIMethod"; "method"] ;;
  Ok (a, b, c, d, e, f).

(** Lines 50-53, the right-hand side. *)
Definition edge_detail (edge : json) : result json :=
  s <- getitem edge "source" ;;
  t <- getitem edge "target" ;;
  Ok (JObj [("source", s); ("target", t)]).

(** Line 41: [edge.get('hitCount', 0) > 0]. *)
Definition covered (edge : json) : result bool :=
  h <- get edge "hitCount" (JInt 0) ;;
  gt_zero h.

(** The body of the loop of [load_edges], lines 41-53. *)
Definition load_edge (covered_edges : snapshot) (edge : json) : result snapshot :=
  hit <- covered edge ;;
  if hit then
    k <- edge_key edge ;;
    v <- edge_detail edge ;;
    k' <- hash_key k ;;
    Ok (dict_set EdgeKey_eqb covered_edges k' v)
  else Ok covered_edges.

(** Lines 39-54: the loop over the edge records. *)
Definition load_edge_list (edges : list json) : result snapshot :=
  for_each load_edge edges [].

(** Line 38 and the head of the loop: the records the loop visits. *)
Definition edge_records (data : json) : result (list json) :=
  g <- getitem data "finalCallInfoGraph" ;;
  edges <- getitem g "edges" ;;
  iter edges.

(** [load_edges], on the value [json.load] returned. *)
Definition load_edges (data : json) : result snapshot :=
  edges <- edge_records data ;;
  load_edge_list edges.

(** ** Sets of edge keys

    A set is known by its members, listed without repetition.  The order in
    which a [for] visits them is that of the hash table: it follows the
    hashes of the members, which for strings change with every interpreter
    start (hash randomisation), and is not part of the language.  A run of
    the script is therefore taken with its iteration order [set_iter], a
    rearrangement of the members. *)
Definition py_set (l : list EdgeKey) : list EdgeKey := nodup EdgeKey_eq_dec l.

Definition set_member (k : EdgeKey) (s : list EdgeKey) : bool :=
  existsb (EdgeKey_eqb k) s.

(** [a - b] *)
Definition set_difference (a b : list EdgeKey) : list EdgeKey :=
  filter (fun k => negb (set_member k b)) a.

Definition iteration_order : Type := list EdgeKey -> list EdgeKey.

(** Lines 73-79 of [compare_coverage], on the two loaded snapshots. *)
Definition compare_covered (set_iter : iteration_order)
    (covered1 covered2 : snapshot) : result (list json * list json) :=
  let only_in_1_keys :=
    set_difference (py_set (dict_keys covered1)) (py_set (dict_keys covered2)) in
  let only_in_2_keys :=
    set_difference (py_set (dict_keys covered2)) (py_set (dict_keys covered1)) in
  only_in_1 <-
    comprehension (dict_getitem EdgeKey_eqb covered1) (set_iter only_in_1_keys) ;;
  only_in_2 <-
    comprehension (dict_getitem EdgeKey_eqb covered2) (set_iter only_in_2_keys) ;;
  Ok (only_in_1, only_in_2).

(** [compare_coverage], on the two values [json.load] returned. *)
Definition compare_coverage (set_iter : iteration_order) (file1 file2 : json)
  : result (list json * list json) :=
  covered1 <- load_edges file1 ;;
  covered2 <- load_edges file2 ;;
  compare_covered set_iter covered1 covered2.

End CompareCallinfoGraph.

(* ================================================================== *)
(** * scripts/test_process_visualize.py *)
(* ================================================================== *)

Module TestProcessVisualize.

(** ** The regular expression of [extract_test_scenarios]

    [re.search] runs a backtracking matcher: it tries the start positions
    from the left, a lazy [.*?] tries the shortest stretch first, a greedy
    [+] the longest, and the first way through the whole pattern is the
    match.  The pattern uses literal text, [.*?] and captured greedy classes
    only, so it is kept as a list of those three items. *)

Definition code (c : ascii) : N := N_of_ascii c.

Definition lower (c : ascii) : ascii :=
  if ((65 <=? code c) && (code c <=? 90))%N then ascii_of_N (code c + 32) else c.

Definition upper (c : ascii) : ascii :=
  if ((97 <=? code c) && (code c <=? 122))%N then ascii_of_N (code c - 32) else c.

(** [\d] and [0-9] *)
Definition is_digit (c : ascii) : bool := ((48 <=? code c) && (code c <=? 57))%N.

(** [[a-f0-9\-]] *)
Definition hex_or_dash (c : ascii) : bool :=
  ((97 <=? code c) && (code c <=? 102))%N || is_digit c || Ascii.eqb c "-".

(** [[0-9\.]] *)
Definition digit_or_dot (c : ascii) : bool := is_digit c || Ascii.eqb c ".".

(** [.] without [re.DOTALL] *)
Definition not_newline (c : ascii) : bool := negb (code c =? 10)%N.

(** A class under [re.IGNORECASE]. *)
Definition ignorecase (cls : ascii -> bool) (c : ascii) : bool :=
  cls c || cls (lower c) || cls (upper c).

Inductive item : Type :=
| Lit (text : string)              (* literal text, compared without case *)
| LazyAny                          (* [.*?] *)
| Group (cls : ascii -> bool).     (* [(cls+)], case already folded *)

Definition pattern : list item :=
  [ Lit "Finish execute current test scenario "; LazyAny;
    Lit "UUID: "; Group (ignorecase hex_or_dash); LazyAny;
    Lit "Edge covered count: "; Group (ignorecase is_digit); LazyAny;
    Lit "Edge coverage: "; Group (ignorecase digit_or_dot); LazyAny;
    Lit "covered status code count: "; Group (ignorecase is_digit) ].

(** A matcher reads from a position (the text that is left) and returns the
    captured groups of the first way through. *)
Definition matcher : Type := string -> option (list string).

Fixpoint strip_literal (text s : string) : option string :=
  match text, s with
  | EmptyString, _ => Some s
  | String a text', String b s' =>
      if Ascii.eqb (lower a) (lower b) then strip_literal text' s' else None
  | String _ _, EmptyString => None
  end.

Definition m_lit (text : string) (k : matcher) : matcher :=
  fun s =>
    match strip_literal text s with
    | Some s' => k s'
    | None => None
    end.

Fixpoint m_lazy_any (k : matcher) (s : string) : option (list string) :=
  match k s with
  | Some gs => Some gs
  | None =>
      match s with
      | String c s' => if not_newline c then m_lazy_any k s' else None
      | EmptyString => None
      end
  end.

Fixpoint m_plus (cls : ascii -> bool) (k : matcher) (s : string)
  : option (string * list string) :=
  match s with
  | String c s' =>
      if cls c then
        match m_plus cls k s' with
        | Some (g, gs) => Some (String c g, gs)
        | None =>
            match k s' with
            | Some gs => Some (String c EmptyString, gs)
            | None => None
            end
        end
      else None
  | EmptyString => None
  end.

Definition m_group (cls : ascii -> bool) (k : matcher) : matcher :=
  fun s =>
    match m_plus cls k s with
    | Some (g, gs) => Some (g :: gs)
    | None => None
    end.

Fixpoint compile (p : list item) : matcher :=
  match p with
  | [] => fun _ => Some []
  | Lit text :: p' => m_lit text (compile p')
  | LazyAny :: p' => m_lazy_any (compile p')
  | Group cls :: p' => m_group cls (compile p')
  end.

(** [pattern.search(s)] *)
Fixpoint search (m : matcher) (s : string) : option (list string) :=
  match m s with
  | Some gs => Some gs
  | None =>
      match s with
      | String _ s' => search m s'
      | EmptyString => None
      end
  end.

(** [match.group(i)], [i >= 1] *)
Definition group (gs : list string) (i : nat) : result string :=
  match nth_error gs (i - 1) with
  | Some g => Ok g
  | None => Raise IndexError
  end.

(** ** [int] and [float] on the captured text

    The classes let through digits (and dots) only, so of all the literals
    [int] and [float] read, the ones that matter are unsigned decimals.
    Any other text is a [ValueError] here. *)

Fixpoint all_digits (s : string) : bool :=
  match s with
  | EmptyString => true
  | String c s' => is_digit c && all_digits s'
  end.

Fixpoint decimal (acc : Z) (s : string) : Z :=
  match s with
  | EmptyString => acc
  | String c s' => decimal (10 * acc + Z.of_N (code c - 48)) s'
  end.

(** CPython refuses to convert more than [sys.get_int_max_str_digits()]
    digits (4300 unless changed, 0 for no limit; the check starts above 640
    digits).  Interpreters older than the limit behave as with 0. *)
Definition too_many_digits (max_str_digits : nat) (s : string) : bool :=
  (640 <? String.length s)%nat && (0 <? max_str_digits)%nat
  && (max_str_digits <? String.length s)%nat.

Definition py_int (max_str_digits : nat) (s : string) : result Z :=
  if all_digits s && negb (String.eqb s "")
  then if too_many_digits max_str_digits s then Raise ValueError
       else Ok (decimal 0 s)
  else Raise ValueError.

Fixpoint pow10 (n : nat) : positive :=
  match n with
  | O => 1%positive
  | S n' => (10 * pow10 n')%positive
  end.

(** The text before the first dot, and the text after it when there is one. *)
Fixpoint split_dot (s : string) : string * option string :=
  match s with
  | EmptyString => (EmptyString, None)
  | String c s' =>
      if Ascii.eqb c "." then (EmptyString, Some s')
      else let (a, b) := split_dot s' in (String c a, b)
  end.

Definition py_float (s : string) : result Q :=
  match split_dot s with
  | (whole, None) =>
      if all_digits whole && negb (String.eqb whole "")
      then Ok (inject_Z (decimal 0 whole))
      else Raise ValueError
  | (whole, Some frac) =>
      if all_digits whole && all_digits frac
         && negb (String.eqb whole "" && String.eqb frac "")
      then Ok (Qmake (decimal 0 (whole ++ frac)) (pow10 (String.length frac)))
      else Raise ValueError
  end.

(** ** [extract_test_scenarios] *)

(** [(uuid, edge_covered_count, edge_coverage, status_code_count)] *)
Definition scenario : Type := (string * Z * Q * Z)%type.

(** The body of the loop, lines 41-47. *)
Definition scan_line (max_str_digits : nat) (test_data : list scenario)
    (log : string) : result (list scenario) :=
  match search (compile pattern) log with
  | Some m =>
      uuid <- group m 1 ;;
      g2 <- group m 2 ;;
      edge_covered_count <- py_int max_str_digits g2 ;;
      g3 <- group m 3 ;;
      edge_coverage <- py_float g3 ;;
      g4 <- group m 4 ;;
      status_code_count <- py_int max_str_digits g4 ;;
      Ok (test_data ++ [(uuid, edge_covered_count, edge_coverage, status_code_count)])
  | None => Ok test_data
  end.

Definition extract_test_scenarios (max_str_digits : nat) (logs : list string)
  : result (list scenario) :=
  for_each (scan_line max_str_digits) logs [].

(** ** [plot_graphs] and [main]

    The calls of the script to [matplotlib.pyplot], with their arguments. *)
Inductive series : Type :=
| Ints (ys : list Z)
| Floats (ys : list Q).

Inductive pyplot : Type :=
| plt_figure (width height : Z)
| plt_plot (xs : list nat) (ys : series) (marker linestyle color label : string)
| plt_xlabel (s : string)
| plt_ylabel (s : string)
| plt_title (s : string)
| plt_grid (visible : bool) (linestyle : string) (alpha : Q)
| plt_legend
| plt_savefig (fname format : string)
| plt_close.

(** Lines 53-56: the x values and the three series. *)
Record figure : Type := {
  x : list nat;
  edge_covered_counts : list Z;
  edge_coverages : list Q;
  status_code_counts : list Z
}.

Section Plot.
Variable raises : list pyplot -> pyplot -> option exc.

(** [plot_graphs]: the series are computed, then each of the three graphs is
    drawn and saved.  The script calls it once, in an interpreter that has
    not drawn yet.  It returns nothing; the model returns the series it
    drew. *)
Definition plot_graphs (test_data : list scenario) (output_prefix : string)
  : result figure :=
  let fig :=
    {| x := seq 1 (List.length test_data);
       edge_covered_counts := map (fun data => snd (fst (fst data))) test_data;
       edge_coverages := map (fun data => snd (fst data)) test_data;
       status_code_counts := map (fun data => snd data) test_data |} in
  plt <- invoke_all raises
    [ plt_figure 8 4;
      plt_plot (x fig) (Ints (edge_covered_counts fig)) "^" "-" "g" "Edge Covered Count";
      plt_xlabel "Test Process";
      plt_ylabel "Edge Covered Count";
      plt_title "Edge Covered Count Across Test Scenarios";
      plt_grid true "--" (7 # 10);
      plt_legend;
      plt_savefig (output_prefix ++ "_edge_covered_count.svg") "svg";
      plt_savefig (output_prefix ++ "_edge_covered_count.png") "png";
      plt_close ] [] ;;
  plt <- invoke_all raises
    [ plt_figure 8 4;
      plt_plot (x fig) (Floats (edge_coverages fig)) "o" "-" "b" "Edge Coverage";
      plt_xlabel "Test Process";
      plt_ylabel "Edge Coverage";
      plt_title "Edge Coverage Across Test Scenarios";
      plt_grid true "--" (7 # 10);
      plt_legend;
      plt_savefig (output_prefix ++ "_edge_coverage.svg") "svg";
      plt_savefig (output_prefix ++ "_edge_coverage.png") "png";
      plt_close ] plt ;;
  plt <- invoke_all raises
    [ plt_figure 8 4;
      plt_plot (x fig) (Ints (status_code_counts fig)) "s" "-" "r" "Status Code Count";
      plt_xlabel "Test Process";
      plt_ylabel "Covered Status Code Count";
      plt_title "Status Code Coverage Across Test Scenarios";
      plt_grid true "--" (7 # 10);
      plt_legend;
      plt_savefig (output_prefix ++ "_status_codes.svg") "svg";
      plt_savefig (output_prefix ++ "_status_codes.png") "png";
      plt_close ] plt ;;
  Ok fig.

(** What a run of [main] leaves: the series drawn, if any, and the line
    printed. *)
Definition main (max_str_digits : nat) (logs : list string)
  : result (option figure * string) :=
  test_data <- extract_test_scenarios max_str_digits logs ;;
  match test_data with
  | _ :: _ =>
      fig <- plot_graphs test_data "test_analysis" ;;
      Ok (Some fig, "Graphs saved successfully.")
  | [] => Ok (None, "No relevant logs found.")
  end.

End Plot.

End TestProcessVisualize.

(* ================================================================== *)
(** * scripts/CoSREST/convert_sisp_to_dict.py *)
(* ================================================================== *)

Module ConvertSispToDict.

Definition hval_eqb (a b : hval) : bool :=
  if hval_eq_dec a b then true else false.

(** [x in s] for a set of hashable values, kept as the list of its members. *)
Definition seen (c : hval) (seen_categories : list hval) : bool :=
  existsb (hval_eqb c) seen_categories.

(** [s.add(x)] *)
Definition set_add (c : hval) (seen_categories : list hval) : list hval :=
  if seen c seen_categories then seen_categories else c :: seen_categories.

(** [v[0]]: the first item of a list, the first character of a string; a
    dict loaded from JSON has no key [0]; the rest cannot be indexed. *)
Definition first_item (v : json) : result json :=
  match v with
  | JArr (a :: _) => Ok a
  | JArr [] => Raise IndexError
  | JStr (String c _) => Ok (JStr (String c EmptyString))
  | JStr EmptyString => Raise IndexError
  | JObj _ => Raise KeyError
  | JNull | JBool _ | JInt _ | JFloat _ => Raise TypeError
  end.

(** [{"name": param_name, "value": value}] *)
Definition sample (param_name value : json) : json :=
  JObj [("name", param_name); ("value", value)].

(** The body of the inner loop, lines 48-56, on the pair
    [(seen_categories, output)]. *)
Definition visit_valid (param_name : json) (st : list hval * list json)
    (valid : json) : result (list hval * list json) :=
  let (seen_categories, output) := st in
  category <- get valid "category" JNull ;;
  samples <- get valid "samples" (JArr []) ;;
  c <- hashable category ;;
  if negb (seen c seen_categories) && truthy samples then
    value <- first_item samples ;;
    Ok (set_add c seen_categories, output ++ [sample param_name value])
  else Ok (seen_categories, output).

(** The body of the outer loop, lines 43-56. *)
Definition visit_entry (output : list json) (entry : json) : result (list json) :=
  param_name <- get entry "param_name" JNull ;;
  valid_entries <- get entry "valid" (JArr []) ;;
  valids <- iter valid_entries ;;
  st <- for_each (visit_valid param_name) valids ([], output) ;;
  Ok (snd st).

(** Lines 40-56: [output] when the loops are done. *)
Definition collect_samples (data : json) : result (list json) :=
  entries <- iter data ;;
  for_each visit_entry entries [].

(** [extract_valid_samples], from the value [json.load] returned to the value
    handed to [json.dump].  [sorted(output, key=lambda x: x['name'])] is
    Python's: which names it can compare, and in which order it compares
    them, is not the script's, so the sort is taken as [sorted_by_name]. *)
Definition extract_valid_samples
    (sorted_by_name : list json -> result (list json)) (data : json)
  : result (list json) :=
  output <- collect_samples data ;;
  sorted_by_name output.

End ConvertSispToDict.

(* ================================================================== *)
(** * scripts/internal_service_report_visualize.py *)
(* ================================================================== *)

Module InternalServiceReportVisualize.

(** ** The directed graph

    [networkx.DiGraph] as [build_graph] and [draw_graph] use it: the dict
    [_succ] of the successors of each node, a dict itself, from the
    successor to the attributes of the edge.  Nodes and successors stand in
    insertion order.  A node is any hashable value but [None], which
    [add_edge] refuses with [ValueError] (networkx 2.6 and later). *)
Definition attributes : Type := list (string * json).
Definition DiGraph : Type := list (hval * list (hval * attributes)).

Definition node_eqb (a b : hval) : bool :=
  if hval_eq_dec a b then true else false.

(** The first lines of [add_edge], for one end [n] of the edge: a node that
    is not in the graph is added, without successors. *)
Definition add_end (G : DiGraph) (n : json) : result (DiGraph * hval) :=
  h <- hashable n ;;
  match dict_get node_eqb G h with
  | Some _ => Ok (G, h)
  | None =>
      match h with
      | HNone => Raise ValueError
      | _ => Ok (dict_set node_eqb G h [], h)
      end
  end.

(** [G.add_edge(u, v, label=label)]: both ends are added, then the
    attributes of the edge, those it had if it was there, are updated with
    the label. *)
Definition add_edge (G : DiGraph) (u v label : json) : result DiGraph :=
  r1 <- add_end G u ;;
  r2 <- add_end (fst r1) v ;;
  let G2 := fst r2 in
  let successors :=
    match dict_get node_eqb G2 (snd r1) with
    | Some succ => succ
    | None => []
    end in
  let datadict :=
    match dict_get node_eqb successors (snd r2) with
    | Some d => d
    | None => []
    end in
  Ok (dict_set node_eqb G2 (snd r1)
        (dict_set node_eqb successors (snd r2)
           (dict_set String.eqb datadict "label" label))).

(** The body of the loop of [build_graph], lines 12-17. *)
Definition add_record (G : DiGraph) (edge : json) : result DiGraph :=
  source <- getpath edge ["source"; "serviceName"] ;;
  target <- getpath edge ["target"; "serviceName"] ;;
  method <- getpath edge ["target"; "simpleAPIMethod"; "method"] ;;
  add_edge G source target method.

(** Lines 10-19, on the records of the report. *)
Definition build_edges (edges : list json) : result DiGraph :=
  for_each add_record edges [].

(** [build_graph] *)
Definition build_graph (data : json) : result DiGraph :=
  g <- getitem data "finalRuntimeGraph" ;;
  edges <- getitem g "edges" ;;
  records <- iter edges ;;
  build_edges records.

(** [G.nodes] *)
Definition nodes (G : DiGraph) : list hval := map fst G.

(** [G.edges(data=True)]: the edges node by node, each with its attributes. *)
Definition edges_with_data (G : DiGraph) : list (hval * hval * attributes) :=
  flat_map (fun us => map (fun vd => (fst us, fst vd, snd vd)) (snd us)) G.

(** Line 28: [{(u, v): d['label'] for u, v, d in G.edges(data=True)}]. *)
Definition edge_labels (G : DiGraph) : result (list (hval * hval * json)) :=
  comprehension
    (fun uvd => label <- dict_getitem String.eqb (snd uvd) "label" ;;
                Ok (fst uvd, label))
    (edges_with_data G).

(** The calls of the script to [matplotlib.pyplot] and [networkx], with
    their arguments.  The positions [spring_layout] returns are only handed
    back to the library: they are left with it. *)
Inductive drawing_call : Type :=
| plt_figure (width height : Z)
| nx_spring_layout (G : DiGraph)
| nx_draw (G : DiGraph) (with_labels : bool) (node_color edge_color : string)
    (node_size font_size : Z) (font_weight : string)
| nx_draw_networkx_edge_labels (G : DiGraph)
    (edge_labels : list (hval * hval * json)) (font_size : Z) (font_color : string)
| plt_title (s : string)
| plt_savefig (fname : string).

Section Draw.
Variable raises : list drawing_call -> drawing_call -> option exc.

(** [draw_graph].  The script calls it once, in an interpreter that has not
    drawn yet.  It returns nothing; the model returns the calls made. *)
Definition draw_graph (G : DiGraph) (show_label : bool)
  : result (list drawing_call) :=
  plt <- invoke raises [] (plt_figure 10 6) ;;
  plt <- invoke raises plt (nx_spring_layout G) ;;
  plt <- invoke raises plt (nx_draw G true "lightblue" "gray" 3000 10 "bold") ;;
  plt <- (if show_label then
            labels <- edge_labels G ;;
            invoke raises plt (nx_draw_networkx_edge_labels G labels 8 "red")
          else Ok plt) ;;
  plt <- invoke raises plt (plt_title "Service Dependency Graph") ;;
  invoke raises plt (plt_savefig "service_dependency_graph.svg").

(** [main], on the value [load_json] returned. *)
Definition main (data : json) (show_label : bool) : result (list drawing_call) :=
  G <- build_graph data ;;
  draw_graph G show_label.

End Draw.

End InternalServiceReportVisualize.

(* ================================================================== *)
(** * Sample inputs *)
(* ================================================================== *)

Module Samples.
Import CompareCallinfoGraph.

(** Reports for [compare_callinfo_graph.py]. *)
Definition endpoint (service path method : string) : json :=
  JObj [("serviceName", JStr service);
        ("simpleAPIMethod", JObj [("endpoint", JStr path); ("method", JStr method)])].

Definition edge (source target : json) (hit_count : Z) : json :=
  JObj [("source", source); ("target", target); ("hitCount", JInt hit_count)].

Definition report (edges : list json) : json :=
  JObj [("finalCallInfoGraph", JObj [("edges", JArr edges)])].

Definition s1_a : json := endpoint "S1" "/a" "GET".
Definition s1_c : json := endpoint "S1" "/c" "GET".
Definition s2_b : json := endpoint "S2" "/b" "POST".
Definition s3_d : json := endpoint "S3" "/d" "GET".

Definition report1 : json := report [edge s1_a s2_b 3; edge s1_c s3_d 0].
Definition report2 : json := report [edge s1_a s2_b 1; edge s2_b s3_d 2].

(** Two covered edges that the other report lacks. *)
Definition report3 : json := report [edge s1_a s2_b 1; edge s2_b s3_d 2].
Definition report4 : json := report [].

Definition key_of (a b c d e f : string) : EdgeKey :=
  (HStr a, HStr b, HStr c, HStr d, HStr e, HStr f).

Definition detail (source target : json) : json :=
  JObj [("source", source); ("target", target)].

Definition snapshot3 : snapshot :=
  [ (key_of "S1" "/a" "GET" "S2" "/b" "POST", detail s1_a s2_b);
    (key_of "S2" "/b" "POST" "S3" "/d" "GET", detail s2_b s3_d) ].

(** Two iteration orders: members as listed, and the other way round. *)
Definition forwards : iteration_order := fun s => s.
Definition backwards : iteration_order := fun s => rev s.

(** A record with hit count 0 and no target. *)
Definition edge_without_target : json :=
  JObj [("source", s1_a); ("hitCount", JInt 0)].

(** The same key three times: covered, covered with another detail, then
    with hit count 0. *)
Definition s2_b' : json :=
  JObj [("serviceName", JStr "S2");
        ("simpleAPIMethod", JObj [("endpoint", JStr "/b"); ("method", JStr "POST")]);
        ("note", JStr "second")].

Definition repeated_edges : list json :=
  [edge s1_a s2_b 3; edge s1_a s2_b' 1; edge s1_a s2_b 0].

(** A record with hit count 2 whose target has no service name. *)
Definition edge_without_service : json :=
  JObj [("source", s1_a);
        ("target", JObj [("simpleAPIMethod",
                          JObj [("endpoint", JStr "/b"); ("method", JStr "POST")])]);
        ("hitCount", JInt 2)].

(** Lines of a log: two scenario records, a line that is something else, and
    two scenario records whose edge coverage is not a number. *)
Definition newline : string := String (ascii_of_N 10) EmptyString.

Definition record1 : string :=
  "12:00:01 INFO Finish execute current test scenario login, UUID: abc-123, Edge covered count: 42, Edge coverage: 0.75, covered status code count: 5"
  ++ newline.

Definition record2 : string :=
  "12:00:09 INFO Finish execute current test scenario order, UUID: abc-124, Edge covered count: 44, Edge coverage: 0.8, covered status code count: 6"
  ++ newline.

Definition noise : string := "12:00:05 DEBUG sending request" ++ newline.

Definition two_dots : string :=
  "12:00:07 INFO Finish execute current test scenario pay, UUID: abc-125, Edge covered count: 43, Edge coverage: 0.7.5, covered status code count: 5"
  ++ newline.

Definition full_stop : string :=
  "12:00:08 INFO Finish execute current test scenario pay. UUID: abc-126. Edge covered count: 43. Edge coverage: 0.75. Covered status code count: 5."
  ++ newline.

(** An entry whose first item of category [uuid] has an empty list of
    samples, its second item has none, and its third has two. *)
Definition valid_item (category : string) (samples : list json) : json :=
  JObj [("param_name", JStr "orderId"); ("category", JStr category);
        ("description", JStr ""); ("samples", JArr samples)].

Definition item_without_samples (category : string) : json :=
  JObj [("param_name", JStr "orderId"); ("category", JStr category)].

Definition order_entry : json :=
  JObj [("op_name", JStr "/orders/{orderId}"); ("type", JStr "string");
        ("param_name", JStr "orderId");
        ("valid", JArr [valid_item "uuid" []; item_without_samples "uuid";
                        valid_item "uuid" [JStr "abc-123-def"; JStr "abc-456"];
                        valid_item "uuid" [JStr "ffff"]])].

(** A scenario record whose edge covered count has 401 digits. *)
Fixpoint zeros (n : nat) : string :=
  match n with
  | O => EmptyString
  | S n' => String "0" (zeros n')
  end.

Definition long_count : string :=
  "12:00:11 INFO Finish execute current test scenario pay, UUID: abc-127, Edge covered count: 1"
  ++ zeros 400 ++ ", Edge coverage: 0.9, covered status code count: 7" ++ newline.

(** A library none of whose calls raises. *)
Definition quiet {call : Type} : list call -> call -> option exc :=
  fun _ _ => None.

(** A plotting library that cannot draw an [int] of [2^1024] or more, which
    no [float] holds. *)
Definition float_bound
  : list TestProcessVisualize.pyplot -> TestProcessVisualize.pyplot -> option exc :=
  fun _ c =>
    match c with
    | TestProcessVisualize.plt_plot _ (TestProcessVisualize.Ints ys) _ _ _ _ =>
        if existsb (fun y => (2 ^ 1024 <=? y)%Z) ys then Some OverflowError else None
    | _ => None
    end.

(** A runtime report for [internal_service_report_visualize.py]: two calls
    from S1 to S2, then one from S2 to S3. *)
Definition runtime_report : json :=
  JObj [("finalRuntimeGraph",
         JObj [("edges", JArr [edge s1_a s2_b 0; edge s1_c (endpoint "S2" "/e" "PUT") 4;
                               edge s2_b s3_d 1])])].

(** A report with a service whose name stands between two dollar signs, and
    a library that reads such a name as a formula when the figure is saved,
    and cannot. *)
Definition dollar_report : json :=
  JObj [("finalRuntimeGraph",
         JObj [("edges", JArr [edge (endpoint "$\bad$" "/a" "GET") s2_b 1])])].

Definition dollar_name (n : hval) : bool :=
  match n with
  | HStr (String "$" _) => true
  | _ => false
  end.

Definition mathtext
  : list InternalServiceReportVisualize.drawing_call ->
    InternalServiceReportVisualize.drawing_call -> option exc :=
  fun history c =>
    match c with
    | InternalServiceReportVisualize.plt_savefig _ =>
        if existsb
             (fun c' =>
                match c' with
                | InternalServiceReportVisualize.nx_draw G true _ _ _ _ _ =>
                    existsb dollar_name (InternalServiceReportVisualize.nodes G)
                | _ => false
                end) history
        then Some ValueError else None
    | _ => None
    end.

End Samples.

(* ================================================================== *)
(** * Notions used in the statements *)
(* ================================================================== *)

Import CompareCallinfoGraph TestProcessVisualize ConvertSispToDict.

(** ** Library calls *)

(** The exception is one the library answers some call with. *)
Definition library_raised {call : Type} (raises : list call -> call -> option exc)
    (e : exc) : Prop :=
  exists history c, raises history c = Some e.

(** ** Snapshots and set iteration *)

(** A Python dict holds each key once. *)
Definition is_dict (d : snapshot) : Prop := NoDup (dict_keys d).

(** The details of the edges of [A] whose key [B] lacks, in the order of [A]:
    [{ detail(k) : k in keys(A) \ keys(B) }]. *)
Definition details_only_in (A B : snapshot) : list json :=
  map snd
    (filter (fun kv => if in_dec EdgeKey_eq_dec (fst kv) (dict_keys B) then false else true) A).

(** The value under a key that is present. *)
Definition value_of (A : snapshot) (k : EdgeKey) : json :=
  match dict_get EdgeKey_eqb A k with
  | Some v => v
  | None => JNull
  end.

(** An iteration order visits each member of the set once. *)
Definition visits_each_once (set_iter : iteration_order) : Prop :=
  forall s, NoDup s -> Permutation (set_iter s) s.

(** The key under which a detail is stored, read off the detail itself. *)
Definition detail_key (d : json) : result EdgeKey :=
  rk <- edge_key d ;;
  hash_key rk.

(** The entries of [A] whose key [B] has too. *)
Definition shared_with (A B : snapshot) : snapshot :=
  filter (fun kv => if in_dec EdgeKey_eq_dec (fst kv) (dict_keys B) then true else false) A.

(** ** Edge records *)

(** The record has no [hitCount], or one that is a number not above 0. *)
Definition not_hit (edge : json) : Prop :=
  exists o, edge = JObj o
    /\ (dict_get String.eqb o "hitCount" = None
        \/ exists h q, dict_get String.eqb o "hitCount" = Some h
                       /\ number h = Some q /\ (q <= 0)%Q).

(** The record has a [hitCount] that is a number above 0. *)
Definition hit (edge : json) : Prop :=
  exists o h q, edge = JObj o
    /\ dict_get String.eqb o "hitCount" = Some h
    /\ number h = Some q /\ (0 < q)%Q.

(** The record passes the filter and is stored under [k] with detail [d]. *)
Definition loads_as (edge : json) (k : EdgeKey) (d : json) : Prop :=
  covered edge = Ok true
  /\ exists rk, edge_key edge = Ok rk /\ hash_key rk = Ok k /\ edge_detail edge = Ok d.

(** The record is skipped or stored: the loop goes on after it. *)
Definition well_formed (edge : json) : Prop :=
  covered edge = Ok false \/ exists k d, loads_as edge k d.

(** [d] is the detail of the last record of [edges] that is stored under
    [k]. *)
Definition last_loaded (edges : list json) (k : EdgeKey) (d : json) : Prop :=
  exists pre edge post,
    edges = pre ++ edge :: post
    /\ loads_as edge k d
    /\ Forall (fun e => forall d', ~ loads_as e k d') post.

(** The service name, the endpoint and the method of an end of a call, as
    the keys of a dict see them. *)
Definition identity (node : json) (a b c : hval) : Prop :=
  exists name endpoint method,
    getpath node ["serviceName"] = Ok name
    /\ getpath node ["simpleAPIMethod"; "endpoint"] = Ok endpoint
    /\ getpath node ["simpleAPIMethod"; "method"] = Ok method
    /\ hashable name = Ok a /\ hashable endpoint = Ok b /\ hashable method = Ok c.

(** The record has a hit count above 0, [k] is the identity of its source
    followed by that of its target, and [d] is [{"source": source,
    "target": target}] with the source and the target of the record. *)
Definition stored_as (edge : json) (k : EdgeKey) (d : json) : Prop :=
  hit edge
  /\ exists source target a b c a' b' c',
       getitem edge "source" = Ok source
       /\ getitem edge "target" = Ok target
       /\ identity source a b c
       /\ identity target a' b' c'
       /\ k = (a, b, c, a', b', c')
       /\ d = JObj [("source", source); ("target", target)].

(** A record the filter drops, or one with a hit count above 0 that has its
    source, its target and their identities. *)
Definition record_ok (edge : json) : Prop :=
  not_hit edge \/ exists k d, stored_as edge k d.

(** [d] is the detail of the last record of [edges] with a hit count above 0
    and key [k]. *)
Definition last_stored (edges : list json) (k : EdgeKey) (d : json) : Prop :=
  exists pre edge post,
    edges = pre ++ edge :: post
    /\ stored_as edge k d
    /\ Forall (fun e => forall d', ~ stored_as e k d') post.

(** The edge records of a report: the items of
    [data['finalCallInfoGraph']['edges']]. *)
Definition report_edges (data : json) (edges : list json) : Prop :=
  exists graph records,
    getitem data "finalCallInfoGraph" = Ok graph
    /\ getitem graph "edges" = Ok records
    /\ iter records = Ok edges.

(** ** Log lines *)

(** The conversions of lines 43-46 on the groups of a match. *)
Definition scenario_of (max_str_digits : nat) (m : list string) : result scenario :=
  uuid <- group m 1 ;;
  g2 <- group m 2 ;;
  edge_covered_count <- py_int max_str_digits g2 ;;
  g3 <- group m 3 ;;
  edge_coverage <- py_float g3 ;;
  g4 <- group m 4 ;;
  status_code_count <- py_int max_str_digits g4 ;;
  Ok (uuid, edge_covered_count, edge_coverage, status_code_count).

(** The pattern is found in the line. *)
Definition matches (log : string) : bool :=
  match search (compile pattern) log with
  | Some _ => true
  | None => false
  end.

(** The record of a line: that of its match, when it has one and the
    captured numbers convert. *)
Definition record_of (max_str_digits : nat) (log : string) : option scenario :=
  match search (compile pattern) log with
  | Some m =>
      match scenario_of max_str_digits m with
      | Ok r => Some r
      | Raise _ => None
      end
  | None => None
  end.

(** The line does not match, or it matches and its numbers convert. *)
Definition line_converts (max_str_digits : nat) (log : string) : Prop :=
  forall m, search (compile pattern) log = Some m ->
            exists r, scenario_of max_str_digits m = Ok r.

(** Every character of the text is in the class, and there is one at least. *)
Fixpoint all_in (cls : ascii -> bool) (s : string) : bool :=
  match s with
  | EmptyString => true
  | String c s' => cls c && all_in cls s'
  end.

Definition captured (cls : ascii -> bool) (g : string) : Prop :=
  g <> EmptyString /\ all_in cls g = true.

(** The records of the lines of a log that have one, in the order of the
    lines. *)
Definition records_of (max_str_digits : nat) (logs : list string) : list scenario :=
  flat_map (fun log => match record_of max_str_digits log with
                       | Some r => [r]
                       | None => []
                       end) logs.

(** The characters of the text that are in the class. *)
Fixpoint count (cls : ascii -> bool) (s : string) : nat :=
  match s with
  | EmptyString => O
  | String c s' => (if cls c then 1 else 0) + count cls s'
  end.

Definition is_dot (c : ascii) : bool := Ascii.eqb c ".".

(** Digits with at most one dot among them: [12], [0.75], [.5], [1.]. *)
Definition decimal_text (s : string) : bool :=
  (count is_dot s <=? 1)%nat && (1 <=? count is_digit s)%nat.

(** The numbers of a match are texts [int] and [float] accept. *)
Definition parsable (max_str_digits : nat) (m : list string) : bool :=
  match m with
  | [_; g2; g3; g4] =>
      negb (too_many_digits max_str_digits g2) && decimal_text g3
      && negb (too_many_digits max_str_digits g4)
  | _ => false
  end.

(** The line does not match, or the numbers of its match are parsable. *)
Definition line_parsable (max_str_digits : nat) (log : string) : bool :=
  match search (compile pattern) log with
  | Some m => parsable max_str_digits m
  | None => true
  end.

(** A record as the pattern lets it through: an identifier of hexadecimal
    digits and dashes, counts and a coverage that are not negative. *)
Definition record_in_range (r : scenario) : Prop :=
  let '(uuid, edge_covered_count, edge_coverage, status_code_count) := r in
  captured (ignorecase hex_or_dash) uuid
  /\ (0 <= edge_covered_count)%Z
  /\ (0 <= edge_coverage)%Q
  /\ (0 <= status_code_count)%Z.

(** The labels stand in the text one after the other, in any case, with
    anything between them. *)
Fixpoint labels_in_order (labels : list string) (s : string) : Prop :=
  match labels with
  | [] => True
  | label :: labels' =>
      exists before rest rest',
        s = (before ++ rest)%string
        /\ strip_literal label rest = Some rest'
        /\ labels_in_order labels' rest'
  end.

(** The literal text of [pattern]. *)
Definition pattern_labels : list string :=
  [ "Finish execute current test scenario "; "UUID: "; "Edge covered count: ";
    "Edge coverage: "; "covered status code count: " ].

(** The matcher still finds a way when text is added at the end. *)
Definition extends_by (after : string) (k : matcher) : Prop :=
  forall s, k s <> None -> k (s ++ after)%string <> None.

(** The classes of the pattern do not tell a letter from its capital. *)
Definition case_blind (p : list item) : Prop :=
  Forall (fun it => match it with
                    | Group cls => forall c, cls (upper c) = cls c
                    | _ => True
                    end) p.

(** The text in capital letters. *)
Fixpoint upcase (s : string) : string :=
  match s with
  | EmptyString => EmptyString
  | String c s' => String (upper c) (upcase s')
  end.

(** The matcher finds on the text in capitals what it finds on the text,
    in capitals. *)
Definition upcase_blind (k : matcher) : Prop :=
  forall s, k (upcase s) = option_map (map upcase) (k s).

(** The record with its identifier in capital letters. *)
Definition capital_uuid (r : scenario) : scenario :=
  let '(uuid, edge_covered_count, edge_coverage, status_code_count) := r in
  (upcase uuid, edge_covered_count, edge_coverage, status_code_count).

(** ** Valid items *)

(** The item is a dict whose category (or [None] when it has none) hashes
    to [c]. *)
Definition has_category (valid : json) (c : hval) : Prop :=
  exists category,
    get valid "category" JNull = Ok category /\ hashable category = Ok c.

(** The item is a dict whose samples are the list [l]; [l] is empty when the
    item has no samples. *)
Definition has_samples (valid : json) (l : list json) : Prop :=
  get valid "samples" (JArr []) = Ok (JArr l).

(** An item as the schema has it: a hashable category, a list of samples. *)
Definition plain_item (valid : json) : Prop :=
  (exists c, has_category valid c) /\ (exists l, has_samples valid l).

(** An entry as the schema has it: a dict whose valid items are a list of
    plain items. *)
Definition plain_entry (entry : json) : Prop :=
  exists valids,
    get entry "valid" (JArr []) = Ok (JArr valids) /\ Forall plain_item valids.

(** The category of an item, when it is a dict and the category hashes. *)
Definition category_of (valid : json) : option hval :=
  match get valid "category" JNull with
  | Ok category =>
      match hashable category with
      | Ok c => Some c
      | Raise _ => None
      end
  | Raise _ => None
  end.

(** The item has samples that count as true. *)
Definition sampled (valid : json) : bool :=
  match get valid "samples" (JArr []) with
  | Ok samples => truthy samples
  | Raise _ => false
  end.

(** The category of the item, if the item has samples. *)
Definition sampled_category (valid : json) : list hval :=
  if sampled valid then
    match category_of valid with
    | Some c => [c]
    | None => []
    end
  else [].

(** The categories with samples of a list of items, each once. *)
Definition sampled_categories (valids : list json) : list hval :=
  nodup hval_eq_dec (flat_map sampled_category valids).

(** [value] is the first item of the list [samples], or the first character
    of the text [samples]. *)
Definition first_of (samples value : json) : Prop :=
  (exists rest, samples = JArr (value :: rest))
  \/ (exists c rest, samples = JStr (String c rest)
                     /\ value = JStr (String c EmptyString)).

(** [item] is [{"name": name, "value": value}] where [name] is the parameter
    name of [entry] ([None] when it has none) and [value] is the first of the
    samples of a valid item of [entry]. *)
Definition sample_of_entry (entry item : json) : Prop :=
  exists name valid_entries valids valid samples value,
    get entry "param_name" JNull = Ok name
    /\ get entry "valid" (JArr []) = Ok valid_entries
    /\ iter valid_entries = Ok valids
    /\ In valid valids
    /\ get valid "samples" (JArr []) = Ok samples
    /\ first_of samples value
    /\ item = JObj [("name", name); ("value", value)].

(** ** Service graphs *)

Module Graph := InternalServiceReportVisualize.

(** The attributes of the edge from [u] to [v], when the graph has it. *)
Definition edge_attr (G : Graph.DiGraph) (u v : hval) : option Graph.attributes :=
  match dict_get Graph.node_eqb G u with
  | Some successors => dict_get Graph.node_eqb successors v
  | None => None
  end.

(** The label of the edge from [u] to [v]. *)
Definition edge_label (G : Graph.DiGraph) (u v : hval) : option json :=
  match edge_attr G u v with
  | Some d => dict_get String.eqb d "label"
  | None => None
  end.

(** The record is a call from service [u] to service [v] by method [m]. *)
Definition links_as (edge : json) (u v : hval) (m : json) : Prop :=
  exists source target,
    getpath edge ["source"; "serviceName"] = Ok source
    /\ getpath edge ["target"; "serviceName"] = Ok target
    /\ getpath edge ["target"; "simpleAPIMethod"; "method"] = Ok m
    /\ hashable source = Ok u /\ hashable target = Ok v.

(** [m] is the method of the last record of [edges] that is a call from [u]
    to [v]. *)
Definition last_linked (edges : list json) (u v : hval) (m : json) : Prop :=
  exists pre edge post,
    edges = pre ++ edge :: post
    /\ links_as edge u v m
    /\ Forall (fun e => forall m', ~ links_as e u v m') post.

(** The records [build_graph] visits: line 12, the head of the loop. *)
Definition runtime_records (data : json) : result (list json) :=
  g <- getitem data "finalRuntimeGraph" ;;
  edges <- getitem g "edges" ;;
  iter edges.

(** The graphs handed to [nx.draw], and the labels handed to
    [nx.draw_networkx_edge_labels], call by call. *)
Definition drawn_graphs (calls : list Graph.drawing_call) : list Graph.DiGraph :=
  flat_map (fun c => match c with
                     | Graph.nx_draw G _ _ _ _ _ _ => [G]
                     | _ => []
                     end) calls.

Definition drawn_labels (calls : list Graph.drawing_call)
  : list (list (hval * hval * json)) :=
  flat_map (fun c => match c with
                     | Graph.nx_draw_networkx_edge_labels _ labels _ _ => [labels]
                     | _ => []
                     end) calls.

(** The files the figure was saved to. *)
Definition saved_files (calls : list Graph.drawing_call) : list string :=
  flat_map (fun c => match c with
                     | Graph.plt_savefig fname => [fname]
                     | _ => []
                     end) calls.

(** The dicts of the graph hold each key once, and every edge has a label. *)
Definition graph_ok (G : Graph.DiGraph) : Prop :=
  NoDup (Graph.nodes G)
  /\ (forall u successors, In (u, successors) G -> NoDup (map fst successors))
  /\ (forall u v d, edge_attr G u v = Some d ->
        exists m, dict_get String.eqb d "label" = Some m).

(* ================================================================== *)
(** * Properties *)
(* ================================================================== *)

Import Samples.

(** ** Loops and dictionaries *)

Lemma for_each_app {S A : Type} (body : S -> A -> result S) (l1 l2 : list A) (s : S) :
  for_each body (l1 ++ l2) s = bind (for_each body l1 s) (for_each body l2).
Proof.
  revert s; induction l1 as [|a l1 IH]; intros s; simpl; [reflexivity|].
  destruct (body s a); simpl; auto.
Qed.

Lemma bind_Ok {A B : Type} (m : result A) (k : A -> result B) (b : B) :
  bind m k = Ok b -> exists a, m = Ok a /\ k a = Ok b.
Proof. destruct m as [a|e]; simpl; [eauto|discriminate]. Qed.

Lemma bind_Raise {A B : Type} (m : result A) (k : A -> result B) (e : exc) :
  bind m k = Raise e -> m = Raise e \/ exists a, m = Ok a /\ k a = Raise e.
Proof. destruct m as [a|e']; simpl; [eauto|intros [= ->]; auto]. Qed.

(** Peel the first step off a chain of binds that returned. *)
Ltac bind_ok H x E :=
  apply bind_Ok in H; destruct H as [x [E H]].

Lemma comprehension_total {A B : Type} (f : A -> result B) (g : A -> B) (l : list A) :
  (forall a, In a l -> f a = Ok (g a)) -> comprehension f l = Ok (map g l).
Proof.
  induction l as [|a l IH]; intros H; simpl; [reflexivity|].
  rewrite (H a (or_introl eq_refl)); simpl.
  rewrite IH by (intros; apply H; right; assumption).
  reflexivity.
Qed.

Lemma EdgeKey_eqb_eq (a b : EdgeKey) : EdgeKey_eqb a b = true <-> a = b.
Proof.
  unfold EdgeKey_eqb; destruct (EdgeKey_eq_dec a b); split; congruence.
Qed.

Lemma EdgeKey_eqb_neq (a b : EdgeKey) : EdgeKey_eqb a b = false <-> a <> b.
Proof.
  unfold EdgeKey_eqb; destruct (EdgeKey_eq_dec a b); split; congruence.
Qed.

Lemma EdgeKey_eqb_refl (a : EdgeKey) : EdgeKey_eqb a a = true.
Proof. apply EdgeKey_eqb_eq; reflexivity. Qed.

Section SnapshotFacts.
Implicit Types (d : snapshot) (k : EdgeKey) (v : json).

Lemma dict_get_set_same d k v : dict_get EdgeKey_eqb (dict_set EdgeKey_eqb d k v) k = Some v.
Proof.
  induction d as [|[k' v'] d IH]; simpl.
  - rewrite EdgeKey_eqb_refl; reflexivity.
  - destruct (EdgeKey_eqb k' k) eqn:E; simpl; rewrite E; auto.
Qed.

Lemma dict_get_set_other d k k' v :
  k <> k' -> dict_get EdgeKey_eqb (dict_set EdgeKey_eqb d k v) k' = dict_get EdgeKey_eqb d k'.
Proof.
  intros Hne; induction d as [|[k0 v0] d IH]; simpl.
  - apply EdgeKey_eqb_neq in Hne; rewrite Hne; reflexivity.
  - destruct (EdgeKey_eqb k0 k) eqn:E; simpl.
    + apply EdgeKey_eqb_eq in E; subst k0.
      apply EdgeKey_eqb_neq in Hne; rewrite Hne; reflexivity.
    + rewrite IH; reflexivity.
Qed.

Lemma dict_keys_set d k v :
  forall k', In k' (dict_keys (dict_set EdgeKey_eqb d k v)) <-> k' = k \/ In k' (dict_keys d).
Proof.
  intros k'; induction d as [|[k0 v0] d IH]; simpl.
  - intuition congruence.
  - destruct (EdgeKey_eqb k0 k) eqn:E; simpl.
    + apply EdgeKey_eqb_eq in E; subst k0; intuition congruence.
    + rewrite IH; intuition congruence.
Qed.

Lemma dict_set_is_dict d k v : is_dict d -> is_dict (dict_set EdgeKey_eqb d k v).
Proof.
  unfold is_dict; induction d as [|[k0 v0] d IH]; simpl; intros H.
  - constructor; [intros []|constructor].
  - inversion H as [|? ? Hnin Hnd]; subst.
    destruct (EdgeKey_eqb k0 k) eqn:E; simpl.
    + constructor; assumption.
    + constructor; [|auto].
      intros Hin; apply dict_keys_set in Hin as [->|Hin]; [|contradiction].
      rewrite EdgeKey_eqb_refl in E; discriminate.
Qed.

Lemma dict_get_in d k v : dict_get EdgeKey_eqb d k = Some v -> In (k, v) d.
Proof.
  induction d as [|[k0 v0] d IH]; simpl; [discriminate|].
  destruct (EdgeKey_eqb k0 k) eqn:E.
  - apply EdgeKey_eqb_eq in E; subst; intros [= ->]; left; reflexivity.
  - intros H; right; auto.
Qed.

Lemma dict_in_get d k v : is_dict d -> In (k, v) d -> dict_get EdgeKey_eqb d k = Some v.
Proof.
  unfold is_dict; induction d as [|[k0 v0] d IH]; simpl; [intros _ []|].
  intros H [Heq|Hin]; inversion H as [|? ? Hnin Hnd]; subst.
  - injection Heq as -> ->; rewrite EdgeKey_eqb_refl; reflexivity.
  - destruct (EdgeKey_eqb k0 k) eqn:E; [|auto].
    apply EdgeKey_eqb_eq in E; subst k0.
    exfalso; apply Hnin; change k with (fst (k, v)); apply in_map; assumption.
Qed.

Lemma dict_get_none d k : dict_get EdgeKey_eqb d k = None <-> ~ In k (dict_keys d).
Proof.
  induction d as [|[k0 v0] d IH]; simpl; [tauto|].
  destruct (EdgeKey_eqb k0 k) eqn:E.
  - apply EdgeKey_eqb_eq in E; subst; split; [discriminate|tauto].
  - apply EdgeKey_eqb_neq in E; rewrite IH; tauto.
Qed.

Lemma set_member_in k (s : list EdgeKey) : set_member k s = true <-> In k s.
Proof.
  unfold set_member; rewrite existsb_exists; split.
  - intros [x [Hin Heq]]; apply EdgeKey_eqb_eq in Heq; subst; assumption.
  - intros Hin; exists k; split; [assumption|apply EdgeKey_eqb_refl].
Qed.

Lemma py_set_in k (l : list EdgeKey) : In k (py_set l) <-> In k l.
Proof. apply nodup_In. Qed.

Lemma set_difference_in k (a b : list EdgeKey) :
  In k (set_difference a b) <-> In k a /\ ~ In k b.
Proof.
  unfold set_difference; rewrite filter_In, negb_true_iff.
  rewrite <- (set_member_in k b); destruct (set_member k b); intuition congruence.
Qed.

Lemma set_difference_NoDup (a b : list EdgeKey) : NoDup a -> NoDup (set_difference a b).
Proof. apply NoDup_filter. Qed.
End SnapshotFacts.

(** ** [compare_coverage] *)

Section CompareCovered.
Variable set_iter : iteration_order.
Hypothesis set_iter_perm : visits_each_once set_iter.

Lemma set_iter_in (s : list EdgeKey) k : NoDup s -> In k (set_iter s) <-> In k s.
Proof.
  intros Hnd; split; intros H.
  - eapply Permutation_in; [apply set_iter_perm; assumption|assumption].
  - eapply Permutation_in; [apply Permutation_sym, set_iter_perm; assumption|assumption].
Qed.

Lemma values_of_filter (p : EdgeKey -> bool) (A l : snapshot) :
  (forall kv, In kv l -> value_of A (fst kv) = snd kv) ->
  map (value_of A) (filter p (dict_keys l)) = map snd (filter (fun kv => p (fst kv)) l).
Proof.
  induction l as [|[k v] l IH]; intros Hval; simpl; [reflexivity|].
  assert (IH' := IH (fun kv Hkv => Hval kv (or_intror Hkv))).
  destruct (p k); simpl; [|assumption].
  f_equal; [apply (Hval (k, v)); left; reflexivity|assumption].
Qed.

Lemma values_of_difference (A B : snapshot) :
  is_dict A ->
  map (value_of A) (set_difference (py_set (dict_keys A)) (py_set (dict_keys B)))
  = details_only_in A B.
Proof.
  intros HA.
  unfold py_set at 1; rewrite (nodup_fixed_point EdgeKey_eq_dec HA).
  unfold details_only_in, set_difference.
  rewrite values_of_filter.
  - f_equal; apply filter_ext; intros [k v]; simpl.
    destruct (in_dec EdgeKey_eq_dec k (dict_keys B)) as [Hin|Hnin].
    + apply negb_false_iff, set_member_in, py_set_in, Hin.
    + apply negb_true_iff.
      destruct (set_member k (py_set (dict_keys B))) eqn:E; [|reflexivity].
      exfalso; apply Hnin, py_set_in, set_member_in, E.
  - intros [k v] Hin; unfold value_of; simpl.
    rewrite (dict_in_get A k v HA Hin); reflexivity.
Qed.

Lemma only_in_values (A B : snapshot) :
  is_dict A ->
  let ks := set_difference (py_set (dict_keys A)) (py_set (dict_keys B)) in
  comprehension (dict_getitem EdgeKey_eqb A) (set_iter ks)
  = Ok (map (value_of A) (set_iter ks))
  /\ Permutation (map (value_of A) (set_iter ks)) (details_only_in A B).
Proof.
  intros HA ks.
  assert (Hnd : NoDup ks) by (apply set_difference_NoDup, NoDup_nodup).
  split.
  - apply comprehension_total; intros k Hk.
    apply (proj1 (set_iter_in ks k Hnd)) in Hk.
    apply (proj1 (set_difference_in k _ _)) in Hk as [Hk _].
    apply (proj1 (py_set_in k _)) in Hk.
    unfold dict_getitem, value_of.
    destruct (dict_get EdgeKey_eqb A k) eqn:E; [reflexivity|].
    apply (proj1 (dict_get_none A k)) in E; contradiction.
  - rewrite <- (values_of_difference A B HA).
    apply Permutation_map, set_iter_perm; assumption.
Qed.

(** C2. The diff is a set difference on edge keys: [only_in_1] holds the
    details of the edges of [A] whose key is not a key of [B], each once
    and as [A] has them, and [only_in_2] those of [B] whose key is not a key
    of [A], as [B] has them.  The details of the other snapshot play no
    part. *)
Theorem compare_covered_is_set_difference (A B : snapshot) :
  is_dict A -> is_dict B ->
  exists only_in_1 only_in_2,
    compare_covered set_iter A B = Ok (only_in_1, only_in_2)
    /\ Permutation only_in_1 (details_only_in A B)
    /\ Permutation only_in_2 (details_only_in B A).
Proof.
  intros HA HB.
  destruct (only_in_values A B HA) as [E1 P1].
  destruct (only_in_values B A HB) as [E2 P2].
  do 2 eexists; unfold compare_covered.
  rewrite E1; simpl; rewrite E2; simpl; auto.
Qed.

Lemma same_keys_no_difference (a b : list EdgeKey) :
  (forall k, In k a -> In k b) -> set_iter (set_difference (py_set a) (py_set b)) = [].
Proof.
  intros H.
  assert (E : set_difference (py_set a) (py_set b) = []).
  { destruct (set_difference (py_set a) (py_set b)) as [|k l] eqn:E; [reflexivity|].
    assert (Hk : In k (set_difference (py_set a) (py_set b))) by (rewrite E; left; reflexivity).
    apply set_difference_in in Hk as [Hka Hkb].
    exfalso; apply Hkb, py_set_in, H, py_set_in, Hka. }
  rewrite E; apply Permutation_nil, Permutation_sym, set_iter_perm; constructor.
Qed.

(** C8. Comparing a snapshot with itself gives two empty lists, and so does
    comparing any two snapshots with the same keys; the result is the pair
    of the two lists, both present. *)
Theorem compare_covered_same_keys :
  (forall A : snapshot, compare_covered set_iter A A = Ok ([], []))
  /\ (forall A B : snapshot,
        (forall k, In k (dict_keys A) <-> In k (dict_keys B)) ->
        compare_covered set_iter A B = Ok ([], [])).
Proof.
  assert (H : forall A B : snapshot,
             (forall k, In k (dict_keys A) <-> In k (dict_keys B)) ->
             compare_covered set_iter A B = Ok ([], [])).
  { intros A B Hk; unfold compare_covered.
    rewrite !same_keys_no_difference by (intros k; apply Hk).
    reflexivity. }
  split; [intros A; apply H; tauto|exact H].
Qed.

End CompareCovered.

Lemma forwards_visits_each_once : visits_each_once forwards.
Proof. intros s _; apply Permutation_refl. Qed.

Lemma backwards_visits_each_once : visits_each_once backwards.
Proof. intros s _; apply Permutation_sym, Permutation_rev. Qed.

Lemma snapshot3_is_dict : is_dict snapshot3.
Proof.
  unfold is_dict; simpl; constructor.
  - intros [H|[]]; discriminate H.
  - constructor; [intros []|constructor].
Qed.

Lemma empty_is_dict : is_dict [].
Proof. constructor. Qed.

Lemma report3_loads : load_edges report3 = Ok snapshot3.
Proof. vm_compute; reflexivity. Qed.

(** The scenario of the specification: the edge of [report1] with hit count
    0 is not covered, the edge the two reports share is in neither list, and
    the second edge of [report2] is the only entry of [only_in_2]. *)
Example compare_coverage_scenario (set_iter : iteration_order) :
  visits_each_once set_iter ->
  compare_coverage set_iter report1 report2 = Ok ([], [detail s2_b s3_d]).
Proof.
  intros Hperm; unfold compare_coverage.
  replace (load_edges report1)
    with (Ok [(key_of "S1" "/a" "GET" "S2" "/b" "POST", detail s1_a s2_b)])
    by (vm_compute; reflexivity).
  replace (load_edges report2)
    with (Ok [(key_of "S1" "/a" "GET" "S2" "/b" "POST", detail s1_a s2_b);
              (key_of "S2" "/b" "POST" "S3" "/d" "GET", detail s2_b s3_d)])
    by (vm_compute; reflexivity).
  unfold bind, compare_covered.
  match goal with
  | |- context [set_iter ?s] =>
      replace s with (@nil EdgeKey) by (vm_compute; reflexivity)
  end.
  match goal with
  | |- context [set_iter (set_difference ?a ?b)] =>
      replace (set_difference a b) with [key_of "S2" "/b" "POST" "S3" "/d" "GET"]
        by (vm_compute; reflexivity)
  end.
  rewrite (Permutation_nil (Permutation_sym (Hperm [] (NoDup_nil _)))).
  rewrite (Permutation_length_1_inv
             (Permutation_sym (Hperm [key_of "S2" "/b" "POST" "S3" "/d" "GET"]
                                 (NoDup_cons _ (@in_nil _ _) (NoDup_nil _))))).
  vm_compute; reflexivity.
Qed.

Lemma compare_covered_is_set_difference_witness :
  exists only_in_1 only_in_2,
    compare_covered forwards snapshot3 [] = Ok (only_in_1, only_in_2)
    /\ Permutation only_in_1 (details_only_in snapshot3 [])
    /\ Permutation only_in_2 (details_only_in [] snapshot3).
Proof.
  apply (compare_covered_is_set_difference forwards forwards_visits_each_once).
  - exact snapshot3_is_dict.
  - exact empty_is_dict.
Defined.

Lemma compare_covered_same_keys_witness :
  (forall A : snapshot, compare_covered backwards A A = Ok ([], []))
  /\ (forall A B : snapshot,
        (forall k, In k (dict_keys A) <-> In k (dict_keys B)) ->
        compare_covered backwards A B = Ok ([], [])).
Proof.
  exact (compare_covered_same_keys backwards backwards_visits_each_once).
Defined.

(** ** The order of the output lists *)

(** C1, as stated, fails: two runs that differ in nothing but the order in
    which their sets are visited return the entries of [only_in_1] in
    different orders for the same two reports. *)
Lemma compare_coverage_order_differs_between_runs :
  visits_each_once forwards /\ visits_each_once backwards
  /\ compare_coverage forwards report3 report4
     = Ok ([detail s1_a s2_b; detail s2_b s3_d], [])
  /\ compare_coverage backwards report3 report4
     = Ok ([detail s2_b s3_d; detail s1_a s2_b], [])
  /\ compare_coverage forwards report3 report4
     <> compare_coverage backwards report3 report4.
Proof.
  split; [exact forwards_visits_each_once|].
  split; [exact backwards_visits_each_once|].
  assert (E1 : compare_coverage forwards report3 report4
               = Ok ([detail s1_a s2_b; detail s2_b s3_d], []))
    by (vm_compute; reflexivity).
  assert (E2 : compare_coverage backwards report3 report4
               = Ok ([detail s2_b s3_d; detail s1_a s2_b], []))
    by (vm_compute; reflexivity).
  split; [exact E1|]; split; [exact E2|].
  rewrite E1, E2; intros H; vm_compute in H; congruence.
Qed.

(** C1, amended. The entries of each output list stand in the order in which
    the run visits the set of keys; two runs on the same snapshots return
    lists with the same entries, each the same number of times, in orders
    that may differ. *)
Theorem compare_covered_runs_agree_up_to_order
    (run1 run2 : iteration_order) (A B : snapshot) :
  visits_each_once run1 -> visits_each_once run2 ->
  is_dict A -> is_dict B ->
  exists a1 b1 a2 b2,
    compare_covered run1 A B = Ok (a1, b1)
    /\ compare_covered run2 A B = Ok (a2, b2)
    /\ a1 = map (value_of A)
              (run1 (set_difference (py_set (dict_keys A)) (py_set (dict_keys B))))
    /\ b1 = map (value_of B)
              (run1 (set_difference (py_set (dict_keys B)) (py_set (dict_keys A))))
    /\ Permutation a1 a2 /\ Permutation b1 b2.
Proof.
  intros H1 H2 HA HB.
  destruct (only_in_values run1 H1 A B HA) as [Ea1 Pa1].
  destruct (only_in_values run1 H1 B A HB) as [Eb1 Pb1].
  destruct (only_in_values run2 H2 A B HA) as [Ea2 Pa2].
  destruct (only_in_values run2 H2 B A HB) as [Eb2 Pb2].
  do 4 eexists; unfold compare_covered.
  rewrite Ea1, Ea2; simpl; rewrite Eb1, Eb2; simpl.
  repeat split.
  - eapply Permutation_trans; [exact Pa1|apply Permutation_sym, Pa2].
  - eapply Permutation_trans; [exact Pb1|apply Permutation_sym, Pb2].
Qed.

Lemma compare_covered_runs_agree_up_to_order_witness :
  exists a1 b1 a2 b2,
    compare_covered forwards snapshot3 [] = Ok (a1, b1)
    /\ compare_covered backwards snapshot3 [] = Ok (a2, b2)
    /\ a1 = map (value_of snapshot3)
              (forwards (set_difference (py_set (dict_keys snapshot3)) (py_set (dict_keys (@nil (EdgeKey * json))))))
    /\ b1 = map (value_of [])
              (forwards (set_difference (py_set (dict_keys (@nil (EdgeKey * json)))) (py_set (dict_keys snapshot3))))
    /\ Permutation a1 a2 /\ Permutation b1 b2.
Proof.
  apply compare_covered_runs_agree_up_to_order.
  - exact forwards_visits_each_once.
  - exact backwards_visits_each_once.
  - exact snapshot3_is_dict.
  - exact empty_is_dict.
Defined.

(** ** [load_edges] *)

Section LoadEdges.
Implicit Types (edge : json) (s : snapshot) (k : EdgeKey) (d : json).

Lemma not_hit_uncovered edge : not_hit edge -> covered edge = Ok false.
Proof.
  intros [o [-> [Hnone|[h [q [Hsome [Hnum Hle]]]]]]]; unfold covered, get.
  - rewrite Hnone; reflexivity.
  - rewrite Hsome; simpl; unfold gt_zero; rewrite Hnum.
    apply Qle_bool_iff in Hle; rewrite Hle; reflexivity.
Qed.

Lemma covered_true_hit edge : covered edge = Ok true <-> hit edge.
Proof.
  split.
  - unfold covered, get; destruct edge; try discriminate.
    destruct (dict_get String.eqb o "hitCount") as [h|] eqn:E; simpl; [|discriminate].
    unfold gt_zero; destruct (number h) as [q|] eqn:Hq; [|discriminate].
    intros [= Hb]; exists o, h, q; repeat split; auto.
    apply negb_true_iff in Hb; apply Qnot_le_lt; intros Hle.
    apply Qle_bool_iff in Hle; congruence.
  - intros [o [h [q [-> [Hsome [Hnum Hlt]]]]]]; unfold covered, get.
    rewrite Hsome; simpl; unfold gt_zero; rewrite Hnum; f_equal.
    apply negb_true_iff; destruct (Qle_bool q 0) eqn:E; [|reflexivity].
    apply Qle_bool_iff in E; exfalso; exact (Qlt_not_le _ _ Hlt E).
Qed.

Lemma covered_no_KeyError edge : covered edge <> Raise KeyError.
Proof.
  unfold covered, get; destruct edge; try discriminate.
  destruct (dict_get String.eqb o "hitCount") as [h|]; simpl; unfold gt_zero.
  - destruct (number h); discriminate.
  - discriminate.
Qed.

Lemma hashable_no_KeyError (v : json) : hashable v <> Raise KeyError.
Proof. destruct v as [| | | | | |]; simpl; discriminate. Qed.

Lemma hash_key_no_KeyError (rk : raw_key) : hash_key rk <> Raise KeyError.
Proof.
  destruct rk as [[[[[a b] c] d] e] f]; unfold hash_key.
  pose proof (hashable_no_KeyError a); pose proof (hashable_no_KeyError b).
  pose proof (hashable_no_KeyError c); pose proof (hashable_no_KeyError d).
  pose proof (hashable_no_KeyError e); pose proof (hashable_no_KeyError f).
  destruct (hashable a); simpl; [|intros [= ->]; congruence].
  destruct (hashable b); simpl; [|intros [= ->]; congruence].
  destruct (hashable c); simpl; [|intros [= ->]; congruence].
  destruct (hashable d); simpl; [|intros [= ->]; congruence].
  destruct (hashable e); simpl; [|intros [= ->]; congruence].
  destruct (hashable f); simpl; [discriminate|intros [= ->]; congruence].
Qed.

Lemma getpath_head edge (key : string) (keys : list string) (v : json) :
  getpath edge (key :: keys) = Ok v -> exists w, getitem edge key = Ok w.
Proof.
  simpl; destruct (getitem edge key) as [w|]; [eauto|discriminate].
Qed.

Lemma edge_key_detail edge (rk : raw_key) :
  edge_key edge = Ok rk -> exists d, edge_detail edge = Ok d.
Proof.
  unfold edge_key, edge_detail; intros H.
  bind_ok H a Ea; bind_ok H b Eb; bind_ok H c Ec; bind_ok H t Et.
  apply getpath_head in Ea as [ws Es]; apply getpath_head in Et as [wt Ew].
  rewrite Es, Ew; simpl; eauto.
Qed.

Lemma load_edge_uncovered s edge : covered edge = Ok false -> load_edge s edge = Ok s.
Proof. unfold load_edge; intros ->; reflexivity. Qed.

Lemma load_edge_stores s edge k d :
  loads_as edge k d -> load_edge s edge = Ok (dict_set EdgeKey_eqb s k d).
Proof.
  intros [Hc [rk [Hk [Hh Hd]]]]; unfold load_edge.
  rewrite Hc; simpl; rewrite Hk; simpl; rewrite Hd; simpl; rewrite Hh; reflexivity.
Qed.

Lemma load_edge_KeyError s edge :
  load_edge s edge = Raise KeyError -> hit edge /\ edge_key edge = Raise KeyError.
Proof.
  unfold load_edge; intros H.
  pose proof (covered_no_KeyError edge) as Hc.
  destruct (covered edge) as [[|]|e] eqn:Ec; simpl in H;
    [|discriminate|injection H as ->; congruence].
  split; [apply covered_true_hit; assumption|].
  destruct (edge_key edge) as [rk|e] eqn:Ek; simpl in H;
    [|injection H as ->; reflexivity].
  destruct (edge_key_detail edge rk Ek) as [d Hd]; rewrite Hd in H; simpl in H.
  pose proof (hash_key_no_KeyError rk) as Hh.
  destruct (hash_key rk); simpl in H; [discriminate|injection H as ->; congruence].
Qed.

Lemma loads_as_functional edge k d k' d' :
  loads_as edge k d -> loads_as edge k' d' -> k = k' /\ d = d'.
Proof.
  intros [_ [rk [Hk [Hh Hd]]]] [_ [rk' [Hk' [Hh' Hd']]]].
  split; congruence.
Qed.

Lemma loads_as_covered edge k d : loads_as edge k d -> covered edge = Ok false -> False.
Proof. intros [Hc _] Hf; congruence. Qed.

Lemma skip_edge (pre post : list json) edge s :
  covered edge = Ok false ->
  for_each load_edge (pre ++ edge :: post) s = for_each load_edge (pre ++ post) s.
Proof.
  intros Hc; rewrite !for_each_app.
  destruct (for_each load_edge pre s) as [s'|]; simpl; [|reflexivity].
  rewrite (load_edge_uncovered s' edge Hc); reflexivity.
Qed.

Lemma load_edge_inv s edge s' :
  load_edge s edge = Ok s' ->
  (covered edge = Ok false /\ s' = s)
  \/ exists k d, loads_as edge k d /\ s' = dict_set EdgeKey_eqb s k d.
Proof.
  unfold load_edge; intros H.
  bind_ok H hit_ Ec; destruct hit_.
  - bind_ok H rk Ek; bind_ok H d Ed; bind_ok H k Eh; injection H as <-.
    right; exists k, d; split; [|reflexivity].
    split; [assumption|exists rk; auto].
  - injection H as <-; left; auto.
Qed.

Lemma load_edge_list_snoc (edges : list json) edge :
  load_edge_list (edges ++ [edge])
  = bind (load_edge_list edges) (fun s => load_edge s edge).
Proof.
  unfold load_edge_list; rewrite for_each_app.
  destruct (for_each load_edge edges []) as [s|]; simpl; [|reflexivity].
  destruct (load_edge s edge); reflexivity.
Qed.

Lemma snoc_split {A : Type} (l pre post : list A) (a b : A) :
  l ++ [a] = pre ++ b :: post ->
  (post = [] /\ l = pre /\ a = b)
  \/ exists post', post = post' ++ [a] /\ l = pre ++ b :: post'.
Proof.
  induction post as [|a' post' _] using rev_ind; intros H.
  - apply app_inj_tail in H as [-> ->]; left; auto.
  - right; exists post'.
    change (pre ++ b :: post' ++ [a']) with (pre ++ (b :: post') ++ [a']) in H.
    rewrite app_assoc in H; apply app_inj_tail in H as [-> ->]; auto.
Qed.

Lemma last_loaded_skip (edges : list json) edge k d :
  (forall d', ~ loads_as edge k d') ->
  last_loaded (edges ++ [edge]) k d <-> last_loaded edges k d.
Proof.
  intros Hno; split.
  - intros [pre [e [post [Heq [Hl Hpost]]]]].
    apply snoc_split in Heq as [[-> [-> ->]]|[post' [-> ->]]].
    + exfalso; exact (Hno d Hl).
    + exists pre, e, post'; split; [reflexivity|split; [assumption|]].
      apply Forall_app in Hpost as [Hpost _]; assumption.
  - intros [pre [e [post [-> [Hl Hpost]]]]].
    exists pre, e, (post ++ [edge]); split; [|split; [assumption|]].
    + rewrite <- app_assoc; reflexivity.
    + apply Forall_app; split; [assumption|constructor; [exact Hno|constructor]].
Qed.

Lemma last_loaded_last (edges : list json) edge k d d' :
  loads_as edge k d -> last_loaded (edges ++ [edge]) k d' <-> d' = d.
Proof.
  intros Hl; split.
  - intros [pre [e [post [Heq [Hl' Hpost]]]]].
    apply snoc_split in Heq as [[-> [-> ->]]|[post' [-> ->]]].
    + apply (loads_as_functional e k d' k d); assumption.
    + apply Forall_app in Hpost as [_ Hpost]; inversion Hpost as [|? ? Hno _]; subst.
      exfalso; exact (Hno d Hl).
  - intros ->; exists edges, edge, []; split; [reflexivity|split; [assumption|constructor]].
Qed.

(** The snapshot after the loop, key by key. *)
Lemma load_edge_list_lookup (edges : list json) :
  forall s, load_edge_list edges = Ok s ->
    is_dict s
    /\ forall k d, dict_get EdgeKey_eqb s k = Some d <-> last_loaded edges k d.
Proof.
  induction edges as [|edge edges IH] using rev_ind; intros s H.
  - injection H as <-; split; [constructor|].
    intros k d; split; [discriminate|].
    intros [pre [e [post [Heq _]]]]; destruct pre; discriminate.
  - rewrite load_edge_list_snoc in H; bind_ok H s0 E0.
    destruct (IH s0 E0) as [Hdict Hget].
    apply load_edge_inv in H as [[Hc ->]|[k0 [d0 [Hl ->]]]].
    + split; [assumption|]; intros k d.
      rewrite last_loaded_skip; [apply Hget|].
      intros d' Hl; exact (loads_as_covered edge k d' Hl Hc).
    + split; [apply dict_set_is_dict; assumption|]; intros k d.
      destruct (EdgeKey_eq_dec k0 k) as [->|Hne].
      * rewrite dict_get_set_same, (last_loaded_last edges edge k d0 d Hl).
        split; [intros [= ->]; reflexivity|intros ->; reflexivity].
      * rewrite dict_get_set_other by assumption.
        rewrite last_loaded_skip; [apply Hget|].
        intros d' Hl'; apply Hne.
        apply (loads_as_functional edge k0 d0 k d'); assumption.
Qed.

Lemma well_formed_loads (edges : list json) :
  Forall well_formed edges -> forall s, exists s', for_each load_edge edges s = Ok s'.
Proof.
  induction 1 as [|edge edges Hwf _ IH]; intros s; simpl; [eauto|].
  destruct Hwf as [Hc|[k [d Hl]]].
  - rewrite (load_edge_uncovered s edge Hc); simpl; apply IH.
  - rewrite (load_edge_stores s edge k d Hl); simpl; apply IH.
Qed.

End LoadEdges.

(** C4. A record whose hit count is absent, 0 or negative leaves the
    snapshot as it was: with the record in the report or without it,
    [load_edges] returns the same snapshot and [compare_coverage] the same
    lists.  Every entry a snapshot does hold was stored for a record with a
    hit count above 0. *)
Theorem unhit_edge_never_loaded :
  (forall edge, not_hit edge ->
     (forall covered_edges, load_edge covered_edges edge = Ok covered_edges)
     /\ (forall pre post,
           load_edge_list (pre ++ edge :: post) = load_edge_list (pre ++ post))
     /\ (forall data data' pre post,
           edge_records data = Ok (pre ++ edge :: post) ->
           edge_records data' = Ok (pre ++ post) ->
           load_edges data = load_edges data'
           /\ forall set_iter other,
                compare_coverage set_iter data other
                = compare_coverage set_iter data' other
                /\ compare_coverage set_iter other data
                   = compare_coverage set_iter other data'))
  /\ (forall edges covered_edges k d,
        load_edge_list edges = Ok covered_edges ->
        dict_get EdgeKey_eqb covered_edges k = Some d ->
        exists edge, In edge edges /\ hit edge /\ loads_as edge k d).
Proof.
  split.
  - intros edge Hno; pose proof (not_hit_uncovered edge Hno) as Hc.
    assert (Hskip : forall pre post,
               load_edge_list (pre ++ edge :: post) = load_edge_list (pre ++ post))
      by (intros; apply skip_edge; assumption).
    split; [intros s; apply load_edge_uncovered; assumption|].
    split; [exact Hskip|].
    intros data data' pre post E E'.
    assert (Hload : load_edges data = load_edges data').
    { unfold load_edges; rewrite E, E'; simpl; apply Hskip. }
    split; [exact Hload|].
    intros set_iter other; unfold compare_coverage; rewrite Hload; auto.
  - intros edges s k d Hload Hget.
    apply (load_edge_list_lookup edges s Hload) in Hget.
    destruct Hget as [pre [edge [post [-> [Hl _]]]]].
    exists edge; split; [apply in_elt|].
    split; [apply covered_true_hit; exact (proj1 Hl)|assumption].
Qed.

Lemma edge_without_target_not_hit : not_hit edge_without_target.
Proof.
  eexists; split; [reflexivity|right].
  exists (JInt 0), (inject_Z 0); repeat split; discriminate.
Qed.

Lemma unhit_edge_never_loaded_witness :
  load_edge_list ([edge s1_a s2_b 3] ++ edge_without_target :: [edge s2_b s3_d 2])
  = load_edge_list ([edge s1_a s2_b 3] ++ [edge s2_b s3_d 2]).
Proof.
  exact (proj1 (proj2 (proj1 unhit_edge_never_loaded edge_without_target
                         edge_without_target_not_hit))
           [edge s1_a s2_b 3] [edge s2_b s3_d 2]).
Defined.

Section StoredRecords.
Implicit Types (edge node : json) (k : EdgeKey) (d : json).

Lemma getpath_cons edge (key : string) (keys : list string) (v : json) :
  getpath edge (key :: keys) = Ok v
  <-> exists w, getitem edge key = Ok w /\ getpath w keys = Ok v.
Proof.
  cbn [getpath]; split.
  - intros H; bind_ok H w E; eauto.
  - intros [w [-> H]]; exact H.
Qed.

Lemma identity_edge_key edge (source target : json) a b c a' b' c' :
  getitem edge "source" = Ok source -> getitem edge "target" = Ok target ->
  identity source a b c -> identity target a' b' c' ->
  exists rk, edge_key edge = Ok rk /\ hash_key rk = Ok (a, b, c, a', b', c').
Proof.
  intros Es Et [n [p [m [Hn [Hp [Hm [Ha [Hb Hc]]]]]]]]
    [n' [p' [m' [Hn' [Hp' [Hm' [Ha' [Hb' Hc']]]]]]]].
  exists (n, p, m, n', p', m'); split.
  - unfold edge_key.
    rewrite (proj2 (getpath_cons edge "source" _ n)) by eauto; cbn [bind].
    rewrite (proj2 (getpath_cons edge "source" _ p)) by eauto; cbn [bind].
    rewrite (proj2 (getpath_cons edge "source" _ m)) by eauto; cbn [bind].
    rewrite (proj2 (getpath_cons edge "target" _ n')) by eauto; cbn [bind].
    rewrite (proj2 (getpath_cons edge "target" _ p')) by eauto; cbn [bind].
    rewrite (proj2 (getpath_cons edge "target" _ m')) by eauto; reflexivity.
  - unfold hash_key; rewrite Ha, Hb, Hc, Ha', Hb', Hc'; reflexivity.
Qed.

(** A record is stored under [k] with detail [d] by the loop exactly when it
    has a hit count above 0, [k] is made of its six identity fields and [d]
    of its source and its target. *)
Lemma stored_as_loads_as edge k d : stored_as edge k d <-> loads_as edge k d.
Proof.
  split.
  - intros [Hhit [source [target [a [b [c [a' [b' [c' [Es [Et [Hs [Ht [-> ->]]]]]]]]]]]]]].
    split; [apply covered_true_hit; exact Hhit|].
    destruct (identity_edge_key edge source target a b c a' b' c' Es Et Hs Ht)
      as [rk [Hk Hh]].
    exists rk; split; [exact Hk|split; [exact Hh|]].
    unfold edge_detail; rewrite Es, Et; reflexivity.
  - intros [Hc [rk [Hk [Hh Hd]]]].
    split; [apply covered_true_hit; exact Hc|].
    unfold edge_detail in Hd; bind_ok Hd source Es; bind_ok Hd target Et.
    injection Hd as <-.
    unfold edge_key in Hk.
    bind_ok Hk n En; bind_ok Hk p Ep; bind_ok Hk m Em.
    bind_ok Hk n' En'; bind_ok Hk p' Ep'; bind_ok Hk m' Em'.
    injection Hk as <-.
    unfold hash_key in Hh.
    bind_ok Hh a Ha; bind_ok Hh b Hb; bind_ok Hh c Hc'.
    bind_ok Hh a' Ha'; bind_ok Hh b' Hb'; bind_ok Hh c' Hc''.
    injection Hh as <-.
    apply getpath_cons in En as [w [Ew En]]; rewrite Es in Ew; injection Ew as <-.
    apply getpath_cons in Ep as [w [Ew Ep]]; rewrite Es in Ew; injection Ew as <-.
    apply getpath_cons in Em as [w [Ew Em]]; rewrite Es in Ew; injection Ew as <-.
    apply getpath_cons in En' as [w [Ew En']]; rewrite Et in Ew; injection Ew as <-.
    apply getpath_cons in Ep' as [w [Ew Ep']]; rewrite Et in Ew; injection Ew as <-.
    apply getpath_cons in Em' as [w [Ew Em']]; rewrite Et in Ew; injection Ew as <-.
    exists source, target, a, b, c, a', b', c'.
    split; [exact Es|split; [exact Et|]].
    split; [exists n, p, m; auto 10|].
    split; [exists n', p', m'; auto 10|auto].
Qed.

Lemma record_ok_well_formed edge : record_ok edge -> well_formed edge.
Proof.
  intros [Hno|[k [d Hs]]].
  - left; apply not_hit_uncovered; exact Hno.
  - right; exists k, d; apply stored_as_loads_as; exact Hs.
Qed.

Lemma last_stored_last_loaded (edges : list json) k d :
  last_stored edges k d <-> last_loaded edges k d.
Proof.
  split; intros [pre [edge [post [-> [Hs Hpost]]]]]; exists pre, edge, post;
    (split; [reflexivity|split; [apply stored_as_loads_as; exact Hs|]]);
    (eapply Forall_impl; [|exact Hpost]); intros e Hno d' Hd;
    apply (Hno d'); apply stored_as_loads_as; exact Hd.
Qed.

Lemma report_edges_records (data : json) (edges : list json) :
  report_edges data edges -> edge_records data = Ok edges.
Proof.
  intros [graph [records [Eg [Er Ei]]]]; unfold edge_records.
  rewrite Eg; cbn [bind]; rewrite Er; exact Ei.
Qed.

End StoredRecords.

(** C5. When a key comes up in several records, the snapshot holds under it
    the detail of the last record that passed the hit-count filter: the
    source and the target of the last record with a hit count above 0 whose
    six identity fields make the key.  The filter is applied record by
    record: a record with a hit count of 0 or less, or none, that follows
    changes nothing. *)
Theorem load_edges_last_write_wins (edges : list json) :
  Forall record_ok edges ->
  exists covered_edges,
    load_edge_list edges = Ok covered_edges
    /\ is_dict covered_edges
    /\ (forall k d,
          dict_get EdgeKey_eqb covered_edges k = Some d <-> last_stored edges k d)
    /\ (forall edge, not_hit edge ->
          load_edge_list (edges ++ [edge]) = Ok covered_edges)
    /\ (forall data, report_edges data edges -> load_edges data = Ok covered_edges).
Proof.
  intros Hok.
  assert (Hwf : Forall well_formed edges).
  { eapply Forall_impl; [|exact Hok]; exact record_ok_well_formed. }
  destruct (well_formed_loads edges Hwf []) as [s Hs].
  change (load_edge_list edges = Ok s) in Hs.
  exists s; split; [exact Hs|].
  destruct (load_edge_list_lookup edges s Hs) as [Hdict Hget].
  split; [exact Hdict|]; split.
  { intros k d; rewrite last_stored_last_loaded; apply Hget. }
  split.
  - intros edge Hno; rewrite load_edge_list_snoc, Hs; simpl.
    apply load_edge_uncovered, not_hit_uncovered; assumption.
  - intros data Hdata; unfold load_edges.
    rewrite (report_edges_records data edges Hdata); exact Hs.
Qed.

Ltac is_hit :=
  do 3 eexists; split; [reflexivity|];
  split; [reflexivity|split; reflexivity].

Ltac has_identity :=
  do 3 eexists; repeat (split; [reflexivity|]); reflexivity.

Ltac stored :=
  right; do 2 eexists; split; [is_hit|];
  do 8 eexists; split; [reflexivity|];
  split; [reflexivity|];
  split; [has_identity|];
  split; [has_identity|];
  split; reflexivity.

Lemma repeated_edges_ok : Forall record_ok repeated_edges.
Proof.
  unfold repeated_edges.
  constructor; [stored|].
  constructor; [stored|].
  constructor; [|constructor].
  left; eexists; split; [reflexivity|right].
  exists (JInt 0), (inject_Z 0); repeat split; discriminate.
Qed.

Lemma load_edges_last_write_wins_witness :
  exists covered_edges,
    load_edge_list repeated_edges = Ok covered_edges
    /\ is_dict covered_edges
    /\ (forall k d,
          dict_get EdgeKey_eqb covered_edges k = Some d
          <-> last_stored repeated_edges k d)
    /\ (forall edge, not_hit edge ->
          load_edge_list (repeated_edges ++ [edge]) = Ok covered_edges)
    /\ (forall data, report_edges data repeated_edges ->
          load_edges data = Ok covered_edges).
Proof.
  exact (load_edges_last_write_wins repeated_edges repeated_edges_ok).
Defined.

Example repeated_edges_snapshot :
  load_edge_list repeated_edges
  = Ok [(key_of "S1" "/a" "GET" "S2" "/b" "POST", detail s1_a s2_b')].
Proof. vm_compute; reflexivity. Qed.

(** C7. A [KeyError] for a missing identity field comes from a record with a
    hit count above 0 only.  A record without a hit count, or with one of 0
    or less, is stepped over whatever else it holds or lacks; when the loop
    raises [KeyError], a record that passed the filter lacks a field of its
    key, and such a record does raise it. *)
Theorem key_error_only_from_hit_edges :
  (forall edge covered_edges,
     not_hit edge -> load_edge covered_edges edge = Ok covered_edges)
  /\ (forall edges,
        load_edge_list edges = Raise KeyError ->
        exists pre edge post,
          edges = pre ++ edge :: post /\ hit edge /\ edge_key edge = Raise KeyError)
  /\ (forall pre edge post covered_edges,
        load_edge_list pre = Ok covered_edges ->
        hit edge -> edge_key edge = Raise KeyError ->
        load_edge_list (pre ++ edge :: post) = Raise KeyError).
Proof.
  split; [|split].
  - intros edge s Hno; apply load_edge_uncovered, not_hit_uncovered; assumption.
  - unfold load_edge_list; generalize (@nil (EdgeKey * json)) as s.
    intros s edges; revert s.
    induction edges as [|e edges IH]; intros s H; simpl in H; [discriminate|].
    apply bind_Raise in H as [H|[s' [_ H]]].
    + apply load_edge_KeyError in H as [Hh Hk].
      exists [], e, edges; auto.
    + destruct (IH s' H) as [pre [edge [post [-> [Hh Hk]]]]].
      exists (e :: pre), edge, post; auto.
  - intros pre edge post s Hpre Hh Hk.
    unfold load_edge_list in *; rewrite for_each_app, Hpre; simpl.
    unfold load_edge; apply covered_true_hit in Hh; rewrite Hh; simpl.
    rewrite Hk; reflexivity.
Qed.

Lemma key_error_only_from_hit_edges_witness :
  load_edge [] edge_without_target = Ok []
  /\ exists pre edge post,
       [edge_without_target; edge_without_service] = pre ++ edge :: post
       /\ hit edge /\ edge_key edge = Raise KeyError.
Proof.
  split.
  - exact (proj1 key_error_only_from_hit_edges edge_without_target []
             edge_without_target_not_hit).
  - apply (proj1 (proj2 key_error_only_from_hit_edges)).
    vm_compute; reflexivity.
Defined.

(** ** [extract_test_scenarios] *)

Section Matcher.
Implicit Types (k : matcher) (s g : string) (gs : list string).

Lemma m_lit_inv text k s gs :
  m_lit text k s = Some gs -> exists s', k s' = Some gs.
Proof.
  unfold m_lit; destruct (strip_literal text s) as [s'|]; [eauto|discriminate].
Qed.

Lemma m_lazy_any_inv k s gs :
  m_lazy_any k s = Some gs -> exists s', k s' = Some gs.
Proof.
  induction s as [|c s IH]; simpl.
  - destruct (k EmptyString) eqn:E; [intros [= <-]; eauto|discriminate].
  - destruct (k (String c s)) eqn:E; [intros [= <-]; eauto|].
    destruct (not_newline c); [exact IH|discriminate].
Qed.

Lemma m_plus_inv cls k s g gs :
  m_plus cls k s = Some (g, gs) ->
  captured cls g /\ exists s', k s' = Some gs.
Proof.
  revert g gs; induction s as [|c s IH]; simpl; intros g gs; [discriminate|].
  destruct (cls c) eqn:Ec; [|discriminate].
  destruct (m_plus cls k s) as [[g' gs']|] eqn:E.
  - intros [= <- <-]; destruct (IH g' gs' eq_refl) as [[_ Hall] Hk].
    split; [split; [discriminate|simpl; rewrite Ec; exact Hall]|exact Hk].
  - destruct (k s) eqn:Ek; [|discriminate].
    intros [= <- <-]; split; [split; [discriminate|simpl; rewrite Ec; reflexivity]|eauto].
Qed.

Lemma m_group_inv cls k s gs :
  m_group cls k s = Some gs ->
  exists g gs' s', gs = g :: gs' /\ captured cls g /\ k s' = Some gs'.
Proof.
  unfold m_group; destruct (m_plus cls k s) as [[g gs']|] eqn:E; [|discriminate].
  intros [= <-]; destruct (m_plus_inv cls k s g gs' E) as [Hc [s' Hk]].
  exists g, gs', s'; auto.
Qed.

Lemma search_inv k s gs : search k s = Some gs -> exists s', k s' = Some gs.
Proof.
  induction s as [|c s IH]; simpl.
  - destruct (k EmptyString) eqn:E; [intros [= <-]; eauto|discriminate].
  - destruct (k (String c s)) eqn:E; [intros [= <-]; eauto|exact IH].
Qed.

(** A match of the pattern has its four groups, each in its class. *)
Lemma pattern_groups s gs :
  search (compile pattern) s = Some gs ->
  exists g1 g2 g3 g4,
    gs = [g1; g2; g3; g4]
    /\ captured (ignorecase hex_or_dash) g1
    /\ captured (ignorecase is_digit) g2
    /\ captured (ignorecase digit_or_dot) g3
    /\ captured (ignorecase is_digit) g4.
Proof.
  intros H; apply search_inv in H as [s0 H]; unfold pattern in H; simpl in H.
  apply m_lit_inv in H as [s1 H]; apply m_lazy_any_inv in H as [s2 H].
  apply m_lit_inv in H as [s3 H].
  apply m_group_inv in H as [g1 [r1 [s4 [-> [H1 H]]]]].
  apply m_lazy_any_inv in H as [s5 H]; apply m_lit_inv in H as [s6 H].
  apply m_group_inv in H as [g2 [r2 [s7 [-> [H2 H]]]]].
  apply m_lazy_any_inv in H as [s8 H]; apply m_lit_inv in H as [s9 H].
  apply m_group_inv in H as [g3 [r3 [s10 [-> [H3 H]]]]].
  apply m_lazy_any_inv in H as [s11 H]; apply m_lit_inv in H as [s12 H].
  apply m_group_inv in H as [g4 [r4 [s13 [-> [H4 H]]]]].
  injection H as <-; exists g1, g2, g3, g4; auto.
Qed.

End Matcher.

Section ExtractTestScenarios.
Variable max_str_digits : nat.
Implicit Types (log : string) (logs : list string) (test_data : list scenario).

Lemma scan_line_scenario_of test_data log :
  scan_line max_str_digits test_data log
  = match search (compile pattern) log with
    | Some m => r <- scenario_of max_str_digits m ;; Ok (test_data ++ [r])
    | None => Ok test_data
    end.
Proof.
  unfold scan_line, scenario_of.
  destruct (search (compile pattern) log) as [m|]; [|reflexivity].
  repeat match goal with
         | |- context [bind ?x _] => destruct x; simpl; try reflexivity
         end.
Qed.

Lemma scan_line_converts test_data log :
  line_converts max_str_digits log ->
  scan_line max_str_digits test_data log
  = Ok (test_data ++ match record_of max_str_digits log with
                     | Some r => [r]
                     | None => []
                     end).
Proof.
  intros Hc; rewrite scan_line_scenario_of; unfold record_of.
  unfold line_converts in Hc.
  destruct (search (compile pattern) log) as [m|] eqn:E.
  - destruct (Hc m eq_refl) as [r ->]; reflexivity.
  - rewrite app_nil_r; reflexivity.
Qed.

Lemma scan_lines_convert logs :
  Forall (line_converts max_str_digits) logs ->
  forall test_data,
    for_each (scan_line max_str_digits) logs test_data
    = Ok (test_data ++ records_of max_str_digits logs).
Proof.
  induction 1 as [|log logs Hc _ IH]; intros test_data; simpl.
  - rewrite app_nil_r; reflexivity.
  - rewrite (scan_line_converts test_data log Hc); simpl.
    rewrite IH, <- app_assoc; reflexivity.
Qed.

Lemma record_of_cases log :
  line_converts max_str_digits log ->
  (matches log = true /\ exists r, record_of max_str_digits log = Some r)
  \/ (matches log = false /\ record_of max_str_digits log = None).
Proof.
  unfold line_converts, matches, record_of; intros Hc.
  destruct (search (compile pattern) log) as [m|]; [left|right; auto].
  destruct (Hc m eq_refl) as [r ->]; eauto.
Qed.

Lemma records_of_matching logs :
  Forall (line_converts max_str_digits) logs ->
  map Some (records_of max_str_digits logs)
  = map (record_of max_str_digits) (filter matches logs).
Proof.
  induction 1 as [|log logs Hc _ IH]; simpl; [reflexivity|].
  rewrite map_app, IH.
  destruct (record_of_cases log Hc) as [[-> [r Hr]]|[-> Hr]]; simpl;
    rewrite Hr; reflexivity.
Qed.

Lemma filter_matches_converts logs :
  Forall (line_converts max_str_digits) logs ->
  Forall (line_converts max_str_digits) (filter matches logs).
Proof.
  induction 1 as [|log logs Hc _ IH]; simpl; [constructor|].
  destruct (matches log); [constructor; assumption|assumption].
Qed.

Lemma records_of_filter logs :
  records_of max_str_digits (filter matches logs) = records_of max_str_digits logs.
Proof.
  induction logs as [|log logs IH]; simpl; [reflexivity|].
  destruct (matches log) eqn:Em; simpl; [rewrite IH; reflexivity|].
  rewrite IH; unfold matches in Em; unfold record_of.
  destruct (search (compile pattern) log); [discriminate|reflexivity].
Qed.

Lemma scan_line_raises (pre post : list string) log m e :
  Forall (line_converts max_str_digits) pre ->
  search (compile pattern) log = Some m ->
  scenario_of max_str_digits m = Raise e ->
  extract_test_scenarios max_str_digits (pre ++ log :: post) = Raise e.
Proof.
  intros Hpre Hm He; unfold extract_test_scenarios.
  rewrite for_each_app, (scan_lines_convert pre Hpre); simpl.
  rewrite scan_line_scenario_of, Hm, He; reflexivity.
Qed.

End ExtractTestScenarios.

(** ** The captured text and its conversion *)

Section Conversions.
Implicit Types (s g : string) (c : ascii).

Lemma ignorecase_is_digit c : ignorecase is_digit c = is_digit c.
Proof. destruct c as [[] [] [] [] [] [] [] []]; reflexivity. Qed.

Lemma ignorecase_digit_or_dot c : ignorecase digit_or_dot c = digit_or_dot c.
Proof. destruct c as [[] [] [] [] [] [] [] []]; reflexivity. Qed.

Lemma all_in_ext (f h : ascii -> bool) s :
  (forall c, f c = h c) -> all_in f s = all_in h s.
Proof. intros E; induction s as [|c s IH]; simpl; [|rewrite E, IH]; reflexivity. Qed.

Lemma all_digits_all_in s : all_digits s = all_in is_digit s.
Proof. induction s as [|c s IH]; simpl; [|rewrite IH]; reflexivity. Qed.

Lemma eqb_empty s : String.eqb s "" = true <-> String.length s = O.
Proof. destruct s; simpl; split; congruence. Qed.

Lemma captured_digits g :
  captured (ignorecase is_digit) g ->
  all_digits g = true /\ String.eqb g "" = false.
Proof.
  intros [Hne Hall]; split.
  - rewrite all_digits_all_in, <- Hall; symmetry.
    apply all_in_ext, ignorecase_is_digit.
  - destruct g; [contradiction|reflexivity].
Qed.

Lemma py_int_captured (max_str_digits : nat) g :
  captured (ignorecase is_digit) g ->
  py_int max_str_digits g
  = if too_many_digits max_str_digits g then Raise ValueError
    else Ok (decimal 0 g).
Proof.
  intros H; apply captured_digits in H as [Hd Hne].
  unfold py_int; rewrite Hd, Hne; reflexivity.
Qed.

Lemma digits_count s : all_digits s = true -> count is_digit s = String.length s.
Proof.
  induction s as [|c s IH]; simpl; [reflexivity|].
  intros H; apply andb_true_iff in H as [-> H]; rewrite IH by assumption; reflexivity.
Qed.

Lemma digits_no_dot s : all_digits s = true -> count is_dot s = O.
Proof.
  induction s as [|c s IH]; simpl; [reflexivity|].
  intros H; apply andb_true_iff in H as [Hc H]; rewrite IH by assumption.
  replace (is_dot c) with false; [reflexivity|].
  destruct c as [[] [] [] [] [] [] [] []]; try reflexivity; discriminate Hc.
Qed.

Lemma no_dot_digits s :
  all_in digit_or_dot s = true -> count is_dot s = O -> all_digits s = true.
Proof.
  induction s as [|c s IH]; simpl; [reflexivity|].
  intros H Hz; apply andb_true_iff in H as [Hc H].
  unfold digit_or_dot in Hc; fold (is_dot c) in Hc.
  destruct (is_dot c); [discriminate|].
  rewrite orb_false_r in Hc; rewrite Hc, IH; auto.
Qed.

(** What [split_dot] returns on digits and dots. *)
Lemma split_dot_spec s :
  all_in digit_or_dot s = true ->
  match split_dot s with
  | (whole, None) => whole = s /\ all_digits s = true
  | (whole, Some frac) =>
      all_digits whole = true /\ all_in digit_or_dot frac = true
      /\ count is_dot s = S (count is_dot frac)
      /\ count is_digit s = (String.length whole + count is_digit frac)%nat
  end.
Proof.
  induction s as [|c s IH]; simpl; [auto|].
  intros H; apply andb_true_iff in H as [Hc H].
  change (Ascii.eqb c ".") with (is_dot c); destruct (is_dot c) eqn:Ed.
  - apply Ascii.eqb_eq in Ed; subst c; simpl; auto.
  - unfold digit_or_dot in Hc; fold (is_dot c) in Hc; rewrite Ed, orb_false_r in Hc.
    specialize (IH H); destruct (split_dot s) as [whole [frac|]]; simpl; rewrite Hc.
    + destruct IH as [Hw [Hf [Hdots Hdigits]]]; simpl.
      rewrite Hw, Hdots, Hdigits; auto.
    + destruct IH as [-> Hs]; rewrite Hs; auto.
Qed.

Lemma py_float_cases g :
  all_in digit_or_dot g = true ->
  py_float g = if decimal_text g then Ok (match py_float g with Ok q => q | Raise _ => 0%Q end)
               else Raise ValueError.
Proof.
  intros Hall; pose proof (split_dot_spec g Hall) as Hs.
  unfold py_float at 1 2, decimal_text.
  destruct (split_dot g) as [whole [frac|]].
  - destruct Hs as [Hw [Hf [Hdots Hdigits]]]; rewrite Hw, Hdots, Hdigits; simpl.
    destruct (all_digits frac) eqn:Ef.
    + rewrite (digits_no_dot frac Ef), (digits_count frac Ef); simpl.
      destruct whole, frac; reflexivity.
    + destruct (count is_dot frac) eqn:Ez; [|reflexivity].
      rewrite (no_dot_digits frac Hf Ez) in Ef; discriminate.
  - destruct Hs as [-> Hs]; rewrite Hs, (digits_no_dot g Hs), (digits_count g Hs); simpl.
    destruct g; reflexivity.
Qed.

Lemma py_float_captured g :
  captured (ignorecase digit_or_dot) g ->
  if decimal_text g then exists q, py_float g = Ok q
  else py_float g = Raise ValueError.
Proof.
  intros [_ Hall].
  rewrite (all_in_ext _ _ g ignorecase_digit_or_dot) in Hall.
  pose proof (py_float_cases g Hall) as H.
  destruct (decimal_text g); [eauto|assumption].
Qed.

(** On the groups of a match the conversions succeed exactly on parsable
    text, and fail with [ValueError] otherwise. *)
Lemma scenario_of_match (max_str_digits : nat) (log : string) (m : list string) :
  search (compile pattern) log = Some m ->
  if parsable max_str_digits m then exists r, scenario_of max_str_digits m = Ok r
  else scenario_of max_str_digits m = Raise ValueError.
Proof.
  intros H; apply pattern_groups in H as [g1 [g2 [g3 [g4 [-> [_ [H2 [H3 H4]]]]]]]].
  unfold parsable, scenario_of; simpl.
  rewrite (py_int_captured max_str_digits g2 H2), (py_int_captured max_str_digits g4 H4).
  pose proof (py_float_captured g3 H3) as Hf.
  destruct (too_many_digits max_str_digits g2); simpl; [reflexivity|].
  destruct (decimal_text g3); simpl.
  - destruct Hf as [q ->]; simpl.
    destruct (too_many_digits max_str_digits g4); simpl; [reflexivity|eauto].
  - rewrite Hf; reflexivity.
Qed.

Lemma line_parsable_converts (max_str_digits : nat) (log : string) :
  line_parsable max_str_digits log = true -> line_converts max_str_digits log.
Proof.
  unfold line_parsable, line_converts; intros H m Hm; rewrite Hm in H.
  pose proof (scenario_of_match max_str_digits log m Hm) as Hs.
  rewrite H in Hs; exact Hs.
Qed.

Lemma lines_parsable_convert (max_str_digits : nat) (logs : list string) :
  Forall (fun log => line_parsable max_str_digits log = true) logs ->
  Forall (line_converts max_str_digits) logs.
Proof.
  intros H; eapply Forall_impl; [|exact H].
  intros log; apply line_parsable_converts.
Qed.

Lemma line_unparsable_raises (max_str_digits : nat) (log : string) :
  line_parsable max_str_digits log = false ->
  exists m, search (compile pattern) log = Some m
            /\ scenario_of max_str_digits m = Raise ValueError.
Proof.
  unfold line_parsable; intros H.
  destruct (search (compile pattern) log) as [m|] eqn:Hm; [|discriminate].
  pose proof (scenario_of_match max_str_digits log m Hm) as Hs.
  rewrite H in Hs; eauto.
Qed.

(** The lines up to the first that is not parsable, if there is one. *)
Lemma first_unparsable (max_str_digits : nat) (logs : list string) :
  Forall (fun log => line_parsable max_str_digits log = true) logs
  \/ exists pre bad post,
       logs = pre ++ bad :: post
       /\ Forall (fun log => line_parsable max_str_digits log = true) pre
       /\ line_parsable max_str_digits bad = false.
Proof.
  induction logs as [|log logs IH]; [left; constructor|].
  destruct (line_parsable max_str_digits log) eqn:E.
  - destruct IH as [IH|[pre [bad [post [-> [Hpre Hbad]]]]]].
    + left; constructor; assumption.
    + right; exists (log :: pre), bad, post; repeat split; auto.
  - right; exists [], log, logs; repeat split; auto.
Qed.

End Conversions.

(** The scenario of the specification. *)
Example record1_parses :
  extract_test_scenarios 4300 [record1] = Ok [("abc-123", 42%Z, 75 # 100, 5%Z)].
Proof. vm_compute; reflexivity. Qed.

(** C3, as stated, fails: the second line has every labeled field, its edge
    coverage [0.7.5] is captured and is no number, and [float] raises
    [ValueError] out of the loop; the records of the first and third lines
    are not returned. *)
Lemma malformed_line_aborts_parse :
  search (compile pattern) two_dots = Some ["abc-125"; "43"; "0.7.5"; "5"]
  /\ py_float "0.7.5" = Raise ValueError
  /\ extract_test_scenarios 4300 [record1] = Ok [("abc-123", 42%Z, 75 # 100, 5%Z)]
  /\ extract_test_scenarios 4300 [record1; two_dots; record2] = Raise ValueError.
Proof. repeat split; vm_compute; reflexivity. Qed.

(** C3, amended. A line that does not match, or that matches with parsable
    numbers, never aborts the parse.  A matching line whose edge coverage is
    not digits with at most one dot, or whose counts have more digits than
    [int] converts, raises [ValueError]; the exception leaves the loop and no
    record is returned.  This is the only way the parse fails. *)
Theorem parse_aborts_on_unparsable_line_only (max_str_digits : nat) (logs : list string) :
  (Forall (fun log => line_parsable max_str_digits log = true) logs ->
   exists test_data, extract_test_scenarios max_str_digits logs = Ok test_data)
  /\ (forall pre bad post,
        logs = pre ++ bad :: post ->
        Forall (fun log => line_parsable max_str_digits log = true) pre ->
        line_parsable max_str_digits bad = false ->
        extract_test_scenarios max_str_digits logs = Raise ValueError)
  /\ (forall e,
        extract_test_scenarios max_str_digits logs = Raise e ->
        e = ValueError
        /\ exists bad, In bad logs /\ line_parsable max_str_digits bad = false).
Proof.
  assert (Hok : Forall (fun log => line_parsable max_str_digits log = true) logs ->
                exists test_data, extract_test_scenarios max_str_digits logs = Ok test_data).
  { intros H; eexists; unfold extract_test_scenarios.
    apply scan_lines_convert, lines_parsable_convert, H. }
  assert (Hbad : forall pre bad post,
             logs = pre ++ bad :: post ->
             Forall (fun log => line_parsable max_str_digits log = true) pre ->
             line_parsable max_str_digits bad = false ->
             extract_test_scenarios max_str_digits logs = Raise ValueError).
  { intros pre bad post -> Hpre Hb.
    destruct (line_unparsable_raises max_str_digits bad Hb) as [m [Hm He]].
    eapply scan_line_raises; eauto using lines_parsable_convert. }
  split; [exact Hok|split; [exact Hbad|]].
  intros e He.
  destruct (first_unparsable max_str_digits logs) as [Hall|[pre [bad [post [E [Hpre Hb]]]]]].
  - destruct (Hok Hall) as [test_data Ht]; congruence.
  - rewrite (Hbad pre bad post E Hpre Hb) in He; injection He as <-.
    split; [reflexivity|]; exists bad; split; [subst logs; apply in_elt|assumption].
Qed.

Lemma parse_aborts_on_unparsable_line_only_witness :
  (exists test_data,
      extract_test_scenarios 4300 [record1; noise; record2] = Ok test_data)
  /\ extract_test_scenarios 4300 [record1; noise; full_stop; record2] = Raise ValueError.
Proof.
  split.
  - apply (proj1 (parse_aborts_on_unparsable_line_only 4300 [record1; noise; record2])).
    repeat constructor; vm_compute; reflexivity.
  - apply (proj1 (proj2 (parse_aborts_on_unparsable_line_only 4300
                           [record1; noise; full_stop; record2]))
             [record1; noise] full_stop [record2]).
    + reflexivity.
    + repeat constructor; vm_compute; reflexivity.
    + vm_compute; reflexivity.
Defined.

(** C6, as stated, fails: the second line matches the pattern (after the
    edge coverage a full stop ends the sentence, and the class takes it into
    the number), and the parser returns no record at all. *)
Lemma matching_line_without_record :
  matches record1 = true /\ matches full_stop = true
  /\ search (compile pattern) full_stop = Some ["abc-126"; "43"; "0.75."; "5"]
  /\ extract_test_scenarios 4300 [record1; full_stop] = Raise ValueError.
Proof. repeat split; vm_compute; reflexivity. Qed.

(** C6, amended. When the numbers of every matching line are parsable, the
    parser returns one record for each line that matches, in the order of
    the lines, and leaves out the lines that do not match, without error. *)
Theorem one_record_per_matching_line (max_str_digits : nat) (logs : list string) :
  Forall (fun log => line_parsable max_str_digits log = true) logs ->
  exists test_data,
    extract_test_scenarios max_str_digits logs = Ok test_data
    /\ map Some test_data = map (record_of max_str_digits) (filter matches logs)
    /\ List.length test_data = List.length (filter matches logs)
    /\ extract_test_scenarios max_str_digits (filter matches logs) = Ok test_data.
Proof.
  intros H; apply lines_parsable_convert in H.
  exists (records_of max_str_digits logs).
  assert (Hmap := records_of_matching max_str_digits logs H).
  split; [apply (scan_lines_convert max_str_digits logs H [])|].
  split; [exact Hmap|split].
  - rewrite <- (length_map Some), Hmap, length_map; reflexivity.
  - unfold extract_test_scenarios.
    rewrite (scan_lines_convert max_str_digits _
               (filter_matches_converts max_str_digits logs H)).
    rewrite records_of_filter; reflexivity.
Qed.

Lemma one_record_per_matching_line_witness :
  exists test_data,
    extract_test_scenarios 4300 [noise; record1; noise; noise; record2; noise]
    = Ok test_data
    /\ map Some test_data
       = map (record_of 4300) (filter matches [noise; record1; noise; noise; record2; noise])
    /\ List.length test_data
       = List.length (filter matches [noise; record1; noise; noise; record2; noise])
    /\ extract_test_scenarios 4300
         (filter matches [noise; record1; noise; noise; record2; noise])
       = Ok test_data.
Proof.
  apply one_record_per_matching_line.
  repeat constructor; vm_compute; reflexivity.
Defined.

(** The records come out in the order of the lines. *)
Example records_in_log_order :
  extract_test_scenarios 4300 [noise; record1; noise; noise; record2; noise]
  = Ok [("abc-123", 42%Z, 75 # 100, 5%Z); ("abc-124", 44%Z, 8 # 10, 6%Z)].
Proof. vm_compute; reflexivity. Qed.

(** ** [main] *)

(** The series [plot_graphs] draws are those of lines 53-56. *)
Lemma plot_graphs_series (raises : list pyplot -> pyplot -> option exc)
    (test_data : list scenario) (output_prefix : string) (fig : figure) :
  plot_graphs raises test_data output_prefix = Ok fig ->
  fig = {| x := seq 1 (List.length test_data);
           edge_covered_counts := map (fun data => snd (fst (fst data))) test_data;
           edge_coverages := map (fun data => snd (fst data)) test_data;
           status_code_counts := map (fun data => snd data) test_data |}.
Proof.
  unfold plot_graphs; intros H.
  bind_ok H p1 E1; bind_ok H p2 E2; bind_ok H p3 E3.
  injection H as <-; reflexivity.
Qed.

(** C9. With no scenario record in the log, [main] draws nothing and prints
    [No relevant logs found.]; [plot_graphs] is called with one record at
    least, so the series it draws are never empty. *)
Theorem main_reports_no_data (raises : list pyplot -> pyplot -> option exc)
    (max_str_digits : nat) (logs : list string) :
  (extract_test_scenarios max_str_digits logs = Ok [] ->
   main raises max_str_digits logs = Ok (None, "No relevant logs found."))
  /\ (forall fig line,
        main raises max_str_digits logs = Ok (Some fig, line) ->
        exists test_data,
          extract_test_scenarios max_str_digits logs = Ok test_data
          /\ test_data <> []
          /\ plot_graphs raises test_data "test_analysis" = Ok fig
          /\ x fig = seq 1 (List.length test_data)
          /\ (0 < List.length (x fig))%nat).
Proof.
  unfold main; split.
  - intros ->; reflexivity.
  - intros fig line H.
    destruct (extract_test_scenarios max_str_digits logs) as [[|r test_data]|];
      cbn [bind] in H; try discriminate.
    destruct (plot_graphs raises (r :: test_data) "test_analysis") as [fig'|] eqn:E;
      cbn [bind] in H; [|discriminate].
    injection H as <- <-; exists (r :: test_data).
    split; [reflexivity|split; [discriminate|split; [exact E|]]].
    apply plot_graphs_series in E; subst fig'.
    split; [reflexivity|simpl; apply Nat.lt_0_succ].
Qed.

Lemma main_reports_no_data_witness :
  main (fun _ _ => None) 4300 [noise; noise] = Ok (None, "No relevant logs found.").
Proof.
  apply (proj1 (main_reports_no_data (fun _ _ => None) 4300 [noise; noise])).
  vm_compute; reflexivity.
Defined.

(** ** [extract_valid_samples] *)

Section ValidSamples.
Implicit Types (c : hval) (valid entry param_name : json).

Lemma hval_eqb_eq c c' : hval_eqb c c' = true <-> c = c'.
Proof. unfold hval_eqb; destruct (hval_eq_dec c c'); split; congruence. Qed.

Lemma seen_set_add c c' (s : list hval) :
  seen c (set_add c' s) = true -> c = c' \/ seen c s = true.
Proof.
  unfold set_add; destruct (seen c' s); [auto|].
  unfold seen; simpl; intros H; apply orb_true_iff in H as [H|H]; [|auto].
  left; apply hval_eqb_eq; assumption.
Qed.

Lemma has_category_functional valid c c' :
  has_category valid c -> has_category valid c' -> c = c'.
Proof. intros [x [Hx Hc]] [y [Hy Hc']]; congruence. Qed.

Lemma get_is_dict valid key default (v : json) :
  get valid key default = Ok v -> exists o, valid = JObj o.
Proof. destruct valid; simpl; try discriminate; eauto. Qed.

(** An item without samples is stepped over, and its category is not marked
    as seen. *)
Lemma visit_valid_no_samples param_name valid c (st : list hval * list json) :
  has_category valid c -> has_samples valid [] ->
  visit_valid param_name st valid = Ok st.
Proof.
  intros [category [Hg Hh]] Hs; destruct st as [seen_categories output].
  unfold visit_valid, has_samples in *; rewrite Hg, Hs; simpl; rewrite Hh; simpl.
  rewrite andb_false_r; reflexivity.
Qed.

Lemma visit_valid_first_sample param_name valid c first rest
    (seen_categories : list hval) (output : list json) :
  has_category valid c -> has_samples valid (first :: rest) ->
  visit_valid param_name (seen_categories, output) valid
  = if seen c seen_categories then Ok (seen_categories, output)
    else Ok (set_add c seen_categories, output ++ [sample param_name first]).
Proof.
  intros [category [Hg Hh]] Hs.
  unfold visit_valid, has_samples in *; rewrite Hg, Hs; simpl; rewrite Hh; simpl.
  destruct (seen c seen_categories); reflexivity.
Qed.

(** The inner loop on plain items: it returns, it only adds to the output,
    and a category it marks has an item with samples. *)
Lemma visit_valids_plain param_name (valids : list json) :
  Forall plain_item valids ->
  forall seen_categories output,
  exists seen' added,
    for_each (visit_valid param_name) valids (seen_categories, output)
    = Ok (seen', output ++ added)
    /\ forall c, seen c seen' = true ->
         seen c seen_categories = true
         \/ exists valid first rest,
              In valid valids /\ has_category valid c
              /\ has_samples valid (first :: rest).
Proof.
  induction 1 as [|valid valids [[c Hc] [l Hl]] _ IH]; intros seen0 output;
    cbn [for_each].
  - exists seen0, []; rewrite app_nil_r; auto.
  - destruct l as [|first rest].
    + rewrite (visit_valid_no_samples _ valid c _ Hc Hl); simpl.
      destruct (IH seen0 output) as [seen' [added [E Hseen]]].
      exists seen', added; split; [exact E|].
      intros c' H'; destruct (Hseen c' H') as [?|[w [a [r [Hin Hw]]]]]; [auto|].
      right; exists w, a, r; auto.
    + rewrite (visit_valid_first_sample _ valid c first rest _ _ Hc Hl).
      destruct (seen c seen0) eqn:Es; simpl.
      * destruct (IH seen0 output) as [seen' [added [E Hseen]]].
        exists seen', added; split; [exact E|].
        intros c' H'; destruct (Hseen c' H') as [?|[w [a [r [Hin Hw]]]]]; [auto|].
        right; exists w, a, r; auto.
      * destruct (IH (set_add c seen0) (output ++ [sample param_name first]))
          as [seen' [added [E Hseen]]].
        exists seen', ([sample param_name first] ++ added).
        split; [rewrite E, <- app_assoc; reflexivity|].
        intros c' H'; destruct (Hseen c' H') as [Hs|[w [a [r [Hin Hw]]]]].
        -- apply seen_set_add in Hs as [->|Hs]; [|auto].
           right; exists valid, first, rest; auto.
        -- right; exists w, a, r; auto.
Qed.

(** The inner loop reaches an item with samples before any other item of
    its category had some: the first sample of the item is added. *)
Lemma first_sample_added param_name (pre post : list json) valid c first rest
    (output : list json) :
  Forall plain_item (pre ++ valid :: post) ->
  has_category valid c -> has_samples valid (first :: rest) ->
  (forall w, In w pre -> has_category w c -> has_samples w []) ->
  exists seen' before after,
    for_each (visit_valid param_name) (pre ++ valid :: post) ([], output)
    = Ok (seen', output ++ before ++ sample param_name first :: after).
Proof.
  intros Hplain Hc Hs Hpre.
  apply Forall_app in Hplain as [Hp1 Hp2]; inversion Hp2 as [|? ? _ Hp3]; subst.
  destruct (visit_valids_plain param_name pre Hp1 [] output) as [seen1 [before [E1 Hseen1]]].
  assert (Hfresh : seen c seen1 = false).
  { destruct (seen c seen1) eqn:E; [|reflexivity].
    destruct (Hseen1 c E) as [Hnil|[w [a [r [Hin [Hwc Hws]]]]]]; [discriminate Hnil|].
    specialize (Hpre w Hin Hwc); unfold has_samples in *; congruence. }
  destruct (visit_valids_plain param_name post Hp3 (set_add c seen1)
              ((output ++ before) ++ [sample param_name first]))
    as [seen2 [after [E2 _]]].
  exists seen2, before, after.
  rewrite for_each_app, E1; cbn [bind for_each].
  rewrite (visit_valid_first_sample _ valid c first rest _ _ Hc Hs), Hfresh.
  cbn [bind]; rewrite E2, <- !app_assoc; reflexivity.
Qed.

Lemma visit_entry_plain entry (output : list json) :
  plain_entry entry ->
  exists added, visit_entry output entry = Ok (output ++ added).
Proof.
  intros [valids [Hv Hplain]].
  destruct (get_is_dict _ _ _ _ Hv) as [o ->].
  unfold visit_entry.
  assert (Hp : exists param_name, get (JObj o) "param_name" JNull = Ok param_name).
  { simpl; destruct (dict_get String.eqb o "param_name"); eauto. }
  destruct Hp as [param_name Hp]; rewrite Hp, Hv; simpl.
  destruct (visit_valids_plain param_name valids Hplain [] output) as [seen' [added [E _]]].
  rewrite E; simpl; eauto.
Qed.

Lemma visit_entries_plain (entries : list json) :
  Forall plain_entry entries ->
  forall output, exists added, for_each visit_entry entries output = Ok (output ++ added).
Proof.
  induction 1 as [|entry entries He _ IH]; intros output; simpl.
  - exists []; rewrite app_nil_r; reflexivity.
  - destruct (visit_entry_plain entry output He) as [a1 ->]; simpl.
    destruct (IH (output ++ a1)) as [a2 ->].
    exists (a1 ++ a2); rewrite app_assoc; reflexivity.
Qed.

End ValidSamples.

(** C10. An item of the valid list without samples, or with an empty list of
    them, is stepped over and its category is not marked as seen.  A later
    item of the category, in the same entry, that has samples, and that no
    item with samples of the category precedes, puts its first sample in the
    output under the parameter name of the entry. *)
Theorem later_item_of_category_contributes :
  (forall param_name valid c seen_categories output,
     has_category valid c -> has_samples valid [] ->
     visit_valid param_name (seen_categories, output) valid
     = Ok (seen_categories, output))
  /\ (forall entries_before entry entries_after param_name pre valid post c first rest,
        Forall plain_entry (entries_before ++ entry :: entries_after) ->
        get entry "param_name" JNull = Ok param_name ->
        get entry "valid" (JArr []) = Ok (JArr (pre ++ valid :: post)) ->
        has_category valid c -> has_samples valid (first :: rest) ->
        (forall w, In w pre -> has_category w c -> has_samples w []) ->
        exists output,
          collect_samples (JArr (entries_before ++ entry :: entries_after)) = Ok output
          /\ In (JObj [("name", param_name); ("value", first)]) output).
Proof.
  split.
  - intros param_name valid c seen_categories output Hc Hs.
    apply (visit_valid_no_samples param_name valid c _ Hc Hs).
  - intros before entry after param_name pre valid post c first rest
      Hplain Hp Hv Hc Hs Hpre.
    apply Forall_app in Hplain as [Hb Hrest]; inversion Hrest as [|? ? He Ha]; subst.
    destruct He as [valids [Hv' Hitems]].
    assert (valids = pre ++ valid :: post) by congruence; subst valids.
    unfold collect_samples; simpl; rewrite for_each_app.
    destruct (visit_entries_plain before Hb []) as [out1 E1]; rewrite E1; simpl.
    destruct (first_sample_added param_name pre post valid c first rest out1
                Hitems Hc Hs Hpre) as [seen' [added1 [added2 E2]]].
    unfold visit_entry at 1; rewrite Hp, Hv; simpl; rewrite E2; simpl.
    destruct (visit_entries_plain after Ha (out1 ++ added1 ++ sample param_name first :: added2))
      as [out3 E3].
    rewrite E3; eexists; split; [reflexivity|].
    rewrite !in_app_iff; left; right; right; left; reflexivity.
Qed.

(** With a sort that returns its items rearranged, the sample is in what
    [extract_valid_samples] hands to [json.dump]. *)
Lemma sorted_output_keeps_samples
    (sorted_by_name : list json -> result (list json)) (data : json)
    (output dumped : list json) (item : json) :
  (forall l l', sorted_by_name l = Ok l' -> Permutation l l') ->
  collect_samples data = Ok output -> In item output ->
  extract_valid_samples sorted_by_name data = Ok dumped ->
  In item dumped.
Proof.
  intros Hperm Hc Hin; unfold extract_valid_samples; rewrite Hc; simpl.
  intros Hs; eapply Permutation_in; [apply Hperm; exact Hs|assumption].
Qed.

Example order_entry_samples :
  collect_samples (JArr [order_entry])
  = Ok [JObj [("name", JStr "orderId"); ("value", JStr "abc-123-def")]].
Proof. vm_compute; reflexivity. Qed.

Ltac plain :=
  split; [eexists; eexists; split; vm_compute; reflexivity
         |eexists; vm_compute; reflexivity].

Lemma later_item_of_category_contributes_witness :
  exists output,
    collect_samples (JArr ([] ++ order_entry :: [])) = Ok output
    /\ In (JObj [("name", JStr "orderId"); ("value", JStr "abc-123-def")]) output.
Proof.
  apply (proj2 later_item_of_category_contributes [] order_entry [] (JStr "orderId")
           [valid_item "uuid" []; item_without_samples "uuid"]
           (valid_item "uuid" [JStr "abc-123-def"; JStr "abc-456"])
           [valid_item "uuid" [JStr "ffff"]]
           (HStr "uuid") (JStr "abc-123-def") [JStr "abc-456"]).
  - constructor; [|constructor].
    eexists; split; [vm_compute; reflexivity|].
    constructor; [plain|]. constructor; [plain|].
    constructor; [plain|]. constructor; [plain|constructor].
  - reflexivity.
  - reflexivity.
  - eexists; split; vm_compute; reflexivity.
  - vm_compute; reflexivity.
  - intros w [<-|[<-|[]]] _; vm_compute; reflexivity.
Defined.

(** ** From reports to lists *)

Lemma load_edges_is_dict (data : json) (covered_edges : snapshot) :
  load_edges data = Ok covered_edges -> is_dict covered_edges.
Proof.
  unfold load_edges; intros H; bind_ok H edges E.
  exact (proj1 (load_edge_list_lookup edges covered_edges H)).
Qed.

(** The two lists of [compare_coverage] on two reports that load. *)
Lemma compare_coverage_lists (set_iter : iteration_order) (file1 file2 : json)
    (A B : snapshot) :
  visits_each_once set_iter ->
  load_edges file1 = Ok A -> load_edges file2 = Ok B ->
  exists only_in_1 only_in_2,
    compare_coverage set_iter file1 file2 = Ok (only_in_1, only_in_2)
    /\ Permutation only_in_1 (details_only_in A B)
    /\ Permutation only_in_2 (details_only_in B A).
Proof.
  intros Hperm HA HB; unfold compare_coverage; rewrite HA, HB; simpl.
  destruct (only_in_values set_iter Hperm A B (load_edges_is_dict file1 A HA)) as [E1 P1].
  destruct (only_in_values set_iter Hperm B A (load_edges_is_dict file2 B HB)) as [E2 P2].
  do 2 eexists; unfold compare_covered; rewrite E1; simpl; rewrite E2; simpl; auto.
Qed.

(** Swapping the reports swaps the lists. *)
Lemma compare_covered_swap (set_iter : iteration_order) (A B : snapshot)
    (only_in_1 only_in_2 : list json) :
  compare_covered set_iter A B = Ok (only_in_1, only_in_2) ->
  compare_covered set_iter B A = Ok (only_in_2, only_in_1).
Proof.
  unfold compare_covered; intros H.
  bind_ok H l1 E1; bind_ok H l2 E2; injection H as <- <-.
  rewrite E2; simpl; rewrite E1; reflexivity.
Qed.

(** ** The model on sample values *)

(** A report without edges loads as the empty snapshot; a report without
    the graph does not load. *)
Example empty_report_loads : load_edges report4 = Ok [].
Proof. reflexivity. Qed.

Example report_without_graph : load_edges (JObj []) = Raise KeyError.
Proof. reflexivity. Qed.

(** [hitCount] may be any number; what is no number cannot be compared with
    0, and what is no dict has no [get]. *)
Example covered_float : covered (JObj [("hitCount", JFloat (1 # 2))]) = Ok true.
Proof. reflexivity. Qed.

Example covered_true : covered (JObj [("hitCount", JBool true)]) = Ok true.
Proof. reflexivity. Qed.

Example covered_null : covered (JObj [("hitCount", JNull)]) = Raise TypeError.
Proof. reflexivity. Qed.

Example covered_text : covered (JStr "edge") = Raise AttributeError.
Proof. reflexivity. Qed.

(** [1], [1.0] and [True] are one key; a list is none. *)
Example equal_numbers_one_key :
  hashable (JInt 1) = hashable (JFloat (2 # 2))
  /\ hashable (JInt 1) = hashable (JBool true)
  /\ hashable (JArr []) = Raise TypeError.
Proof. repeat split. Qed.

(** [float] on digits and dots. *)
Example float_texts :
  py_float "0.75" = Ok (75 # 100) /\ py_float "1." = Ok (1 # 1)
  /\ py_float ".5" = Ok (5 # 10) /\ py_float "12" = Ok (12 # 1)
  /\ py_float "." = Raise ValueError /\ py_float "1.2.3" = Raise ValueError.
Proof. repeat split. Qed.

(** The pattern is matched without regard to case and takes the first
    way through from the left. *)
Example search_backtracks :
  search (compile pattern)
    "finish EXECUTE current test scenario a UUID: zz UUID: AB-1 Edge covered count: 7 Edge coverage: 1 covered status code count: 20 30"
  = Some ["AB-1"; "7"; "1"; "20"].
Proof. vm_compute; reflexivity. Qed.

(* ================================================================== *)
(** * Further properties *)
(* ================================================================== *)

(** ** [compare_coverage]: errors, symmetry, sizes *)

Section CompareCoverageMore.
Variable set_iter : iteration_order.

Lemma compare_covered_returns (A B : snapshot) :
  visits_each_once set_iter -> is_dict A -> is_dict B ->
  exists only_in_1 only_in_2, compare_covered set_iter A B = Ok (only_in_1, only_in_2).
Proof.
  intros Hperm HA HB.
  destruct (only_in_values set_iter Hperm A B HA) as [E1 _].
  destruct (only_in_values set_iter Hperm B A HB) as [E2 _].
  do 2 eexists; unfold compare_covered; rewrite E1; simpl; rewrite E2; reflexivity.
Qed.

(** [compare_coverage] fails when a report fails to load, and only then: the
    error is that of the first report, or, when the first loads, that of the
    second.  Two reports that load always give the two lists. *)
Theorem compare_coverage_fails_with_load_edges (file1 file2 : json) :
  visits_each_once set_iter ->
  (forall e,
     compare_coverage set_iter file1 file2 = Raise e <->
     load_edges file1 = Raise e
     \/ ((exists A, load_edges file1 = Ok A) /\ load_edges file2 = Raise e))
  /\ ((exists A B, load_edges file1 = Ok A /\ load_edges file2 = Ok B) <->
      exists only_in_1 only_in_2,
        compare_coverage set_iter file1 file2 = Ok (only_in_1, only_in_2)).
Proof.
  intros Hperm; unfold compare_coverage.
  destruct (load_edges file1) as [A|e1] eqn:E1; simpl.
  - destruct (load_edges file2) as [B|e2] eqn:E2; simpl.
    + destruct (compare_covered_returns A B Hperm
                  (load_edges_is_dict file1 A E1) (load_edges_is_dict file2 B E2))
        as [l1 [l2 Hc]]; rewrite Hc.
      split.
      * intros e; split; [discriminate|].
        intros [H|[_ H]]; discriminate H.
      * split; eauto.
    + split.
      * intros e; split.
        -- intros [= ->]; right; eauto.
        -- intros [H|[_ H]]; [discriminate H|injection H as ->; reflexivity].
      * split; [intros [A' [B' [_ H]]]; discriminate H|intros [l1 [l2 H]]; discriminate H].
  - split.
    + intros e; split.
      * intros [= ->]; left; reflexivity.
      * intros [H|[[A' H] _]]; [injection H as ->; reflexivity|discriminate H].
    + split; [intros [A' [B' [H _]]]; discriminate H|intros [l1 [l2 H]]; discriminate H].
Qed.

(** Comparing the reports the other way round swaps the two lists. *)
Theorem compare_coverage_swap (file1 file2 : json) (only_in_1 only_in_2 : list json) :
  compare_coverage set_iter file1 file2 = Ok (only_in_1, only_in_2) ->
  compare_coverage set_iter file2 file1 = Ok (only_in_2, only_in_1).
Proof.
  unfold compare_coverage; intros H.
  bind_ok H A EA; bind_ok H B EB; rewrite EA, EB; simpl.
  unfold compare_covered in *.
  bind_ok H l1 E1; bind_ok H l2 E2; injection H as <- <-.
  rewrite E2; simpl; rewrite E1; reflexivity.
Qed.

End CompareCoverageMore.

Section SnapshotSizes.
Implicit Types (A B : snapshot) (k : EdgeKey) (d : json).

Lemma only_in_or_shared A B :
  (List.length (details_only_in A B) + List.length (shared_with A B))%nat = List.length A.
Proof.
  unfold details_only_in, shared_with; rewrite length_map.
  induction A as [|[k d] A IH]; simpl; [reflexivity|].
  destruct (in_dec EdgeKey_eq_dec k (dict_keys B)); simpl; lia.
Qed.

Lemma shared_with_keys A B k :
  In k (dict_keys (shared_with A B)) <-> In k (dict_keys A) /\ In k (dict_keys B).
Proof.
  unfold shared_with, dict_keys; rewrite (in_map_iff fst (filter _ A)); split.
  - intros [[k' d] [E Hin]]; cbn [fst] in E; subst k'.
    apply filter_In in Hin as [Hin Hb]; cbn [fst] in Hb.
    destruct (in_dec EdgeKey_eq_dec k (map fst B)) as [HB|]; [|discriminate Hb].
    split; [apply in_map_iff; exists (k, d); auto|exact HB].
  - intros [HA HB]; apply in_map_iff in HA as [[k' d] [E Hin]]; cbn [fst] in E; subst k'.
    exists (k, d); split; [reflexivity|].
    apply filter_In; split; [assumption|]; cbn [fst].
    destruct (in_dec EdgeKey_eq_dec k (map fst B)); [reflexivity|contradiction].
Qed.

Lemma filter_is_dict (p : EdgeKey * json -> bool) A : is_dict A -> is_dict (filter p A).
Proof.
  unfold is_dict, dict_keys; induction A as [|[k d] A IH]; simpl; intros H; [constructor|].
  inversion H as [|? ? Hnin Hnd]; subst.
  destruct (p (k, d)); simpl; [|auto].
  constructor; [|auto].
  intros Hin; apply Hnin; apply in_map_iff in Hin as [kv [E Hin]].
  apply filter_In in Hin as [Hin _]; apply in_map_iff; eauto.
Qed.

Lemma shared_with_length A B :
  is_dict A -> is_dict B ->
  List.length (shared_with A B) = List.length (shared_with B A).
Proof.
  intros HA HB.
  rewrite <- (length_map fst (shared_with A B)), <- (length_map fst (shared_with B A)).
  apply Permutation_length, NoDup_Permutation.
  - apply (filter_is_dict _ A HA).
  - apply (filter_is_dict _ B HB).
  - intros k; fold (dict_keys (shared_with A B)) (dict_keys (shared_with B A)).
    rewrite !shared_with_keys; tauto.
Qed.

Lemma edge_detail_key (edge : json) k d : loads_as edge k d -> detail_key d = Ok k.
Proof.
  intros [_ [rk [Hk [Hh Hd]]]]; unfold detail_key.
  unfold edge_detail in Hd; bind_ok Hd s Es; bind_ok Hd t Et; injection Hd as <-.
  assert (E : edge_key (JObj [("source", s); ("target", t)]) = edge_key edge).
  { unfold edge_key; cbn [getpath]; rewrite Es, Et; reflexivity. }
  rewrite E, Hk; exact Hh.
Qed.

Lemma loaded_entry_key (edges : list json) A k d :
  load_edge_list edges = Ok A -> In (k, d) A -> detail_key d = Ok k.
Proof.
  intros Hload Hin.
  destruct (load_edge_list_lookup edges A Hload) as [Hdict Hget].
  apply (dict_in_get A k d Hdict) in Hin; apply Hget in Hin.
  destruct Hin as [pre [edge [post [_ [Hl _]]]]].
  exact (edge_detail_key edge k d Hl).
Qed.

Lemma keyed_details_NoDup A :
  is_dict A -> (forall k d, In (k, d) A -> detail_key d = Ok k) -> NoDup (map snd A).
Proof.
  unfold is_dict, dict_keys; induction A as [|[k d] A IH]; simpl; intros Hnd Hkey;
    [constructor|].
  inversion Hnd as [|? ? Hnin Hnd']; subst; constructor.
  - intros Hin; apply in_map_iff in Hin as [[k' d'] [E Hin]]; simpl in E; subst d'.
    assert (k' = k).
    { pose proof (Hkey k' d (or_intror Hin)) as H1.
      pose proof (Hkey k d (or_introl eq_refl)) as H2; congruence. }
    subst k'; apply Hnin; apply in_map_iff; exists (k, d); auto.
  - apply IH; [assumption|intros; apply Hkey; right; assumption].
Qed.

Lemma details_only_in_entry A B d :
  In d (details_only_in A B) -> exists k, In (k, d) A /\ ~ In k (dict_keys B).
Proof.
  unfold details_only_in; intros Hin; apply in_map_iff in Hin as [[k d'] [E Hin]].
  simpl in E; subst d'; apply filter_In in Hin as [Hin Hb]; simpl in Hb.
  destruct (in_dec EdgeKey_eq_dec k (dict_keys B)); [discriminate|eauto].
Qed.

Lemma details_only_in_NoDup A B : NoDup (map snd A) -> NoDup (details_only_in A B).
Proof.
  unfold details_only_in; induction A as [|[k d] A IH]; simpl; intros H; [constructor|].
  inversion H as [|? ? Hnin Hnd]; subst.
  destruct (in_dec EdgeKey_eq_dec k (dict_keys B)); simpl; [auto|].
  constructor; [|auto].
  intros Hin; apply Hnin; apply in_map_iff in Hin as [kv [E Hin]].
  apply filter_In in Hin as [Hin _]; apply in_map_iff; eauto.
Qed.

End SnapshotSizes.

(** The edges of a report are those only it covers and those both cover: the
    first list is as much shorter than the first snapshot as the second list
    is shorter than the second snapshot. *)
Theorem compare_coverage_sizes (set_iter : iteration_order) (file1 file2 : json)
    (A B : snapshot) (only_in_1 only_in_2 : list json) :
  visits_each_once set_iter ->
  load_edges file1 = Ok A -> load_edges file2 = Ok B ->
  compare_coverage set_iter file1 file2 = Ok (only_in_1, only_in_2) ->
  (List.length only_in_1 + List.length (shared_with A B))%nat = List.length A
  /\ (List.length only_in_2 + List.length (shared_with A B))%nat = List.length B
  /\ (List.length A + List.length only_in_2)%nat
     = (List.length B + List.length only_in_1)%nat.
Proof.
  intros Hperm HA HB Hc.
  destruct (compare_coverage_lists set_iter file1 file2 A B Hperm HA HB)
    as [l1 [l2 [Hc' [P1 P2]]]].
  rewrite Hc in Hc'; injection Hc' as <- <-.
  apply Permutation_length in P1, P2.
  pose proof (only_in_or_shared A B) as SA.
  pose proof (only_in_or_shared B A) as SB.
  pose proof (shared_with_length A B (load_edges_is_dict _ _ HA) (load_edges_is_dict _ _ HB)).
  lia.
Qed.

Lemma compare_coverage_sizes_witness :
  (List.length [detail s1_a s2_b; detail s2_b s3_d] + List.length (shared_with snapshot3 []))%nat
  = List.length snapshot3
  /\ (List.length (@nil json) + List.length (shared_with snapshot3 []))%nat
     = List.length (@nil (EdgeKey * json))
  /\ (List.length snapshot3 + List.length (@nil json))%nat
     = (List.length (@nil (EdgeKey * json))
        + List.length [detail s1_a s2_b; detail s2_b s3_d])%nat.
Proof.
  apply (compare_coverage_sizes forwards report3 report4 snapshot3 []
           [detail s1_a s2_b; detail s2_b s3_d] []).
  - exact forwards_visits_each_once.
  - vm_compute; reflexivity.
  - vm_compute; reflexivity.
  - vm_compute; reflexivity.
Defined.

(** A loaded snapshot keeps each detail under the key read off the detail
    itself, so no detail is held twice. *)
Theorem loaded_snapshot_keyed_by_detail (data : json) (A : snapshot) :
  load_edges data = Ok A ->
  (forall k d, In (k, d) A -> detail_key d = Ok k)
  /\ NoDup (dict_keys A) /\ NoDup (map snd A).
Proof.
  intros H; pose proof (load_edges_is_dict data A H) as Hdict.
  unfold load_edges in H; bind_ok H edges E.
  assert (Hkey : forall k d, In (k, d) A -> detail_key d = Ok k)
    by (intros k d; apply (loaded_entry_key edges A k d H)).
  split; [exact Hkey|split; [exact Hdict|]].
  apply keyed_details_NoDup; assumption.
Qed.

Lemma loaded_snapshot_keyed_by_detail_witness :
  (forall k d, In (k, d) snapshot3 -> detail_key d = Ok k)
  /\ NoDup (dict_keys snapshot3) /\ NoDup (map snd snapshot3).
Proof.
  apply (loaded_snapshot_keyed_by_detail report3 snapshot3).
  vm_compute; reflexivity.
Defined.

(** No entry comes twice in a list of the diff, and none is in both lists. *)
Theorem compare_coverage_lists_distinct (set_iter : iteration_order)
    (file1 file2 : json) (only_in_1 only_in_2 : list json) :
  visits_each_once set_iter ->
  compare_coverage set_iter file1 file2 = Ok (only_in_1, only_in_2) ->
  NoDup only_in_1 /\ NoDup only_in_2
  /\ forall d, In d only_in_1 -> ~ In d only_in_2.
Proof.
  intros Hperm Hc.
  assert (Hc' := Hc); unfold compare_coverage in Hc'.
  bind_ok Hc' A HA; bind_ok Hc' B HB; clear Hc'.
  destruct (compare_coverage_lists set_iter file1 file2 A B Hperm HA HB)
    as [l1 [l2 [Hc' [P1 P2]]]].
  rewrite Hc in Hc'; injection Hc' as <- <-.
  assert (KA : forall k d, In (k, d) A -> detail_key d = Ok k).
  { unfold load_edges in HA; bind_ok HA edges E; intros k d.
    apply (loaded_entry_key edges A k d HA). }
  assert (KB : forall k d, In (k, d) B -> detail_key d = Ok k).
  { unfold load_edges in HB; bind_ok HB edges E; intros k d.
    apply (loaded_entry_key edges B k d HB). }
  pose proof (load_edges_is_dict _ _ HA) as DA.
  pose proof (load_edges_is_dict _ _ HB) as DB.
  split; [|split].
  - apply (Permutation_NoDup (Permutation_sym P1)), details_only_in_NoDup.
    apply keyed_details_NoDup; assumption.
  - apply (Permutation_NoDup (Permutation_sym P2)), details_only_in_NoDup.
    apply keyed_details_NoDup; assumption.
  - intros d H1 H2.
    apply (Permutation_in _ P1) in H1; apply (Permutation_in _ P2) in H2.
    apply details_only_in_entry in H1 as [k [Hk Hnot]].
    apply details_only_in_entry in H2 as [k' [Hk' _]].
    assert (k = k') by (pose proof (KA k d Hk); pose proof (KB k' d Hk'); congruence).
    subst k'; apply Hnot; unfold dict_keys; apply in_map_iff; exists (k, d); auto.
Qed.

Lemma compare_coverage_lists_distinct_witness :
  NoDup [detail s1_a s2_b; detail s2_b s3_d] /\ NoDup (@nil json)
  /\ forall d, In d [detail s1_a s2_b; detail s2_b s3_d] -> ~ In d (@nil json).
Proof.
  apply (compare_coverage_lists_distinct forwards report3 report4).
  - exact forwards_visits_each_once.
  - vm_compute; reflexivity.
Defined.

Lemma compare_coverage_fails_with_load_edges_witness :
  (forall e,
     compare_coverage forwards (JObj []) report3 = Raise e <->
     load_edges (JObj []) = Raise e
     \/ ((exists A, load_edges (JObj []) = Ok A) /\ load_edges report3 = Raise e))
  /\ ((exists A B, load_edges (JObj []) = Ok A /\ load_edges report3 = Ok B) <->
      exists only_in_1 only_in_2,
        compare_coverage forwards (JObj []) report3 = Ok (only_in_1, only_in_2)).
Proof.
  exact (compare_coverage_fails_with_load_edges forwards (JObj []) report3
           forwards_visits_each_once).
Defined.

Lemma compare_coverage_swap_witness :
  compare_coverage forwards report2 report1 = Ok ([detail s2_b s3_d], []).
Proof.
  apply (compare_coverage_swap forwards report1 report2).
  vm_compute; reflexivity.
Defined.

(** ** [extract_test_scenarios] and [main]: what a record holds *)

Section RecordRange.
Variable max_str_digits : nat.

Lemma decimal_nonneg (s : string) (acc : Z) : (0 <= acc)%Z -> (0 <= decimal acc s)%Z.
Proof.
  revert acc; induction s as [|c s IH]; intros acc H; cbn [decimal]; [assumption|].
  apply IH; pose proof (N2Z.is_nonneg (code c - 48)); lia.
Qed.

Lemma py_int_nonneg (g : string) (z : Z) :
  py_int max_str_digits g = Ok z -> (0 <= z)%Z.
Proof.
  unfold py_int.
  destruct (all_digits g && negb (String.eqb g "")); [|discriminate].
  destruct (too_many_digits max_str_digits g); [discriminate|].
  intros [= <-]; apply decimal_nonneg; lia.
Qed.

Lemma py_float_nonneg (g : string) (q : Q) : py_float g = Ok q -> (0 <= q)%Q.
Proof.
  unfold py_float; destruct (split_dot g) as [whole [frac|]].
  - destruct (all_digits whole && all_digits frac
              && negb (String.eqb whole "" && String.eqb frac "")); [|discriminate].
    intros [= <-]; unfold Qle; simpl.
    pose proof (decimal_nonneg (whole ++ frac) 0 (Z.le_refl 0)); lia.
  - destruct (all_digits whole && negb (String.eqb whole "")); [|discriminate].
    intros [= <-]; unfold Qle; simpl.
    pose proof (decimal_nonneg whole 0 (Z.le_refl 0)); lia.
Qed.

Lemma scenario_of_in_range (log : string) (m : list string) (r : scenario) :
  search (compile pattern) log = Some m ->
  scenario_of max_str_digits m = Ok r -> record_in_range r.
Proof.
  intros Hm Hr.
  apply pattern_groups in Hm as [g1 [g2 [g3 [g4 [-> [H1 _]]]]]].
  unfold scenario_of in Hr; simpl in Hr.
  bind_ok Hr a Ea; bind_ok Hr b Eb; bind_ok Hr c Ec; injection Hr as <-.
  repeat split; try exact (proj1 H1); try exact (proj2 H1).
  - exact (py_int_nonneg g2 a Ea).
  - exact (py_float_nonneg g3 b Eb).
  - exact (py_int_nonneg g4 c Ec).
Qed.

Lemma scan_lines_in_range (logs : list string) :
  forall test_data test_data',
    for_each (scan_line max_str_digits) logs test_data = Ok test_data' ->
    Forall record_in_range test_data -> Forall record_in_range test_data'.
Proof.
  induction logs as [|log logs IH]; intros td td' H Htd; simpl in H.
  - injection H as <-; assumption.
  - bind_ok H td1 E1; apply (IH td1 td' H).
    rewrite scan_line_scenario_of in E1.
    destruct (search (compile pattern) log) as [m|] eqn:Hm.
    + bind_ok E1 r Er; injection E1 as <-.
      apply Forall_app; split; [assumption|].
      constructor; [exact (scenario_of_in_range log m r Hm Er)|constructor].
    + injection E1 as <-; assumption.
Qed.

End RecordRange.

(** Every record the parser returns has an identifier of hexadecimal digits
    and dashes that is not empty, and counts and a coverage that are not
    negative. *)
Theorem extracted_records_in_range (max_str_digits : nat) (logs : list string)
    (test_data : list scenario) :
  extract_test_scenarios max_str_digits logs = Ok test_data ->
  Forall record_in_range test_data.
Proof.
  intros H; apply (scan_lines_in_range max_str_digits logs [] test_data H); constructor.
Qed.

Lemma extracted_records_in_range_witness :
  Forall record_in_range [("abc-123", 42%Z, 75 # 100, 5%Z); ("abc-124", 44%Z, 8 # 10, 6%Z)].
Proof.
  apply (extracted_records_in_range 4300 [noise; record1; noise; noise; record2; noise]).
  vm_compute; reflexivity.
Defined.

Section LibraryCalls.
Context {call : Type}.
Variable raises : list call -> call -> option exc.

Lemma invoke_Raise (history : list call) (c : call) (e : exc) :
  invoke raises history c = Raise e -> library_raised raises e.
Proof.
  unfold invoke; destruct (raises history c) as [e'|] eqn:E; [|discriminate].
  intros [= <-]; exists history, c; exact E.
Qed.

Lemma invoke_Ok (history history' : list call) (c : call) :
  invoke raises history c = Ok history' -> history' = history ++ [c].
Proof.
  unfold invoke; destruct (raises history c); [discriminate|].
  intros [= <-]; reflexivity.
Qed.

Lemma invoke_all_Raise (calls history : list call) (e : exc) :
  invoke_all raises calls history = Raise e -> library_raised raises e.
Proof.
  unfold invoke_all; revert history.
  induction calls as [|c calls IH]; intros history; cbn [for_each]; [discriminate|].
  destruct (invoke raises history c) as [h|e'] eqn:E; cbn [bind].
  - apply IH.
  - intros [= <-]; exact (invoke_Raise history c e' E).
Qed.

Lemma bind_Raise_cases {A B : Type} (m : result A) (k : A -> result B) (e : exc) :
  bind m k = Raise e -> m = Raise e \/ exists a, m = Ok a /\ k a = Raise e.
Proof. destruct m as [a|e']; cbn [bind]; [eauto|intros [= ->]; auto]. Qed.

End LibraryCalls.

(** [plot_graphs] returns the series of lines 53-56, or raises what a call
    to the library raised. *)
Lemma plot_graphs_cases (raises : list pyplot -> pyplot -> option exc)
    (test_data : list scenario) (output_prefix : string) :
  (exists fig, plot_graphs raises test_data output_prefix = Ok fig)
  \/ exists e, plot_graphs raises test_data output_prefix = Raise e
               /\ library_raised raises e.
Proof.
  destruct (plot_graphs raises test_data output_prefix) as [fig|e] eqn:E; [eauto|].
  right; exists e; split; [reflexivity|].
  unfold plot_graphs in E.
  apply bind_Raise_cases in E as [E|[p1 [_ E]]];
    [exact (invoke_all_Raise raises _ _ e E)|].
  apply bind_Raise_cases in E as [E|[p2 [_ E]]];
    [exact (invoke_all_Raise raises _ _ e E)|].
  apply bind_Raise_cases in E as [E|[p3 [_ E]]];
    [exact (invoke_all_Raise raises _ _ e E)|discriminate].
Qed.

(** On a log whose matching lines are parsable and that has one at least,
    [main] computes one point per matching line: the x values are 1 to their
    number, and the point of the i-th matching line has the three numbers of
    its record.  These series it draws and prints [Graphs saved
    successfully.], unless a call to the plotting library raises: then [main]
    raises what the call raised, and prints nothing. *)
Theorem main_draws_matching_lines (raises : list pyplot -> pyplot -> option exc)
    (max_str_digits : nat) (logs : list string) :
  Forall (fun log => line_parsable max_str_digits log = true) logs ->
  filter matches logs <> [] ->
  exists fig,
    x fig = seq 1 (List.length (filter matches logs))
    /\ List.length (edge_covered_counts fig) = List.length (filter matches logs)
    /\ List.length (edge_coverages fig) = List.length (filter matches logs)
    /\ List.length (status_code_counts fig) = List.length (filter matches logs)
    /\ (forall i line,
         nth_error (filter matches logs) i = Some line ->
         exists uuid a b c,
           record_of max_str_digits line = Some (uuid, a, b, c)
           /\ nth_error (edge_covered_counts fig) i = Some a
           /\ nth_error (edge_coverages fig) i = Some b
           /\ nth_error (status_code_counts fig) i = Some c)
    /\ (main raises max_str_digits logs = Ok (Some fig, "Graphs saved successfully.")
        \/ exists e, main raises max_str_digits logs = Raise e
                     /\ library_raised raises e).
Proof.
  intros Hp Hne; apply lines_parsable_convert in Hp.
  pose proof (scan_lines_convert max_str_digits logs Hp []) as Hx.
  pose proof (records_of_matching max_str_digits logs Hp) as Hmap.
  simpl in Hx; fold (extract_test_scenarios max_str_digits logs) in Hx.
  set (test_data := records_of max_str_digits logs) in *.
  assert (Hlen : List.length test_data = List.length (filter matches logs)).
  { rewrite <- (length_map Some), Hmap, length_map; reflexivity. }
  exists {| x := seq 1 (List.length test_data);
            edge_covered_counts := map (fun data => snd (fst (fst data))) test_data;
            edge_coverages := map (fun data => snd (fst data)) test_data;
            status_code_counts := map (fun data => snd data) test_data |}.
  cbn [x edge_covered_counts edge_coverages status_code_counts].
  rewrite !length_map.
  split; [rewrite Hlen; reflexivity|].
  split; [exact Hlen|]; split; [exact Hlen|]; split; [exact Hlen|].
  split.
  - intros i line Hi.
    apply (map_nth_error (record_of max_str_digits)) in Hi.
    rewrite <- Hmap, nth_error_map in Hi.
    destruct (nth_error test_data i) as [[[[uuid a] b] c]|] eqn:Er; [|discriminate].
    injection Hi as Hi; exists uuid, a, b, c.
    split; [symmetry; exact Hi|].
    repeat split.
    + apply (map_nth_error (fun d : scenario => snd (fst (fst d))) _ _ Er).
    + apply (map_nth_error (fun d : scenario => snd (fst d)) _ _ Er).
    + apply (map_nth_error (fun d : scenario => snd d) _ _ Er).
  - unfold main; rewrite Hx; cbn [bind].
    destruct test_data as [|r records].
    { destruct (filter matches logs); [contradiction|discriminate Hlen]. }
    destruct (plot_graphs_cases raises (r :: records) "test_analysis")
      as [[fig E]|[e [E Hlib]]]; rewrite E; cbn [bind].
    + left; rewrite (plot_graphs_series raises _ _ fig E); reflexivity.
    + right; exists e; auto.
Qed.

Lemma main_draws_matching_lines_witness :
  exists fig,
    main quiet 4300 [noise; record1; record2]
    = Ok (Some fig, "Graphs saved successfully.")
    /\ x fig = [1; 2]%nat
    /\ forall i line,
         nth_error (filter matches [noise; record1; record2]) i = Some line ->
         exists uuid a b c,
           record_of 4300 line = Some (uuid, a, b, c)
           /\ nth_error (edge_covered_counts fig) i = Some a
           /\ nth_error (edge_coverages fig) i = Some b
           /\ nth_error (status_code_counts fig) i = Some c.
Proof.
  destruct (main_draws_matching_lines quiet 4300 [noise; record1; record2])
    as [fig [Hx [_ [_ [_ [Hpoints [Hmain|[e [_ [history [c Hr]]]]]]]]]]].
  - repeat constructor; vm_compute; reflexivity.
  - vm_compute; discriminate.
  - exists fig; split; [exact Hmain|split; [exact Hx|exact Hpoints]].
  - discriminate Hr.
Defined.

(** A count of 401 digits is read, and the library refuses to draw it:
    [main] raises [OverflowError]. *)
Example long_count_overflows :
  extract_test_scenarios 4300 [long_count]
  = Ok [("abc-127", (10 ^ 400)%Z, 9 # 10, 7%Z)]
  /\ main float_bound 4300 [long_count] = Raise OverflowError.
Proof. split; vm_compute; reflexivity. Qed.

(** ** The pattern: where and how it matches *)

Section MatcherPositions.
Implicit Types (k : matcher) (s g : string) (gs : list string).

Lemma m_lit_pos text k s gs :
  m_lit text k s = Some gs ->
  exists s', strip_literal text s = Some s' /\ k s' = Some gs.
Proof.
  unfold m_lit; destruct (strip_literal text s) as [s'|]; [eauto|discriminate].
Qed.

Lemma m_lazy_any_pos k s gs :
  m_lazy_any k s = Some gs -> exists before s', s = (before ++ s')%string /\ k s' = Some gs.
Proof.
  induction s as [|c s IH]; simpl.
  - destruct (k EmptyString) eqn:E; [|discriminate].
    intros [= <-]; exists EmptyString, EmptyString; auto.
  - destruct (k (String c s)) eqn:E.
    + intros [= <-]; exists EmptyString, (String c s); auto.
    + destruct (not_newline c); [|discriminate].
      intros H; destruct (IH H) as [before [s' [-> Hk]]].
      exists (String c before), s'; auto.
Qed.

Lemma m_plus_pos cls k s g gs :
  m_plus cls k s = Some (g, gs) -> exists s', s = (g ++ s')%string /\ k s' = Some gs.
Proof.
  revert g gs; induction s as [|c s IH]; simpl; intros g gs; [discriminate|].
  destruct (cls c); [|discriminate].
  destruct (m_plus cls k s) as [[g' gs']|] eqn:E.
  - intros [= <- <-]; destruct (IH g' gs' eq_refl) as [s' [-> Hk]].
    exists s'; auto.
  - destruct (k s) eqn:Ek; [|discriminate].
    intros [= <- <-]; exists s; auto.
Qed.

Lemma m_group_pos cls k s gs :
  m_group cls k s = Some gs ->
  exists g gs' s', gs = g :: gs' /\ s = (g ++ s')%string /\ k s' = Some gs'.
Proof.
  unfold m_group; destruct (m_plus cls k s) as [[g gs']|] eqn:E; [|discriminate].
  intros [= <-]; destruct (m_plus_pos cls k s g gs' E) as [s' [Hs Hk]].
  exists g, gs', s'; auto.
Qed.

Lemma search_pos k s gs :
  search k s = Some gs -> exists before s', s = (before ++ s')%string /\ k s' = Some gs.
Proof.
  induction s as [|c s IH]; simpl.
  - destruct (k EmptyString) eqn:E; [|discriminate].
    intros [= <-]; exists EmptyString, EmptyString; auto.
  - destruct (k (String c s)) eqn:E.
    + intros [= <-]; exists EmptyString, (String c s); auto.
    + intros H; destruct (IH H) as [before [s' [-> Hk]]].
      exists (String c before), s'; auto.
Qed.

Lemma append_assoc s1 s2 s3 : ((s1 ++ s2) ++ s3 = s1 ++ (s2 ++ s3))%string.
Proof. induction s1 as [|c s1 IH]; simpl; [|rewrite IH]; reflexivity. Qed.

End MatcherPositions.

(** A line that matches holds the phrase and the four labels of the pattern,
    in this order and in any case: a line without one of them gives no
    record. *)
Theorem matching_line_has_labels (log : string) :
  matches log = true -> labels_in_order pattern_labels log.
Proof.
  unfold matches; destruct (search (compile pattern) log) as [gs|] eqn:H; [|discriminate].
  intros _; apply search_pos in H as [b0 [s0 [-> H]]]; unfold pattern in H; simpl in H.
  apply m_lit_pos in H as [s1 [L0 H]]; apply m_lazy_any_pos in H as [b1 [s2 [-> H]]].
  apply m_lit_pos in H as [s3 [L1 H]].
  apply m_group_pos in H as [g1 [r1 [s4 [_ [-> H]]]]].
  apply m_lazy_any_pos in H as [b2 [s5 [-> H]]]; apply m_lit_pos in H as [s6 [L2 H]].
  apply m_group_pos in H as [g2 [r2 [s7 [_ [-> H]]]]].
  apply m_lazy_any_pos in H as [b3 [s8 [-> H]]]; apply m_lit_pos in H as [s9 [L3 H]].
  apply m_group_pos in H as [g3 [r3 [s10 [_ [-> H]]]]].
  apply m_lazy_any_pos in H as [b4 [s11 [-> H]]]; apply m_lit_pos in H as [s12 [L4 _]].
  unfold pattern_labels; cbn [labels_in_order].
  exists b0, s0, (b1 ++ s2)%string; split; [reflexivity|split; [exact L0|]].
  exists b1, s2, (g1 ++ b2 ++ s5)%string; split; [reflexivity|split; [exact L1|]].
  exists (g1 ++ b2)%string, s5, (g2 ++ b3 ++ s8)%string.
  split; [symmetry; apply append_assoc|split; [exact L2|]].
  exists (g2 ++ b3)%string, s8, (g3 ++ b4 ++ s11)%string.
  split; [symmetry; apply append_assoc|split; [exact L3|]].
  exists (g3 ++ b4)%string, s11, s12.
  split; [symmetry; apply append_assoc|split; [exact L4|exact I]].
Qed.

Lemma matching_line_has_labels_witness : labels_in_order pattern_labels full_stop.
Proof. apply matching_line_has_labels; vm_compute; reflexivity. Defined.

Section MatcherExtension.
Variable after : string.
Implicit Types (k : matcher) (s : string).

Lemma strip_literal_append text s s' :
  strip_literal text s = Some s' ->
  strip_literal text (s ++ after)%string = Some (s' ++ after)%string.
Proof.
  revert s; induction text as [|a text IH]; intros s; simpl.
  - intros [= <-]; reflexivity.
  - destruct s as [|b s]; simpl; [discriminate|].
    destruct (Ascii.eqb (lower a) (lower b)); [apply IH|discriminate].
Qed.

Lemma m_lit_extends text k : extends_by after k -> extends_by after (m_lit text k).
Proof.
  intros Hk s; unfold m_lit.
  destruct (strip_literal text s) as [s'|] eqn:E; [|congruence].
  rewrite (strip_literal_append text s s' E); apply Hk.
Qed.

Lemma m_lazy_any_extends k : extends_by after k -> extends_by after (m_lazy_any k).
Proof.
  intros Hk s; induction s as [|c s IH]; simpl.
  - destruct (k EmptyString) eqn:E; [|congruence].
    intros _; assert (H : k (EmptyString ++ after)%string <> None)
      by (apply Hk; congruence).
    simpl in H; destruct after as [|c' t]; simpl.
    + destruct (k EmptyString); congruence.
    + destruct (k (String c' t)); congruence.
  - destruct (k (String c s)) eqn:E.
    + intros _; assert (H : k (String c s ++ after)%string <> None)
        by (apply Hk; congruence).
      simpl in H; destruct (k (String c (s ++ after)%string)); congruence.
    + destruct (k (String c (s ++ after)%string)); [congruence|].
      destruct (not_newline c); [exact IH|congruence].
Qed.

Lemma m_plus_extends cls k : extends_by after k -> extends_by after (fun s =>
  match m_plus cls k s with Some (g, gs) => Some (g :: gs) | None => None end).
Proof.
  intros Hk s; induction s as [|c s IH]; simpl; [congruence|].
  destruct (cls c); [|congruence].
  destruct (m_plus cls k s) as [[g gs]|] eqn:E.
  - intros _; destruct (m_plus cls k (s ++ after)%string) as [[g' gs']|]; [congruence|].
    exfalso; apply IH; congruence.
  - destruct (k s) eqn:Ek; [|congruence].
    intros _; destruct (m_plus cls k (s ++ after)%string) as [[g' gs']|]; [congruence|].
    assert (H : k (s ++ after)%string <> None) by (apply Hk; congruence).
    destruct (k (s ++ after)%string); congruence.
Qed.

Lemma compile_extends (p : list item) : extends_by after (compile p).
Proof.
  induction p as [|[text| |cls] p IH]; simpl.
  - intros s _; discriminate.
  - apply m_lit_extends, IH.
  - apply m_lazy_any_extends, IH.
  - apply (m_plus_extends cls (compile p) IH).
Qed.

Lemma search_extends k : extends_by after k -> extends_by after (search k).
Proof.
  intros Hk s; induction s as [|c s IH]; simpl.
  - destruct (k EmptyString) eqn:E; [|congruence].
    intros _; assert (H : k (EmptyString ++ after)%string <> None)
      by (apply Hk; congruence).
    simpl in H; destruct after as [|c' t]; simpl.
    + destruct (k EmptyString); congruence.
    + destruct (k (String c' t)); congruence.
  - destruct (k (String c s)) eqn:E.
    + intros _; assert (H : k (String c s ++ after)%string <> None)
        by (apply Hk; congruence).
      simpl in H; destruct (k (String c (s ++ after)%string)); congruence.
    + destruct (k (String c (s ++ after)%string)); [congruence|exact IH].
Qed.

Lemma search_after_prefix k (before s : string) :
  search k s <> None -> search k (before ++ s)%string <> None.
Proof.
  intros H; induction before as [|c before IH]; simpl; [exact H|].
  destruct (k (String c (before ++ s)%string)); [congruence|exact IH].
Qed.

End MatcherExtension.

(** The pattern is looked for anywhere in the line: a line that matches
    still matches with any text put before it and any text put after it. *)
Theorem match_found_inside_text (before log after : string) :
  matches log = true -> matches (before ++ log ++ after)%string = true.
Proof.
  unfold matches; intros H.
  assert (Hs : search (compile pattern) log <> None)
    by (destruct (search (compile pattern) log); congruence).
  apply (search_extends after _ (compile_extends after pattern)) in Hs.
  apply (search_after_prefix (compile pattern) before) in Hs.
  destruct (search (compile pattern) (before ++ log ++ after)%string); congruence.
Qed.

Lemma match_found_inside_text_witness :
  matches ("[worker-3] " ++ record1 ++ "trailing text")%string = true.
Proof. apply match_found_inside_text; vm_compute; reflexivity. Defined.

Section MatcherCase.
Implicit Types (k : matcher) (s : string) (c : ascii).

Lemma lower_upper c : lower (upper c) = lower c.
Proof. destruct c as [[] [] [] [] [] [] [] []]; reflexivity. Qed.

Lemma not_newline_upper c : not_newline (upper c) = not_newline c.
Proof. destruct c as [[] [] [] [] [] [] [] []]; reflexivity. Qed.

Lemma upper_upper c : upper (upper c) = upper c.
Proof. destruct c as [[] [] [] [] [] [] [] []]; reflexivity. Qed.

Lemma lower_or_upper c : lower c = c \/ upper c = c.
Proof.
  destruct c as [[] [] [] [] [] [] [] []];
    first [left; reflexivity|right; reflexivity].
Qed.

Lemma ignorecase_upper (cls : ascii -> bool) c :
  ignorecase cls (upper c) = ignorecase cls c.
Proof.
  unfold ignorecase; rewrite lower_upper, upper_upper.
  destruct (lower_or_upper c) as [E|E].
  - replace (cls c) with (cls (lower c)) by (rewrite E; reflexivity).
    destruct (cls (upper c)), (cls (lower c)); reflexivity.
  - replace (cls c) with (cls (upper c)) by (rewrite E; reflexivity).
    reflexivity.
Qed.

Lemma pattern_case_blind : case_blind pattern.
Proof.
  unfold case_blind, pattern; repeat constructor; intros c; apply ignorecase_upper.
Qed.

Lemma strip_literal_upcase text s :
  strip_literal text (upcase s) = option_map upcase (strip_literal text s).
Proof.
  revert s; induction text as [|a text IH]; intros s; simpl; [reflexivity|].
  destruct s as [|b s]; simpl; [reflexivity|].
  rewrite lower_upper; destruct (Ascii.eqb (lower a) (lower b)); [apply IH|reflexivity].
Qed.

Lemma m_lit_upcase text k : upcase_blind k -> upcase_blind (m_lit text k).
Proof.
  intros Hk s; unfold m_lit; rewrite strip_literal_upcase.
  destruct (strip_literal text s) as [s'|]; simpl; [apply Hk|reflexivity].
Qed.

Lemma m_lazy_any_upcase k : upcase_blind k -> upcase_blind (m_lazy_any k).
Proof.
  intros Hk s; induction s as [|c s IH]; simpl.
  - change EmptyString with (upcase EmptyString) at 1; rewrite Hk.
    destruct (k EmptyString); reflexivity.
  - change (String (upper c) (upcase s)) with (upcase (String c s)); rewrite Hk.
    destruct (k (String c s)); simpl; [reflexivity|].
    rewrite not_newline_upper; destruct (not_newline c); [exact IH|reflexivity].
Qed.

Lemma m_plus_upcase cls k :
  (forall c, cls (upper c) = cls c) -> upcase_blind k ->
  forall s, m_plus cls k (upcase s)
            = option_map (fun r => (upcase (fst r), map upcase (snd r))) (m_plus cls k s).
Proof.
  intros Hcls Hk s; induction s as [|c s IH]; simpl; [reflexivity|].
  rewrite Hcls; destruct (cls c); [|reflexivity].
  rewrite IH; destruct (m_plus cls k s) as [[g gs]|]; simpl; [reflexivity|].
  rewrite Hk; destruct (k s); reflexivity.
Qed.

Lemma m_group_upcase cls k :
  (forall c, cls (upper c) = cls c) -> upcase_blind k -> upcase_blind (m_group cls k).
Proof.
  intros Hcls Hk s; unfold m_group; rewrite (m_plus_upcase cls k Hcls Hk).
  destruct (m_plus cls k s) as [[g gs]|]; reflexivity.
Qed.

Lemma compile_upcase (p : list item) : case_blind p -> upcase_blind (compile p).
Proof.
  induction 1 as [|[text| |cls] p Hit _ IH]; simpl.
  - intros s; reflexivity.
  - apply m_lit_upcase, IH.
  - apply m_lazy_any_upcase, IH.
  - apply m_group_upcase; assumption.
Qed.

Lemma search_upcase k : upcase_blind k -> upcase_blind (search k).
Proof.
  intros Hk s; induction s as [|c s IH]; simpl.
  - change EmptyString with (upcase EmptyString) at 1; rewrite Hk.
    destruct (k EmptyString); reflexivity.
  - change (String (upper c) (upcase s)) with (upcase (String c s)); rewrite Hk.
    destruct (k (String c s)); simpl; [reflexivity|exact IH].
Qed.

Lemma upcase_digits_dots (g : string) : all_in digit_or_dot g = true -> upcase g = g.
Proof.
  induction g as [|c g IH]; simpl; [reflexivity|].
  intros H; apply andb_true_iff in H as [Hc H]; rewrite IH by assumption; f_equal.
  destruct c as [[] [] [] [] [] [] [] []]; try reflexivity; discriminate Hc.
Qed.

Lemma captured_number_upcase (cls : ascii -> bool) (g : string) :
  (forall c, cls c = true -> digit_or_dot c = true) ->
  captured (ignorecase cls) g -> upcase g = g.
Proof.
  intros Hcls [_ Hall]; apply upcase_digits_dots.
  clear - Hcls Hall; induction g as [|c g IH]; simpl in *; [reflexivity|].
  apply andb_true_iff in Hall as [Hc Hall]; rewrite IH by assumption.
  rewrite andb_true_r.
  unfold ignorecase in Hc.
  destruct (cls c) eqn:E1; [apply Hcls; assumption|].
  destruct (cls (lower c)) eqn:E2.
  - apply Hcls in E2; clear - E2.
    destruct c as [[] [] [] [] [] [] [] []]; try reflexivity; discriminate E2.
  - simpl in Hc; apply Hcls in Hc; clear - Hc.
    destruct c as [[] [] [] [] [] [] [] []]; try reflexivity; discriminate Hc.
Qed.

End MatcherCase.

Section ExtractCapitals.
Variable max_str_digits : nat.

Lemma scenario_of_upcase (log : string) (m : list string) :
  search (compile pattern) log = Some m ->
  scenario_of max_str_digits (map upcase m)
  = r <- scenario_of max_str_digits m ;; Ok (capital_uuid r).
Proof.
  intros Hm.
  apply pattern_groups in Hm as [g1 [g2 [g3 [g4 [-> [_ [H2 [H3 H4]]]]]]]].
  simpl.
  rewrite (captured_number_upcase is_digit g2), (captured_number_upcase digit_or_dot g3),
    (captured_number_upcase is_digit g4); auto;
    try (intros c Hc; unfold digit_or_dot; rewrite Hc; reflexivity).
  unfold scenario_of; simpl.
  destruct (py_int max_str_digits g2); simpl; [|reflexivity].
  destruct (py_float g3); simpl; [|reflexivity].
  destruct (py_int max_str_digits g4); reflexivity.
Qed.

Lemma scan_line_upcase (test_data : list scenario) (log : string) :
  scan_line max_str_digits (map capital_uuid test_data) (upcase log)
  = td <- scan_line max_str_digits test_data log ;; Ok (map capital_uuid td).
Proof.
  rewrite !scan_line_scenario_of.
  rewrite (search_upcase _ (compile_upcase pattern pattern_case_blind) log).
  destruct (search (compile pattern) log) as [m|] eqn:Hm; simpl; [|reflexivity].
  rewrite (scenario_of_upcase log m Hm).
  destruct (scenario_of max_str_digits m) as [r|]; simpl; [|reflexivity].
  rewrite map_app; reflexivity.
Qed.

Lemma scan_lines_upcase (logs : list string) :
  forall test_data,
    for_each (scan_line max_str_digits) (map upcase logs) (map capital_uuid test_data)
    = td <- for_each (scan_line max_str_digits) logs test_data ;;
      Ok (map capital_uuid td).
Proof.
  induction logs as [|log logs IH]; intros test_data; simpl; [reflexivity|].
  rewrite scan_line_upcase.
  destruct (scan_line max_str_digits test_data log) as [td|]; simpl; [apply IH|reflexivity].
Qed.

End ExtractCapitals.

(** The case of the lines is of no account: a line in capital letters matches
    when the line does, and a log in capital letters gives the same records,
    with the identifiers in capital letters, or fails as the log does. *)
Theorem extract_test_scenarios_capitals (max_str_digits : nat) (logs : list string) :
  (forall log, matches (upcase log) = matches log)
  /\ extract_test_scenarios max_str_digits (map upcase logs)
     = td <- extract_test_scenarios max_str_digits logs ;; Ok (map capital_uuid td).
Proof.
  split.
  - intros log; unfold matches.
    rewrite (search_upcase _ (compile_upcase pattern pattern_case_blind) log).
    destruct (search (compile pattern) log); reflexivity.
  - exact (scan_lines_upcase max_str_digits logs []).
Qed.

(** ** [extract_valid_samples]: one sample per category *)

Section ValidSamplesMore.
Implicit Types (c : hval) (valid entry param_name : json)
  (seen_categories : list hval) (output : list json).

Lemma seen_in c seen_categories : seen c seen_categories = true <-> In c seen_categories.
Proof.
  unfold seen; rewrite existsb_exists; split.
  - intros [c' [Hin E]]; apply hval_eqb_eq in E; subst; assumption.
  - intros Hin; exists c; split; [assumption|apply hval_eqb_eq; reflexivity].
Qed.

Lemma set_add_in c c' seen_categories :
  In c (set_add c' seen_categories) <-> c = c' \/ In c seen_categories.
Proof.
  unfold set_add; destruct (seen c' seen_categories) eqn:E; simpl.
  - apply seen_in in E; split; [auto|intros [->|H]; assumption].
  - split; [intros [<-|H]; auto|intros [->|H]; auto].
Qed.

(** What one step of the inner loop does, when it returns. *)
Lemma visit_valid_inv param_name valid seen_categories output seen' output' :
  visit_valid param_name (seen_categories, output) valid = Ok (seen', output') ->
  exists category samples c,
    get valid "category" JNull = Ok category
    /\ get valid "samples" (JArr []) = Ok samples
    /\ hashable category = Ok c
    /\ ((seen c seen_categories = false /\ truthy samples = true
         /\ exists value, first_item samples = Ok value
              /\ seen' = c :: seen_categories
              /\ output' = output ++ [sample param_name value])
        \/ ((seen c seen_categories = true \/ truthy samples = false)
            /\ seen' = seen_categories /\ output' = output)).
Proof.
  unfold visit_valid; intros H.
  bind_ok H category Ec; bind_ok H samples Es; bind_ok H c Eh.
  exists category, samples, c; repeat (split; [assumption|]).
  destruct (seen c seen_categories) eqn:E1; simpl in H.
  - injection H as <- <-; right; auto.
  - destruct (truthy samples) eqn:E2.
    + bind_ok H v1 Ev; injection H as <- <-; left.
      repeat (split; [reflexivity|]); exists v1; repeat split; auto.
      unfold set_add; rewrite E1; reflexivity.
    + injection H as <- <-; right; auto.
Qed.

Lemma visit_valid_seen param_name valid c seen_categories output :
  has_category valid c -> seen c seen_categories = true ->
  visit_valid param_name (seen_categories, output) valid = Ok (seen_categories, output).
Proof.
  intros [category [Hg Hh]] Hs.
  destruct (get_is_dict _ _ _ _ Hg) as [o ->].
  unfold visit_valid; rewrite Hg; simpl.
  destruct (dict_get String.eqb o "samples"); simpl; rewrite Hh; simpl; rewrite Hs; reflexivity.
Qed.

Lemma visit_valids_keep_seen param_name (valids : list json) c :
  forall seen_categories output seen' output',
    for_each (visit_valid param_name) valids (seen_categories, output) = Ok (seen', output') ->
    seen c seen_categories = true -> seen c seen' = true.
Proof.
  induction valids as [|valid valids IH]; intros s o s' o' H Hs; simpl in H.
  - injection H as <- <-; assumption.
  - bind_ok H st E; destruct st as [s1 o1]; apply (IH s1 o1 s' o' H).
    apply visit_valid_inv in E as [_ [_ [c0 [_ [_ [_ [[_ [_ [_ [_ [-> _]]]]]|[_ [-> _]]]]]]]]].
    + apply seen_in; right; apply seen_in; assumption.
    + assumption.
Qed.

Lemma visit_valid_marks param_name valid c first rest seen_categories output st :
  has_category valid c -> has_samples valid (first :: rest) ->
  visit_valid param_name (seen_categories, output) valid = Ok st ->
  seen c (fst st) = true.
Proof.
  intros Hc Hs; rewrite (visit_valid_first_sample _ valid c first rest _ _ Hc Hs).
  destruct (seen c seen_categories) eqn:E; intros [= <-]; simpl; [assumption|].
  apply seen_in, set_add_in; left; reflexivity.
Qed.

(** After an item with samples, the later items of its category add nothing. *)
Lemma later_item_skipped param_name (pre mid post : list json) valid later c first rest
    (st : list hval * list json) :
  has_category valid c -> has_samples valid (first :: rest) -> has_category later c ->
  for_each (visit_valid param_name) (pre ++ valid :: mid ++ later :: post) st
  = for_each (visit_valid param_name) (pre ++ valid :: mid ++ post) st.
Proof.
  intros Hc Hs Hl; rewrite !for_each_app.
  destruct (for_each (visit_valid param_name) pre st) as [[s0 o0]|]; [|reflexivity].
  cbn [bind for_each].
  destruct (visit_valid param_name (s0, o0) valid) as [[s1 o1]|] eqn:E1; [|reflexivity].
  cbn [bind]; rewrite !for_each_app.
  destruct (for_each (visit_valid param_name) mid (s1, o1)) as [[s2 o2]|] eqn:E2;
    [|reflexivity].
  cbn [bind for_each].
  rewrite (visit_valid_seen _ later c s2 o2 Hl); [reflexivity|].
  apply (visit_valids_keep_seen _ mid c s1 o1 s2 o2 E2).
  exact (visit_valid_marks _ valid c first rest s0 o0 (s1, o1) Hc Hs E1).
Qed.

(** The loops only add to the output: what they add does not depend on what
    is there. *)
Lemma visit_valid_frame param_name valid seen_categories output :
  visit_valid param_name (seen_categories, output) valid
  = st <- visit_valid param_name (seen_categories, []) valid ;;
    Ok (fst st, output ++ snd st).
Proof.
  unfold visit_valid.
  destruct (get valid "category" JNull) as [category|]; simpl; [|reflexivity].
  destruct (get valid "samples" (JArr [])) as [samples|]; simpl; [|reflexivity].
  destruct (hashable category) as [c|]; simpl; [|reflexivity].
  destruct (negb (seen c seen_categories) && truthy samples); simpl.
  - destruct (first_item samples); reflexivity.
  - rewrite app_nil_r; reflexivity.
Qed.

Lemma visit_valids_frame param_name (valids : list json) :
  forall seen_categories output,
    for_each (visit_valid param_name) valids (seen_categories, output)
    = st <- for_each (visit_valid param_name) valids (seen_categories, []) ;;
      Ok (fst st, output ++ snd st).
Proof.
  induction valids as [|valid valids IH]; intros s o; cbn [for_each].
  - simpl; rewrite app_nil_r; reflexivity.
  - destruct (visit_valid param_name (s, []) valid) as [[s1 o1]|] eqn:E1;
      rewrite (visit_valid_frame _ valid s o), E1; cbn [bind fst snd]; [|reflexivity].
    rewrite (IH s1 (o ++ o1)), (IH s1 o1).
    destruct (for_each (visit_valid param_name) valids (s1, [])) as [[s2 o2]|];
      cbn [bind fst snd]; [rewrite app_assoc|]; reflexivity.
Qed.

Lemma visit_entry_frame entry output :
  visit_entry output entry = added <- visit_entry [] entry ;; Ok (output ++ added).
Proof.
  unfold visit_entry.
  destruct (get entry "param_name" JNull) as [param_name|]; simpl; [|reflexivity].
  destruct (get entry "valid" (JArr [])) as [valid_entries|]; simpl; [|reflexivity].
  destruct (iter valid_entries) as [valids|]; simpl; [|reflexivity].
  rewrite (visit_valids_frame param_name valids [] output).
  destruct (for_each (visit_valid param_name) valids ([], [])) as [[s o]|]; reflexivity.
Qed.

Lemma visit_entries_frame (entries : list json) :
  forall output,
    for_each visit_entry entries output
    = added <- for_each visit_entry entries [] ;; Ok (output ++ added).
Proof.
  induction entries as [|entry entries IH]; intros output; cbn [for_each].
  - simpl; rewrite app_nil_r; reflexivity.
  - destruct (visit_entry [] entry) as [o1|] eqn:E1;
      rewrite (visit_entry_frame entry output), E1; cbn [bind]; [|reflexivity].
    rewrite (IH (output ++ o1)), (IH o1).
    destruct (for_each visit_entry entries []) as [o2|]; cbn [bind];
      [rewrite app_assoc|]; reflexivity.
Qed.

End ValidSamplesMore.

(** Once an item with samples has been seen, a later item of its category in
    the same entry adds nothing, whatever samples it has: with it or without
    it the output is the same. *)
Theorem later_item_of_seen_category_skipped
    (entries_before entries_after pre mid post : list json)
    (entry entry' valid later : json) (c : hval) (first : json) (rest : list json) :
  has_category valid c -> has_samples valid (first :: rest) -> has_category later c ->
  get entry "param_name" JNull = get entry' "param_name" JNull ->
  get entry "valid" (JArr []) = Ok (JArr (pre ++ valid :: mid ++ later :: post)) ->
  get entry' "valid" (JArr []) = Ok (JArr (pre ++ valid :: mid ++ post)) ->
  collect_samples (JArr (entries_before ++ entry :: entries_after))
  = collect_samples (JArr (entries_before ++ entry' :: entries_after)).
Proof.
  intros Hc Hs Hl Hp Hv Hv'.
  unfold collect_samples; cbn [iter bind]; rewrite !for_each_app.
  destruct (for_each visit_entry entries_before []) as [out|]; cbn [bind for_each];
    [|reflexivity].
  replace (visit_entry out entry') with (visit_entry out entry); [reflexivity|].
  unfold visit_entry; rewrite <- Hp, Hv, Hv'.
  destruct (get entry "param_name" JNull) as [param_name|]; cbn [bind iter]; [|reflexivity].
  rewrite (later_item_skipped param_name pre mid post valid later c first rest _ Hc Hs Hl).
  reflexivity.
Qed.

(** The entries are handled one by one, each with its own set of seen
    categories: the output for a list of entries is the output for its first
    part followed by the output for the rest. *)
Theorem collect_samples_app (entries1 entries2 : list json) :
  collect_samples (JArr (entries1 ++ entries2))
  = output1 <- collect_samples (JArr entries1) ;;
    output2 <- collect_samples (JArr entries2) ;;
    Ok (output1 ++ output2).
Proof.
  unfold collect_samples; cbn [iter bind]; rewrite for_each_app.
  destruct (for_each visit_entry entries1 []) as [o1|]; cbn [bind]; [|reflexivity].
  apply visit_entries_frame.
Qed.

Section ValidSamplesCount.
Implicit Types (c : hval) (valid entry param_name : json).

Lemma sampled_category_added valid category samples c :
  get valid "category" JNull = Ok category ->
  get valid "samples" (JArr []) = Ok samples ->
  hashable category = Ok c ->
  sampled_category valid = if truthy samples then [c] else [].
Proof.
  intros Hc Hs Hh; unfold sampled_category, sampled, category_of.
  rewrite Hc, Hs, Hh; reflexivity.
Qed.

Lemma visit_valids_count param_name (valids : list json) :
  forall seen_categories output seen' output',
    for_each (visit_valid param_name) valids (seen_categories, output)
    = Ok (seen', output') ->
    (List.length output' + List.length seen_categories)%nat
    = (List.length output + List.length seen')%nat
    /\ (NoDup seen_categories -> NoDup seen')
    /\ forall c, In c seen' <->
                 In c seen_categories \/ In c (flat_map sampled_category valids).
Proof.
  induction valids as [|valid valids IH]; intros s o s' o' H; cbn [for_each] in H.
  - injection H as <- <-; simpl; repeat split; auto; tauto.
  - bind_ok H st E; destruct st as [s1 o1].
    destruct (IH s1 o1 s' o' H) as [Hlen [Hnd Hin]].
    apply visit_valid_inv in E
      as [category [samples [c0 [Hc [Hs [Hh [[Hfresh [Htrue [v1 [_ [-> ->]]]]]|[Hskip [-> ->]]]]]]]]].
    + rewrite length_app in Hlen; simpl in Hlen.
      split; [simpl; lia|split].
      * intros Hs0; apply Hnd; constructor; [|assumption].
        intros Hc0; apply seen_in in Hc0; congruence.
      * intros c; rewrite Hin; cbn [flat_map]; rewrite in_app_iff.
        rewrite (sampled_category_added valid category samples c0 Hc Hs Hh), Htrue.
        simpl; tauto.
    + split; [exact Hlen|split; [exact Hnd|]].
      intros c; rewrite Hin; cbn [flat_map]; rewrite in_app_iff.
      rewrite (sampled_category_added valid category samples c0 Hc Hs Hh).
      destruct (truthy samples); simpl; [|tauto].
      destruct Hskip as [Hseen|Hf]; [|discriminate Hf].
      apply seen_in in Hseen; split; [tauto|].
      intros [H1|[[<-|[]]|H3]]; auto.
Qed.

Lemma visit_valids_samples param_name (valids : list json) :
  forall seen_categories output seen' output',
    for_each (visit_valid param_name) valids (seen_categories, output)
    = Ok (seen', output') ->
    exists added,
      output' = output ++ added
      /\ Forall (fun item =>
                   exists valid samples first,
                     In valid valids
                     /\ get valid "samples" (JArr []) = Ok samples
                     /\ first_item samples = Ok first
                     /\ item = sample param_name first) added.
Proof.
  induction valids as [|valid valids IH]; intros s o s' o' H; cbn [for_each] in H.
  - injection H as <- <-; exists []; rewrite app_nil_r; auto.
  - bind_ok H st E; destruct st as [s1 o1].
    destruct (IH s1 o1 s' o' H) as [added [-> Hall]].
    assert (Hall' : Forall (fun item =>
                     exists valid0 samples first,
                       In valid0 (valid :: valids)
                       /\ get valid0 "samples" (JArr []) = Ok samples
                       /\ first_item samples = Ok first
                       /\ item = sample param_name first) added).
    { eapply Forall_impl; [|exact Hall].
      intros item [w [sm [f [Hin Hrest]]]]; exists w, sm, f; split; [right|]; assumption. }
    apply visit_valid_inv in E
      as [category [samples [c0 [Hc [Hs [Hh [[_ [_ [v1 [Hv [_ ->]]]]]|[_ [_ ->]]]]]]]]].
    + exists (sample param_name v1 :: added); split; [rewrite <- app_assoc; reflexivity|].
      constructor; [|exact Hall'].
      exists valid, samples, v1; repeat split; auto; left; reflexivity.
    + exists added; auto.
Qed.

Lemma first_item_first_of (samples value : json) :
  first_item samples = Ok value -> first_of samples value.
Proof.
  destruct samples as [| | | |t|l|o]; try discriminate.
  - destruct t as [|c rest]; [discriminate|].
    intros [= <-]; right; exists c, rest; auto.
  - destruct l as [|a rest]; [discriminate|].
    intros [= <-]; left; exists rest; reflexivity.
Qed.

Lemma visit_entry_samples entry (output output' : list json) :
  visit_entry output entry = Ok output' ->
  exists added, output' = output ++ added /\ Forall (sample_of_entry entry) added.
Proof.
  unfold visit_entry; intros H.
  bind_ok H param_name Ep; bind_ok H valid_entries Ev; bind_ok H valids Ei.
  bind_ok H st Es; destruct st as [s o]; injection H as <-.
  destruct (visit_valids_samples param_name valids [] output s o Es) as [added [-> Hall]].
  exists added; split; [reflexivity|].
  eapply Forall_impl; [|exact Hall].
  intros item [valid [samples [first [Hin [Hs [Hf ->]]]]]].
  exists param_name, valid_entries, valids, valid, samples, first.
  split; [exact Ep|split; [exact Ev|split; [exact Ei|split; [exact Hin|]]]].
  split; [exact Hs|split; [exact (first_item_first_of samples first Hf)|reflexivity]].
Qed.

Lemma visit_entries_samples (entries : list json) :
  forall output output',
    for_each visit_entry entries output = Ok output' ->
    exists added,
      output' = output ++ added
      /\ Forall (fun item => exists entry, In entry entries /\ sample_of_entry entry item)
           added.
Proof.
  induction entries as [|entry entries IH]; intros o o' H; cbn [for_each] in H.
  - injection H as <-; exists []; rewrite app_nil_r; auto.
  - bind_ok H o1 E1.
    destruct (visit_entry_samples entry o o1 E1) as [a1 [-> H1]].
    destruct (IH _ o' H) as [a2 [-> H2]].
    exists (a1 ++ a2); split; [rewrite app_assoc; reflexivity|].
    apply Forall_app; split.
    + eapply Forall_impl; [|exact H1].
      intros item Hs; exists entry; split; [left; reflexivity|assumption].
    + eapply Forall_impl; [|exact H2].
      intros item [e [Hin Hs]]; exists e; split; [right|]; assumption.
Qed.

End ValidSamplesCount.

(** An entry gives as many samples as its valid items have distinct
    categories with samples: one for each. *)
Theorem entry_gives_one_sample_per_category (entry valid_entries : json)
    (valids added : list json) :
  get entry "valid" (JArr []) = Ok valid_entries ->
  iter valid_entries = Ok valids ->
  visit_entry [] entry = Ok added ->
  List.length added = List.length (sampled_categories valids).
Proof.
  intros Hv Hi H; unfold visit_entry in H.
  bind_ok H param_name Ep; rewrite Hv in H; cbn [bind] in H.
  rewrite Hi in H; cbn [bind] in H.
  bind_ok H st Es; destruct st as [s o]; injection H as <-.
  destruct (visit_valids_count param_name valids [] [] s o Es) as [Hlen [Hnd Hin]].
  simpl in Hlen; rewrite Nat.add_0_r in Hlen; rewrite Hlen.
  apply Permutation_length, NoDup_Permutation.
  - apply Hnd; constructor.
  - apply NoDup_nodup.
  - intros c; unfold sampled_categories; rewrite nodup_In, Hin; simpl; tauto.
Qed.

Lemma entry_gives_one_sample_per_category_witness :
  List.length [sample (JStr "orderId") (JStr "abc-123-def")]
  = List.length (sampled_categories
                   [valid_item "uuid" []; item_without_samples "uuid";
                    valid_item "uuid" [JStr "abc-123-def"; JStr "abc-456"];
                    valid_item "uuid" [JStr "ffff"]]).
Proof.
  apply (entry_gives_one_sample_per_category order_entry
           (JArr [valid_item "uuid" []; item_without_samples "uuid";
                  valid_item "uuid" [JStr "abc-123-def"; JStr "abc-456"];
                  valid_item "uuid" [JStr "ffff"]])).
  - reflexivity.
  - reflexivity.
  - vm_compute; reflexivity.
Defined.

(** Every item of the output is the first sample of a valid item of an entry
    under the parameter name of that entry: the name is never that of the
    valid item, and no sample but the first of a list is taken. *)
Theorem samples_come_from_entries (data : json) (entries output : list json) :
  iter data = Ok entries ->
  collect_samples data = Ok output ->
  Forall (fun item => exists entry, In entry entries /\ sample_of_entry entry item) output.
Proof.
  intros Hi H; unfold collect_samples in H; rewrite Hi in H; cbn [bind] in H.
  destruct (visit_entries_samples entries [] output H) as [added [-> Hall]].
  exact Hall.
Qed.

Lemma samples_come_from_entries_witness :
  Forall (fun item => exists entry, In entry [order_entry] /\ sample_of_entry entry item)
    [JObj [("name", JStr "orderId"); ("value", JStr "abc-123-def")]].
Proof.
  apply (samples_come_from_entries (JArr [order_entry])).
  - reflexivity.
  - vm_compute; reflexivity.
Defined.

Lemma later_item_of_seen_category_skipped_witness :
  collect_samples (JArr ([] ++ order_entry :: []))
  = collect_samples
      (JArr ([] ++ JObj [("param_name", JStr "orderId");
                         ("valid", JArr [valid_item "uuid" []; item_without_samples "uuid";
                                         valid_item "uuid" [JStr "abc-123-def"; JStr "abc-456"]])]
                :: [])).
Proof.
  apply (later_item_of_seen_category_skipped [] []
           [valid_item "uuid" []; item_without_samples "uuid"] [] []
           order_entry _
           (valid_item "uuid" [JStr "abc-123-def"; JStr "abc-456"])
           (valid_item "uuid" [JStr "ffff"])
           (HStr "uuid") (JStr "abc-123-def") [JStr "abc-456"]).
  - eexists; split; vm_compute; reflexivity.
  - vm_compute; reflexivity.
  - eexists; split; vm_compute; reflexivity.
  - reflexivity.
  - reflexivity.
  - reflexivity.
Defined.

(** ** Dictionaries with any keys *)

Section DictFacts.
Context {K V : Type} (eqb : K -> K -> bool).
Hypothesis eqb_eq : forall a b, eqb a b = true <-> a = b.
Implicit Types (d : list (K * V)) (k : K) (v : V).

Lemma eqb_same k : eqb k k = true.
Proof. apply eqb_eq; reflexivity. Qed.

Lemma eqb_other k k' : k <> k' -> eqb k k' = false.
Proof. intros H; destruct (eqb k k') eqn:E; [apply eqb_eq in E; contradiction|reflexivity]. Qed.

Lemma get_set_same d k v : dict_get eqb (dict_set eqb d k v) k = Some v.
Proof.
  induction d as [|[k' v'] d IH]; simpl.
  - rewrite eqb_same; reflexivity.
  - destruct (eqb k' k) eqn:E; simpl; rewrite E; auto.
Qed.

Lemma get_set_other d k k' v :
  k <> k' -> dict_get eqb (dict_set eqb d k v) k' = dict_get eqb d k'.
Proof.
  intros Hne; induction d as [|[k0 v0] d IH]; simpl.
  - rewrite (eqb_other k k' Hne); reflexivity.
  - destruct (eqb k0 k) eqn:E; simpl.
    + apply eqb_eq in E; subst k0; rewrite (eqb_other k k' Hne); reflexivity.
    + rewrite IH; reflexivity.
Qed.

Lemma keys_set d k v k' :
  In k' (map fst (dict_set eqb d k v)) <-> k' = k \/ In k' (map fst d).
Proof.
  induction d as [|[k0 v0] d IH]; simpl.
  - intuition congruence.
  - destruct (eqb k0 k) eqn:E; simpl.
    + apply eqb_eq in E; subst k0; intuition congruence.
    + rewrite IH; intuition congruence.
Qed.

Lemma set_NoDup d k v : NoDup (map fst d) -> NoDup (map fst (dict_set eqb d k v)).
Proof.
  induction d as [|[k0 v0] d IH]; simpl; intros H.
  - constructor; [intros []|constructor].
  - inversion H as [|? ? Hnin Hnd]; subst.
    destruct (eqb k0 k) eqn:E; simpl; [constructor; assumption|].
    constructor; [|auto].
    intros Hin; apply keys_set in Hin as [->|Hin]; [|contradiction].
    rewrite eqb_same in E; discriminate.
Qed.

Lemma get_none d k : dict_get eqb d k = None <-> ~ In k (map fst d).
Proof.
  induction d as [|[k0 v0] d IH]; simpl; [tauto|].
  destruct (eqb k0 k) eqn:E.
  - apply eqb_eq in E; subst; split; [discriminate|tauto].
  - rewrite IH; split; [intros H [->|Hin]; [rewrite eqb_same in E; discriminate|auto]|tauto].
Qed.

Lemma get_in d k v : dict_get eqb d k = Some v -> In (k, v) d.
Proof.
  induction d as [|[k0 v0] d IH]; simpl; [discriminate|].
  destruct (eqb k0 k) eqn:E.
  - apply eqb_eq in E; subst; intros [= ->]; left; reflexivity.
  - intros H; right; auto.
Qed.

Lemma in_get d k v : NoDup (map fst d) -> In (k, v) d -> dict_get eqb d k = Some v.
Proof.
  induction d as [|[k0 v0] d IH]; simpl; [intros _ []|].
  intros H [Heq|Hin]; inversion H as [|? ? Hnin Hnd]; subst.
  - injection Heq as -> ->; rewrite eqb_same; reflexivity.
  - destruct (eqb k0 k) eqn:E; [|auto].
    apply eqb_eq in E; subst k0.
    exfalso; apply Hnin; change k with (fst (k, v)); apply in_map; assumption.
Qed.

Lemma set_in d k v k' v' :
  In (k', v') (dict_set eqb d k v) -> (k' = k /\ v' = v) \/ In (k', v') d.
Proof.
  induction d as [|[k0 v0] d IH]; simpl.
  - intros [[= <- <-]|[]]; auto.
  - destruct (eqb k0 k) eqn:E; simpl.
    + apply eqb_eq in E; subst k0; intros [[= <- <-]|H]; auto.
    + intros [H|H]; [auto|destruct (IH H); auto].
Qed.

End DictFacts.

Lemma node_eqb_eq (a b : hval) : Graph.node_eqb a b = true <-> a = b.
Proof. unfold Graph.node_eqb; destruct (hval_eq_dec a b); split; congruence. Qed.

(** ** [build_graph] *)

Section LastOccurrence.
Context {A : Type} (P N : A -> Prop).
Hypothesis P_not_N : forall a, P a -> ~ N a.

Lemma last_snoc_skip (l : list A) (a : A) :
  N a ->
  (exists pre x post, l ++ [a] = pre ++ x :: post /\ P x /\ Forall N post)
  <-> (exists pre x post, l = pre ++ x :: post /\ P x /\ Forall N post).
Proof.
  intros Ha; split.
  - intros [pre [x [post [Heq [Hx Hpost]]]]].
    apply snoc_split in Heq as [[-> [-> ->]]|[post' [-> ->]]].
    + exfalso; exact (P_not_N x Hx Ha).
    + exists pre, x, post'; split; [reflexivity|split; [assumption|]].
      apply Forall_app in Hpost as [Hpost _]; assumption.
  - intros [pre [x [post [-> [Hx Hpost]]]]].
    exists pre, x, (post ++ [a]); split; [|split; [assumption|]].
    + rewrite <- app_assoc; reflexivity.
    + apply Forall_app; split; [assumption|constructor; [exact Ha|constructor]].
Qed.

Lemma last_snoc_hit (l : list A) (a : A) :
  ~ N a ->
  (exists pre x post, l ++ [a] = pre ++ x :: post /\ P x /\ Forall N post) <-> P a.
Proof.
  intros Ha; split.
  - intros [pre [x [post [Heq [Hx Hpost]]]]].
    apply snoc_split in Heq as [[-> [-> ->]]|[post' [-> ->]]]; [assumption|].
    apply Forall_app in Hpost as [_ Hpost]; inversion Hpost; subst; contradiction.
  - intros Hp; exists l, a, []; split; [reflexivity|split; [assumption|constructor]].
Qed.

End LastOccurrence.

Section GraphFacts.
Implicit Types (G : Graph.DiGraph) (u v a b : hval) (m : json).

Lemma node_in_get G a : In a (Graph.nodes G) <-> dict_get Graph.node_eqb G a <> None.
Proof.
  unfold Graph.nodes; pose proof (get_none Graph.node_eqb node_eqb_eq G a) as H.
  destruct (dict_get Graph.node_eqb G a); split; intros H1; try congruence.
  - destruct (in_dec hval_eq_dec a (map fst G)) as [Hin|Hnin]; [assumption|].
    apply H in Hnin; discriminate.
  - exfalso; apply (proj1 H); auto.
Qed.

Lemma add_end_spec G (n : json) G' h :
  Graph.add_end G n = Ok (G', h) ->
  hashable n = Ok h
  /\ In h (Graph.nodes G')
  /\ (forall a, In a (Graph.nodes G') <-> a = h \/ In a (Graph.nodes G))
  /\ (forall a b, edge_attr G' a b = edge_attr G a b)
  /\ (graph_ok G -> graph_ok G').
Proof.
  unfold Graph.add_end; intros H; bind_ok H h0 Eh.
  destruct (dict_get Graph.node_eqb G h0) as [succ|] eqn:Eg.
  - injection H as <- <-; split; [assumption|].
    assert (Hin : In h0 (Graph.nodes G)) by (apply node_in_get; congruence).
    split; [assumption|split; [|split; [reflexivity|auto]]].
    intros a; split; [auto|intros [->|Ha]; assumption].
  - assert (E : G' = dict_set Graph.node_eqb G h0 [] /\ h = h0)
      by (destruct h0; [discriminate|injection H as <- <-; auto..]).
    destruct E as [-> ->]; clear H; split; [assumption|].
    assert (Hn : forall a, In a (Graph.nodes (dict_set Graph.node_eqb G h0 []))
                           <-> a = h0 \/ In a (Graph.nodes G))
      by (intros a; apply (keys_set Graph.node_eqb node_eqb_eq)).
    assert (Ha : forall a b, edge_attr (dict_set Graph.node_eqb G h0 []) a b
                             = edge_attr G a b).
    { intros a b; unfold edge_attr.
      destruct (hval_eq_dec h0 a) as [<-|Hne].
      - rewrite (get_set_same Graph.node_eqb node_eqb_eq), Eg; reflexivity.
      - rewrite (get_set_other Graph.node_eqb node_eqb_eq) by assumption; reflexivity. }
    split; [apply Hn; left; reflexivity|split; [exact Hn|split; [exact Ha|]]].
    intros [Hnd [Hin Hl]]; split; [|split].
    + apply (set_NoDup Graph.node_eqb node_eqb_eq); assumption.
    + intros u successors Hu.
      apply (set_in Graph.node_eqb node_eqb_eq) in Hu as [[_ ->]|Hu]; [constructor|eauto].
    + intros u v d; rewrite Ha; apply Hl.
Qed.

Lemma add_edge_spec G (source target label : json) G' :
  Graph.add_edge G source target label = Ok G' ->
  exists u v,
    hashable source = Ok u /\ hashable target = Ok v
    /\ (forall a, In a (Graph.nodes G') <-> a = u \/ a = v \/ In a (Graph.nodes G))
    /\ (forall a b, edge_label G' a b
                    = if Graph.node_eqb a u && Graph.node_eqb b v then Some label
                      else edge_label G a b)
    /\ (graph_ok G -> graph_ok G').
Proof.
  unfold Graph.add_edge; intros H.
  bind_ok H r1 E1; destruct r1 as [G1 u]; bind_ok H r2 E2; destruct r2 as [G2 v].
  cbn [fst snd] in *; injection H as <-.
  destruct (add_end_spec G source G1 u E1) as [Hu [Hu1 [Hn1 [Ha1 Hok1]]]].
  destruct (add_end_spec G1 target G2 v E2) as [Hv [_ [Hn2 [Ha2 Hok2]]]].
  exists u, v; split; [assumption|split; [assumption|]].
  assert (Hu2 : In u (Graph.nodes G2)) by (apply Hn2; auto).
  apply node_in_get in Hu2.
  destruct (dict_get Graph.node_eqb G2 u) as [succ|] eqn:Es; [clear Hu2|congruence].
  set (datadict := match dict_get Graph.node_eqb succ v with Some d => d | None => [] end).
  set (data' := dict_set String.eqb datadict "label" label).
  assert (Hattr : forall a b,
             edge_attr (dict_set Graph.node_eqb G2 u (dict_set Graph.node_eqb succ v data')) a b
             = if Graph.node_eqb a u && Graph.node_eqb b v then Some data'
               else edge_attr G a b).
  { intros a b; unfold edge_attr at 1.
    destruct (hval_eq_dec u a) as [<-|Hne].
    - rewrite (get_set_same Graph.node_eqb node_eqb_eq).
      rewrite (eqb_same Graph.node_eqb node_eqb_eq); simpl.
      destruct (hval_eq_dec v b) as [<-|Hne].
      + rewrite (get_set_same Graph.node_eqb node_eqb_eq).
        rewrite (eqb_same Graph.node_eqb node_eqb_eq); reflexivity.
      + rewrite (get_set_other Graph.node_eqb node_eqb_eq) by assumption.
        rewrite (eqb_other Graph.node_eqb node_eqb_eq b v) by congruence.
        rewrite <- Ha1, <- Ha2; unfold edge_attr; rewrite Es; reflexivity.
    - rewrite (get_set_other Graph.node_eqb node_eqb_eq) by assumption.
      rewrite (eqb_other Graph.node_eqb node_eqb_eq a u) by congruence; simpl.
      rewrite <- Ha1, <- Ha2; reflexivity. }
  assert (Hlab : dict_get String.eqb data' "label" = Some label)
    by (apply (get_set_same String.eqb String.eqb_eq)).
  split; [|split].
  - intros a; unfold Graph.nodes at 1.
    rewrite (keys_set Graph.node_eqb node_eqb_eq); fold (Graph.nodes G2).
    rewrite Hn2, Hn1; split; [intros [->|[->|[->|H]]]; auto|].
    intros [->|[->|H]]; auto.
  - intros a b; unfold edge_label; rewrite Hattr.
    destruct (Graph.node_eqb a u && Graph.node_eqb b v); [exact Hlab|reflexivity].
  - intros Hok; destruct (Hok2 (Hok1 Hok)) as [Hnd [Hin Hl]]; split; [|split].
    + apply (set_NoDup Graph.node_eqb node_eqb_eq); assumption.
    + intros x successors Hx.
      apply (set_in Graph.node_eqb node_eqb_eq) in Hx as [[_ ->]|Hx]; [|eauto].
      apply (set_NoDup Graph.node_eqb node_eqb_eq).
      apply (Hin u); apply (get_in Graph.node_eqb node_eqb_eq); assumption.
    + intros a b d; rewrite Hattr.
      destruct (Graph.node_eqb a u && Graph.node_eqb b v).
      * intros [= <-]; eauto.
      * intros Hd; destruct (Hok1 Hok) as [_ [_ Hl1]]; destruct Hok as [_ [_ Hl0]].
        exact (Hl0 a b d Hd).
Qed.

Lemma links_as_functional (edge : json) u v m u' v' m' :
  links_as edge u v m -> links_as edge u' v' m' -> u = u' /\ v = v' /\ m = m'.
Proof.
  intros [s [t [Hs [Ht [Hm [Hu Hv]]]]]] [s' [t' [Hs' [Ht' [Hm' [Hu' Hv']]]]]].
  repeat split; congruence.
Qed.

Lemma add_record_spec G (edge : json) G' :
  Graph.add_record G edge = Ok G' ->
  exists u v m,
    links_as edge u v m
    /\ (forall a, In a (Graph.nodes G') <-> a = u \/ a = v \/ In a (Graph.nodes G))
    /\ (forall a b, edge_label G' a b
                    = if Graph.node_eqb a u && Graph.node_eqb b v then Some m
                      else edge_label G a b)
    /\ (graph_ok G -> graph_ok G').
Proof.
  unfold Graph.add_record; intros H.
  bind_ok H source Es; bind_ok H target Et; bind_ok H method Em.
  destruct (add_edge_spec G source target method G' H) as [u [v [Hu [Hv Hrest]]]].
  exists u, v, method; split; [|exact Hrest].
  exists source, target; auto.
Qed.

Lemma build_edges_snoc (edges : list json) (edge : json) :
  Graph.build_edges (edges ++ [edge])
  = bind (Graph.build_edges edges) (fun G => Graph.add_record G edge).
Proof.
  unfold Graph.build_edges; rewrite for_each_app.
  destruct (for_each Graph.add_record edges []) as [G|]; simpl; [|reflexivity].
  destruct (Graph.add_record G edge); reflexivity.
Qed.

(** The graph after the loop: its nodes and the labels of its edges. *)
Lemma build_edges_spec (edges : list json) :
  forall G, Graph.build_edges edges = Ok G ->
    graph_ok G
    /\ (forall a, In a (Graph.nodes G) <->
          exists edge u v m, In edge edges /\ links_as edge u v m /\ (a = u \/ a = v))
    /\ (forall u v m, edge_label G u v = Some m <-> last_linked edges u v m).
Proof.
  induction edges as [|edge edges IH] using rev_ind; intros G H.
  - injection H as <-; split; [|split].
    + unfold graph_ok; split; [constructor|split].
      * intros u successors Hin; destruct Hin.
      * intros u v d Hd; discriminate Hd.
    + intros a; split; [intros []|intros [e [_ [_ [_ [[] _]]]]]].
    + intros u v m; split; [discriminate|].
      intros [pre [e [post [Heq _]]]]; destruct pre; discriminate.
  - rewrite build_edges_snoc in H; bind_ok H G0 E0.
    destruct (IH G0 E0) as [Hok [Hnodes Hlabels]].
    destruct (add_record_spec G0 edge G H) as [u0 [v0 [m0 [Hl [Hn [Hlab Hok']]]]]].
    split; [auto|split].
    + intros a; rewrite Hn, Hnodes; split.
      * intros [->|[->|[e [u [v [m [Hin Hrest]]]]]]].
        -- exists edge, u0, v0, m0; split; [apply in_elt|auto].
        -- exists edge, u0, v0, m0; split; [apply in_elt|auto].
        -- exists e, u, v, m; split; [apply in_or_app; left; assumption|assumption].
      * intros [e [u [v [m [Hin [Hle Ha]]]]]].
        apply in_app_or in Hin as [Hin|[<-|[]]].
        -- right; right; exists e, u, v, m; auto.
        -- destruct (links_as_functional _ _ _ _ _ _ _ Hl Hle) as [<- [<- _]].
           destruct Ha; auto.
    + intros u v m; rewrite Hlab; unfold last_linked.
      destruct (Graph.node_eqb u u0 && Graph.node_eqb v v0) eqn:E.
      * apply andb_true_iff in E as [Eu Ev].
        apply node_eqb_eq in Eu, Ev; subst u0 v0.
        rewrite (last_snoc_hit (fun e => links_as e u v m)
                   (fun e => forall m', ~ links_as e u v m')).
        -- split; [intros [= <-]; assumption|].
           intros Hm; destruct (links_as_functional _ _ _ _ _ _ _ Hl Hm) as [_ [_ ->]].
           reflexivity.
        -- intros Hno; exact (Hno m0 Hl).
      * rewrite (last_snoc_skip (fun e => links_as e u v m)
                   (fun e => forall m', ~ links_as e u v m')).
        -- apply Hlabels.
        -- intros e He Hno; exact (Hno m He).
        -- intros m' Hm'.
           destruct (links_as_functional _ _ _ _ _ _ _ Hl Hm') as [<- [<- _]].
           rewrite !(eqb_same Graph.node_eqb node_eqb_eq) in E; discriminate.
Qed.

End GraphFacts.

Section DrawGraph.
Implicit Types (G : Graph.DiGraph) (u v : hval) (d : Graph.attributes).

Lemma edges_with_data_attr G u v d :
  graph_ok G -> In (u, v, d) (Graph.edges_with_data G) <-> edge_attr G u v = Some d.
Proof.
  intros [Hnd [Hin _]]; unfold Graph.edges_with_data, edge_attr.
  rewrite in_flat_map; split.
  - intros [[u' succ] [Hu Hv]]; cbn [fst snd] in Hv.
    apply in_map_iff in Hv as [[v' d'] [E Hv]]; cbn [fst snd] in E.
    injection E as -> -> ->.
    rewrite (in_get Graph.node_eqb node_eqb_eq G u succ Hnd Hu).
    apply (in_get Graph.node_eqb node_eqb_eq succ v d (Hin u succ Hu) Hv).
  - destruct (dict_get Graph.node_eqb G u) as [succ|] eqn:Eu; [|discriminate].
    intros Hv; exists (u, succ); split.
    + apply (get_in Graph.node_eqb node_eqb_eq); assumption.
    + cbn [fst snd]; apply in_map_iff; exists (v, d); split; [reflexivity|].
      apply (get_in Graph.node_eqb node_eqb_eq); assumption.
Qed.

Lemma edge_labels_ok G :
  graph_ok G ->
  exists labels,
    Graph.edge_labels G = Ok labels
    /\ forall u v m, In (u, v, m) labels <-> edge_label G u v = Some m.
Proof.
  intros Hok.
  set (label_of := fun uvd : hval * hval * Graph.attributes =>
                     (fst uvd, match dict_get String.eqb (snd uvd) "label" with
                               | Some m => m
                               | None => JNull
                               end)).
  exists (map label_of (Graph.edges_with_data G)); split.
  - unfold Graph.edge_labels; apply comprehension_total.
    intros [[u v] d] Hin; apply (edges_with_data_attr G u v d Hok) in Hin.
    destruct Hok as [_ [_ Hl]]; destruct (Hl u v d Hin) as [m Hm].
    unfold dict_getitem, label_of; cbn [fst snd]; rewrite Hm; reflexivity.
  - intros u v m; rewrite in_map_iff; unfold edge_label; split.
    + intros [[[u' v'] d] [E Hin]]; unfold label_of in E; cbn [fst snd] in E.
      injection E as -> -> Hm.
      apply (edges_with_data_attr G u v d Hok) in Hin; rewrite Hin.
      destruct Hok as [_ [_ Hl]]; destruct (Hl u v d Hin) as [m' Hm'].
      rewrite Hm' in Hm |- *; congruence.
    + destruct (edge_attr G u v) as [d|] eqn:Ea; [|discriminate].
      intros Hm; exists (u, v, d); split.
      * unfold label_of; cbn [fst snd]; rewrite Hm; reflexivity.
      * apply (edges_with_data_attr G u v d Hok); assumption.
Qed.

End DrawGraph.

(** The graph has one edge from a service to another however many records
    call from the one to the other, and the label of the edge is the method
    of the last of them.  The hit count of a record plays no part. *)
Theorem build_graph_last_method (data : json) (records : list json)
    (G : Graph.DiGraph) :
  runtime_records data = Ok records ->
  Graph.build_graph data = Ok G ->
  forall u v m, edge_label G u v = Some m <-> last_linked records u v m.
Proof.
  unfold runtime_records, Graph.build_graph; intros Hr H.
  bind_ok H g Eg; bind_ok H edges Ee; bind_ok H rs Ei.
  rewrite Eg in Hr; cbn [bind] in Hr; rewrite Ee in Hr; cbn [bind] in Hr.
  assert (rs = records) by congruence; subst rs.
  exact (proj2 (proj2 (build_edges_spec records G H))).
Qed.

(** The nodes of the graph are the services that are the source or the
    target of a record, each once, and the ends of every edge are nodes. *)
Theorem build_graph_nodes (data : json) (records : list json) (G : Graph.DiGraph) :
  runtime_records data = Ok records ->
  Graph.build_graph data = Ok G ->
  NoDup (Graph.nodes G)
  /\ (forall a, In a (Graph.nodes G) <->
        exists record u v m, In record records /\ links_as record u v m /\ (a = u \/ a = v))
  /\ (forall u v m, edge_label G u v = Some m ->
        In u (Graph.nodes G) /\ In v (Graph.nodes G)).
Proof.
  unfold runtime_records, Graph.build_graph; intros Hr H.
  bind_ok H g Eg; bind_ok H edges Ee; bind_ok H rs Ei.
  rewrite Eg in Hr; cbn [bind] in Hr; rewrite Ee in Hr; cbn [bind] in Hr.
  assert (rs = records) by congruence; subst rs.
  destruct (build_edges_spec records G H) as [[Hnd _] [Hnodes Hlabels]].
  split; [exact Hnd|split; [exact Hnodes|]].
  intros u v m Hm; apply Hlabels in Hm as [pre [record [post [-> [Hl _]]]]].
  split; apply Hnodes; exists record, u, v, m; (split; [apply in_elt|auto]).
Qed.

Lemma build_graph_nodes_witness :
  exists G,
    Graph.build_graph runtime_report = Ok G
    /\ NoDup (Graph.nodes G)
    /\ Graph.nodes G = [HStr "S1"; HStr "S2"; HStr "S3"].
Proof.
  eexists; split; [vm_compute; reflexivity|].
  split; [|reflexivity].
  refine (proj1 (build_graph_nodes runtime_report _ _ eq_refl _)).
  vm_compute; reflexivity.
Defined.

(** [main] raises what [build_graph] raises.  On a graph [build_graph]
    returned the code of [draw_graph] does not fail (every edge has its
    label): [main] returns, or raises what a call to a library raised.  When
    it returns, the graph was drawn and saved, with the labels asked for and
    no others: each edge with the method of the last record between the two
    services. *)
Theorem main_draws_graph
    (raises : list Graph.drawing_call -> Graph.drawing_call -> option exc)
    (data : json) (show_label : bool) :
  (forall e, Graph.build_graph data = Raise e ->
             Graph.main raises data show_label = Raise e)
  /\ (forall G, Graph.build_graph data = Ok G ->
        ((exists calls, Graph.main raises data show_label = Ok calls)
         \/ exists e, Graph.main raises data show_label = Raise e
                      /\ library_raised raises e)
        /\ forall calls,
             Graph.main raises data show_label = Ok calls ->
             drawn_graphs calls = [G]
             /\ saved_files calls = ["service_dependency_graph.svg"]
             /\ (show_label = false -> drawn_labels calls = [])
             /\ (show_label = true ->
                  exists labels,
                    drawn_labels calls = [labels]
                    /\ forall u v m,
                         In (u, v, m) labels <-> edge_label G u v = Some m)).
Proof.
  unfold Graph.main; split.
  { intros e ->; reflexivity. }
  intros G HG; rewrite HG; cbn [bind].
  assert (Hok : graph_ok G).
  { unfold Graph.build_graph in HG.
    bind_ok HG g Eg; bind_ok HG edges Ee; bind_ok HG rs Ei.
    exact (proj1 (build_edges_spec rs G HG)). }
  destruct (edge_labels_ok G Hok) as [labels [El Hl]].
  split.
  - destruct (Graph.draw_graph raises G show_label) as [calls|e] eqn:E; [eauto|].
    right; exists e; split; [reflexivity|].
    unfold Graph.draw_graph in E.
    apply bind_Raise_cases in E as [E|[p1 [_ E]]]; [exact (invoke_Raise raises _ _ e E)|].
    apply bind_Raise_cases in E as [E|[p2 [_ E]]]; [exact (invoke_Raise raises _ _ e E)|].
    apply bind_Raise_cases in E as [E|[p3 [_ E]]]; [exact (invoke_Raise raises _ _ e E)|].
    apply bind_Raise_cases in E as [E|[p4 [_ E]]].
    { destruct show_label; [|discriminate].
      rewrite El in E; cbn [bind] in E; exact (invoke_Raise raises _ _ e E). }
    apply bind_Raise_cases in E as [E|[p5 [_ E]]]; [exact (invoke_Raise raises _ _ e E)|].
    exact (invoke_Raise raises _ _ e E).
  - intros calls E; unfold Graph.draw_graph in E.
    bind_ok E p1 E1; apply invoke_Ok in E1; subst p1.
    bind_ok E p2 E2; apply invoke_Ok in E2; subst p2.
    bind_ok E p3 E3; apply invoke_Ok in E3; subst p3.
    bind_ok E p4 E4.
    bind_ok E p5 E5; apply invoke_Ok in E5; subst p5.
    apply invoke_Ok in E; subst calls.
    destruct show_label.
    + rewrite El in E4; cbn [bind] in E4; apply invoke_Ok in E4; subst p4.
      split; [reflexivity|split; [reflexivity|split; [discriminate|]]].
      intros _; exists labels; split; [reflexivity|exact Hl].
    + injection E4 as <-.
      split; [reflexivity|split; [reflexivity|split; [reflexivity|discriminate]]].
Qed.

Lemma build_graph_last_method_witness :
  exists G,
    Graph.build_graph runtime_report = Ok G
    /\ forall u v m,
         edge_label G u v = Some m
         <-> last_linked [edge s1_a s2_b 0; edge s1_c (endpoint "S2" "/e" "PUT") 4;
                          edge s2_b s3_d 1] u v m.
Proof.
  eexists; split; [vm_compute; reflexivity|].
  apply (build_graph_last_method runtime_report); [reflexivity|vm_compute; reflexivity].
Defined.

(** With a library none of whose calls raises, the graph of the report is
    drawn with the method of the last call from S1 to S2. *)
Example runtime_report_labels :
  exists calls,
    Graph.main quiet runtime_report true = Ok calls
    /\ drawn_labels calls = [[(HStr "S1", HStr "S2", JStr "PUT");
                               (HStr "S2", HStr "S3", JStr "GET")]].
Proof. eexists; split; vm_compute; reflexivity. Qed.

(** [build_graph] returns on a service name between dollar signs, and the
    library raises when the figure is saved: [main] raises [ValueError]. *)
Example dollar_name_fails_when_saved :
  (exists G, Graph.build_graph dollar_report = Ok G)
  /\ Graph.main mathtext dollar_report false = Raise ValueError.
Proof. split; [eexists|]; vm_compute; reflexivity. Qed.

(** ** [load_edges]: the records once more *)

Section LoadAgain.
Implicit Types (edge : json) (s t : snapshot) (k : EdgeKey).

Lemma dict_set_keys_app t k (d : json) :
  exists more, dict_keys (dict_set EdgeKey_eqb t k d) = dict_keys t ++ more.
Proof.
  unfold dict_keys; induction t as [|[k1 v1] t [more IH]]; simpl;
    [exists [k]; reflexivity|].
  destruct (EdgeKey_eqb k1 k); simpl; [exists []; rewrite app_nil_r; reflexivity|].
  exists more; rewrite IH; reflexivity.
Qed.

(** A step from another state: it returns too, the two states agree
    afterwards where they agreed before, and the other state keeps what it
    had or gets what the first one got. *)
Lemma load_edge_again s edge s' :
  load_edge s edge = Ok s' ->
  forall t, exists t',
    load_edge t edge = Ok t'
    /\ (forall k, dict_get EdgeKey_eqb s k = dict_get EdgeKey_eqb t k ->
                  dict_get EdgeKey_eqb s' k = dict_get EdgeKey_eqb t' k)
    /\ (forall k, dict_get EdgeKey_eqb t' k = dict_get EdgeKey_eqb t k
                  \/ dict_get EdgeKey_eqb t' k = dict_get EdgeKey_eqb s' k)
    /\ (is_dict t -> is_dict t')
    /\ exists more, dict_keys t' = dict_keys t ++ more.
Proof.
  intros H t; apply load_edge_inv in H as [[Hc ->]|[k0 [d0 [Hl ->]]]].
  - exists t; rewrite (load_edge_uncovered t edge Hc).
    repeat split; auto; exists []; rewrite app_nil_r; reflexivity.
  - exists (dict_set EdgeKey_eqb t k0 d0); rewrite (load_edge_stores t edge k0 d0 Hl).
    split; [reflexivity|split; [|split; [|split]]].
    + intros k Hk; destruct (EdgeKey_eq_dec k0 k) as [->|Hne].
      * rewrite !dict_get_set_same; reflexivity.
      * rewrite !dict_get_set_other by assumption; assumption.
    + intros k; destruct (EdgeKey_eq_dec k0 k) as [->|Hne].
      * right; rewrite !dict_get_set_same; reflexivity.
      * left; rewrite dict_get_set_other by assumption; reflexivity.
    + apply dict_set_is_dict.
    + apply dict_set_keys_app.
Qed.

Lemma load_again (edges : list json) :
  forall s s', for_each load_edge edges s = Ok s' ->
  forall t, exists t',
    for_each load_edge edges t = Ok t'
    /\ (forall k, dict_get EdgeKey_eqb s k = dict_get EdgeKey_eqb t k ->
                  dict_get EdgeKey_eqb s' k = dict_get EdgeKey_eqb t' k)
    /\ (forall k, dict_get EdgeKey_eqb t k = dict_get EdgeKey_eqb s' k ->
                  dict_get EdgeKey_eqb t' k = dict_get EdgeKey_eqb s' k)
    /\ (is_dict t -> is_dict t')
    /\ exists more, dict_keys t' = dict_keys t ++ more.
Proof.
  induction edges as [|edge edges IH]; intros s s' H t; cbn [for_each] in *.
  - injection H as <-; exists t; repeat split; auto.
    exists []; rewrite app_nil_r; reflexivity.
  - bind_ok H s1 E1.
    destruct (load_edge_again s edge s1 E1 t) as [t1 [Et1 [Hstep [Hor [Hd1 [more1 Hk1]]]]]].
    destruct (IH s1 s' H t1) as [t' [Et' [Hagree [Hfix [Hd [more Hk]]]]]].
    exists t'; rewrite Et1; cbn [bind]; split; [exact Et'|].
    split; [|split; [|split]].
    + intros k Hk0; apply Hagree, Hstep, Hk0.
    + intros k Hk0; destruct (Hor k) as [Hsame|Hnew].
      * apply Hfix; congruence.
      * symmetry; apply Hagree; symmetry; exact Hnew.
    + auto.
    + exists (more1 ++ more); rewrite Hk, Hk1, app_assoc; reflexivity.
Qed.

Lemma dict_ext s t :
  is_dict s -> dict_keys s = dict_keys t ->
  (forall k, dict_get EdgeKey_eqb s k = dict_get EdgeKey_eqb t k) -> s = t.
Proof.
  unfold is_dict; revert t; induction s as [|[k v] s IH]; intros [|[k' v'] t] Hnd Hk Hg;
    simpl in Hk; try discriminate; [reflexivity|].
  injection Hk as <- Hk; inversion Hnd as [|? ? Hnin Hnd']; subst.
  pose proof (Hg k) as Hv; simpl in Hv; rewrite EdgeKey_eqb_refl in Hv.
  injection Hv as <-; f_equal.
  apply IH; [assumption|assumption|].
  intros k0; pose proof (Hg k0) as H0; simpl in H0.
  destruct (EdgeKey_eqb k k0) eqn:E; [|assumption].
  apply EdgeKey_eqb_eq in E; subst k0.
  assert (H1 : dict_get EdgeKey_eqb s k = None) by (apply dict_get_none; assumption).
  assert (H2 : dict_get EdgeKey_eqb t k = None)
    by (apply dict_get_none; unfold dict_keys in *; rewrite <- Hk; assumption).
  congruence.
Qed.

End LoadAgain.

(** Reading the records a second time changes nothing: a report that holds
    its list of edges twice over loads as the report that holds it once, or
    fails as it does. *)
Theorem load_edge_list_twice (edges : list json) :
  load_edge_list (edges ++ edges) = load_edge_list edges.
Proof.
  unfold load_edge_list; rewrite for_each_app.
  destruct (for_each load_edge edges []) as [s|e] eqn:E; cbn [bind]; [|reflexivity].
  destruct (load_again edges [] s E s) as [t [Et [_ [Hfix [Hd [more Hk]]]]]].
  rewrite Et; f_equal.
  assert (Hs : is_dict s) by exact (proj1 (load_edge_list_lookup edges s E)).
  assert (Hg : forall k, dict_get EdgeKey_eqb t k = dict_get EdgeKey_eqb s k)
    by (intros k; apply Hfix; reflexivity).
  assert (Hmore : more = []).
  { destruct more as [|k more]; [reflexivity|exfalso].
    assert (Hin : In k (dict_keys t)) by (rewrite Hk; apply in_elt).
    assert (Hks : In k (dict_keys s)).
    { destruct (in_dec EdgeKey_eq_dec k (dict_keys s)) as [|Hn]; [assumption|].
      apply dict_get_none in Hn; rewrite <- Hg in Hn.
      apply dict_get_none in Hn; contradiction. }
    pose proof (Hd Hs) as Hdt; unfold is_dict in Hdt; rewrite Hk in Hdt.
    apply NoDup_remove_2 in Hdt; apply Hdt, in_or_app; left; assumption. }
  subst more; rewrite app_nil_r in Hk.
  apply dict_ext; [apply Hd; assumption|assumption|assumption].
Qed.
